(** * Borg repository: a transactional key-value store over a segmented log

    Shallow embedding of [src/borg/repository.py] (classes [Repository]
    and [LoggedIO]) and the properties of its specification.

    Conventions of the embedding.
    - Python integers are [Z]; byte strings are [list byte]; [len] is
      [blen]; slices are [bslice]/[bfrom]/[bupto].
    - Dictionaries ([self.segments], [self.compact], the [NSIndex]) are
      stdpp [gmap]s; a missing key raises [KeyError] where Python does.
    - Methods are state transformers in an exception monad over the
      record [Repository]; an exception leaves the mutations done before it
      in place, as in Python.
    - The file system is part of the state: segment files under [data/],
      the files kept aside by [recover_segment], and the top-level files
      ([index.N], [hints.N], ...). Reads see the current content of a file
      (the descriptor cache [self.fds], buffering and the lock are not
      modelled). *)

From Stdlib Require Import ZArith Lia List Bool String Ascii.
From Stdlib Require Import Strings.Byte.
From Stdlib Require Import DecimalString DecimalZ DecimalN.
From stdpp Require Import base option list sorting gmap strings fin_maps.

Local Open Scope Z_scope.

(** ** Bytes *)

Abbreviation bytes := (list byte).

Lemma byte_to_N_inj (a b : byte) : Byte.to_N a = Byte.to_N b -> a = b.
Proof.
  intros H. assert (E : Some a = Some b); [| congruence].
  now rewrite <- (Byte.of_to_N a), <- (Byte.of_to_N b), H.
Qed.

#[global] Instance byte_eq_dec : EqDecision byte :=
  fun a b =>
    match N.eq_dec (Byte.to_N a) (Byte.to_N b) with
    | left H => left (byte_to_N_inj a b H)
    | right H => right (fun E : a = b => H (f_equal Byte.to_N E))
    end.

#[global] Instance byte_countable : Countable byte.
Proof.
  refine (inj_countable' (fun b => Byte.to_N b)
            (fun n => match Byte.of_N n with Some b => b | None => x00 end) _).
  intros b. now rewrite Byte.of_to_N.
Defined.

Definition Z_of_byte (b : byte) : Z := Z.of_N (Byte.to_N b).

Definition byte_of_Z (z : Z) : byte :=
  match Byte.of_N (Z.to_N (z mod 256)) with
  | Some b => b
  | None => x00
  end.

Definition blen (b : bytes) : Z := Z.of_nat (length b).

(** [b[:n]], [b[n:]] and [b[i:j]] for non-negative indices. *)
Definition bupto (n : Z) (b : bytes) : bytes := take (Z.to_nat n) b.
Definition bfrom (n : Z) (b : bytes) : bytes := drop (Z.to_nat n) b.
Definition bslice (i j : Z) (b : bytes) : bytes := bupto (j - i) (bfrom i b).

Definition bytes_eqb (a b : bytes) : bool := bool_decide (a = b).

(** ** Module constants (lines 28-33) *)

Definition MAX_OBJECT_SIZE : Z := 20 * 1024 * 1024.
Definition MAGIC : bytes :=
  [x42; x4f; x52; x47; x5f; x53; x45; x47].   (* b'BORG_SEG' *)
Definition MAGIC_LEN : Z := blen MAGIC.
Definition TAG_PUT : Z := 0.
Definition TAG_DELETE : Z := 1.
Definition TAG_COMMIT : Z := 2.

(** ** zlib.crc32

    [crc32 data value] is Python's [crc32(data, value)]: the CRC-32 of
    [data] continued from the running checksum [value]. *)

Definition crc_poly : Z := 0xEDB88320.
Definition crc_mask : Z := 0xffffffff.

Definition crc_shift (c : Z) : Z :=
  if Z.testbit c 0 then Z.lxor (Z.shiftr c 1) crc_poly else Z.shiftr c 1.

Definition crc_byte (c : Z) (b : byte) : Z :=
  Nat.iter 8 crc_shift (Z.lxor c (Z_of_byte b)).

Definition crc32 (data : bytes) (value : Z) : Z :=
  Z.lxor (fold_left crc_byte data (Z.lxor value crc_mask)) crc_mask.

(** ** struct: little-endian packing *)

Definition le32 (v : Z) : bytes :=
  [byte_of_Z v; byte_of_Z (v / 256); byte_of_Z (v / 65536);
   byte_of_Z (v / 16777216)].

Definition of_le32 (b0 b1 b2 b3 : byte) : Z :=
  Z_of_byte b0 + 256 * Z_of_byte b1 + 65536 * Z_of_byte b2
  + 16777216 * Z_of_byte b3.

Definition fits_I (v : Z) : bool := (0 <=? v) && (v <? 4294967296).
Definition fits_B (v : Z) : bool := (0 <=? v) && (v <? 256).

(** [struct.Struct('<I').pack]; [None] stands for [struct.error]. *)
Definition crc_fmt_pack (v : Z) : option bytes :=
  if fits_I v then Some (le32 v) else None.

(** [struct.Struct('<IB').pack] *)
Definition header_no_crc_fmt_pack (size tag : Z) : option bytes :=
  if fits_I size && fits_B tag then Some (le32 size ++ [byte_of_Z tag])
  else None.

Definition header_fmt_size : Z := 9.
Definition put_header_fmt_size : Z := 41.

(** [struct.Struct('<IIB').unpack]: exactly nine bytes. *)
Definition header_fmt_unpack (h : bytes) : option (Z * Z * Z) :=
  match h with
  | [c0; c1; c2; c3; s0; s1; s2; s3; t] =>
      Some (of_le32 c0 c1 c2 c3, of_le32 s0 s1 s2 s3, Z_of_byte t)
  | _ => None
  end.

(** [struct.Struct('<IIB32s').unpack]: exactly forty-one bytes. *)
Definition put_header_fmt_unpack (h : bytes) : option (Z * Z * Z * bytes) :=
  if bool_decide (blen h = put_header_fmt_size) then
    match header_fmt_unpack (bupto 9 h) with
    | Some (crc, size, tag) => Some (crc, size, tag, bfrom 9 h)
    | None => None
    end
  else None.

(** [LoggedIO.COMMIT] (lines 633-634). *)
Definition _commit : bytes := le32 9 ++ [byte_of_Z TAG_COMMIT].
Definition COMMIT : bytes := le32 (crc32 _commit 0) ++ _commit.

(** ** Exceptions and the method monad *)

Inductive exn : Type :=
| KeyError | IntegrityError | CheckNeeded | ObjectNotFound | SegmentFull
| AttributeError | TypeError | AssertionError | ValueError | RuntimeError
| InternalOSError | FileNotFoundError | StructError.

#[global] Instance exn_eq_dec : EqDecision exn.
Proof. solve_decision. Defined.

(** The result of a call: a value, a raised exception, or [Timeout] when the
    recursion budget of the model is used up (never an exception: no
    handler catches it). *)
Inductive outcome (A : Type) : Type :=
| Ok (a : A)
| Raise (e : exn)
| Timeout.
Arguments Ok {A} a.
Arguments Raise {A} e.
Arguments Timeout {A}.

(** ** State: the write cursor, the disk, the repository object *)

(** [LoggedIO] attributes. [io_write_fd] is [Some s] while a write handle is
    open on the file of segment [s] (the handle keeps pointing at that file
    when [self.segment] is reassigned). The directory fan-out
    [segments_per_dir] only shapes path names and is left out. *)
Record LoggedIO : Type := mkIO {
  io_segment : Z;
  io_offset : Z;
  io_limit : Z;
  io_write_fd : option Z
}.

(** The value of an [NSIndex]: key to [(segment, offset)]. *)
Abbreviation NSIndex := (gmap bytes (Z * Z)).

(** Content of [hints.N] once unpacked by msgpack. *)
Record Hints : Type := mkHints {
  h_version : Z;
  h_segments : gmap Z Z;
  h_compact : gmap Z Z
}.

(** A file of the repository directory, by what its readers can get out of
    it: [NSIndex.read] succeeds on an [IndexFile] only, [msgpack.unpack] on a
    [HintsFile] only. [TransactionsFile] is the append-only audit log, one
    transaction id per line (the time stamp is left out). *)
Inductive File : Type :=
| IndexFile (m : NSIndex)
| HintsFile (h : Hints)
| TransactionsFile (lines : list Z)
| RawFile (content : bytes).

(** Operations on the files of the repository directory, in the order they
    are issued. *)
Inductive event : Type :=
| EvWrite (name : string)           (* open(name, 'wb'), write, close *)
| EvFsync (name : string)           (* flush and os.fsync before the close *)
| EvRename (src dst : string)
| EvAppend (name : string)
| EvUnlink (name : string).

#[global] Instance event_eq_dec : EqDecision event.
Proof. solve_decision. Defined.

Record Disk : Type := mkDisk {
  data : gmap Z bytes;              (* data/<s // segments_per_dir>/<s> *)
  beforerecover : gmap Z bytes;     (* data/.../<s>.beforerecover *)
  top : gmap string File;           (* index.N, hints.N, transactions, ... *)
  journal : list event
}.

(** What [report_error] hands to [logger.error]. *)
Inductive message : Type :=
| MsgIntegrity (segment : Z)
| MsgUnexpectedTag (tag segment : Z)
| MsgAddCommit (transaction_id : Z)
| MsgCountMismatch (on_disk rebuilt : Z)
| MsgIndexMismatch (key : bytes).

Record Repository : Type := mkRepo {
  io : LoggedIO;
  disk : Disk;
  index : option NSIndex;
  segments : gmap Z Z;
  compact : gmap Z Z;
  _active_txn : bool;
  append_only : bool;
  max_segment_size : Z;
  errors : list message
}.

Definition with_io (f : LoggedIO -> LoggedIO) (r : Repository) : Repository :=
  mkRepo (f (io r)) (disk r) (index r) (segments r) (compact r)
         (_active_txn r) (append_only r) (max_segment_size r) (errors r).
Definition with_disk (f : Disk -> Disk) (r : Repository) : Repository :=
  mkRepo (io r) (f (disk r)) (index r) (segments r) (compact r)
         (_active_txn r) (append_only r) (max_segment_size r) (errors r).
Definition with_index (i : option NSIndex) (r : Repository) : Repository :=
  mkRepo (io r) (disk r) i (segments r) (compact r)
         (_active_txn r) (append_only r) (max_segment_size r) (errors r).
Definition with_segments (m : gmap Z Z) (r : Repository) : Repository :=
  mkRepo (io r) (disk r) (index r) m (compact r)
         (_active_txn r) (append_only r) (max_segment_size r) (errors r).
Definition with_compact (m : gmap Z Z) (r : Repository) : Repository :=
  mkRepo (io r) (disk r) (index r) (segments r) m
         (_active_txn r) (append_only r) (max_segment_size r) (errors r).
Definition with_active_txn (b : bool) (r : Repository) : Repository :=
  mkRepo (io r) (disk r) (index r) (segments r) (compact r)
         b (append_only r) (max_segment_size r) (errors r).
Definition with_errors (l : list message) (r : Repository) : Repository :=
  mkRepo (io r) (disk r) (index r) (segments r) (compact r)
         (_active_txn r) (append_only r) (max_segment_size r) l.

Definition set_data (d : gmap Z bytes) (k : Disk) : Disk :=
  mkDisk d (beforerecover k) (top k) (journal k).
Definition set_beforerecover (d : gmap Z bytes) (k : Disk) : Disk :=
  mkDisk (data k) d (top k) (journal k).
Definition set_top (t : gmap string File) (k : Disk) : Disk :=
  mkDisk (data k) (beforerecover k) t (journal k).
Definition log_events (l : list event) (k : Disk) : Disk :=
  mkDisk (data k) (beforerecover k) (top k) (journal k ++ l).

Definition M (A : Type) : Type := Repository -> outcome A * Repository.

Definition ret {A} (a : A) : M A := fun r => (Ok a, r).
Definition raise {A} (e : exn) : M A := fun r => (Raise e, r).
Definition timeout {A} : M A := fun r => (Timeout, r).
Definition bind {A B} (m : M A) (k : A -> M B) : M B :=
  fun r => match m r with
           | (Ok a, r') => k a r'
           | (Raise e, r') => (Raise e, r')
           | (Timeout, r') => (Timeout, r')
           end.
(** [try: m except e: h] for the exceptions selected by [catches]. *)
Definition try_except {A} (m : M A) (catches : exn -> bool) (h : exn -> M A)
  : M A :=
  fun r => match m r with
           | (Raise e, r') => if catches e then h e r' else (Raise e, r')
           | res => res
           end.
(** [try: m finally: f] *)
Definition try_finally {A} (m : M A) (f : M unit) : M A :=
  fun r => match m r with
           | (res, r') =>
               match f r' with
               | (Ok _, r'') => (res, r'')
               | (Raise e, r'') => (Raise e, r'')
               | (Timeout, r'') => (Timeout, r'')
               end
           end.
Definition self : M Repository := fun r => (Ok r, r).
Definition modify (f : Repository -> Repository) : M unit :=
  fun r => (Ok tt, f r).
Definition assert (b : bool) : M unit :=
  if b then ret tt else raise AssertionError.

Notation "'let*' x ':=' m 'in' k" := (bind m (fun x => k))
  (at level 10, x pattern, m at level 100, k at level 200).
Notation "m ';;' k" := (bind m (fun _ => k))
  (at level 100, k at level 200, right associativity).

(** A loop body run on each element in order, stopping at the first
    exception. *)
Fixpoint for_each {A} (l : list A) (body : A -> M unit) : M unit :=
  match l with
  | [] => ret tt
  | x :: l' => body x ;; for_each l' body
  end.

(** ** LoggedIO: reading frames *)

Inductive fmt : Type := put_header_fmt | header_fmt.

Definition fmt_size (f : fmt) : Z :=
  match f with
  | put_header_fmt => put_header_fmt_size
  | header_fmt => header_fmt_size
  end.

Definition tag_in (tag : Z) (tags : list Z) : bool :=
  bool_decide (tag ∈ tags).

(** [fd.read(n)] at position [pos] of a file. *)
Definition read_at (content : bytes) (pos n : Z) : bytes :=
  bupto n (bfrom pos content).

(** [LoggedIO._read] (lines 833-877). [body] is what the file holds after
    the header, that is from the position of [fd]. The result is
    [(size, tag, key, data)]; [key] is [None] for a nine-byte header without
    key, [data] is [None] when [read_data] is false. A relative seek past
    the end of a file succeeds, so the short-seek test never fires. *)
Definition _read (body : bytes) (f : fmt) (header : bytes)
    (acceptable_tags : list Z) (read_data : bool)
  : exn + (Z * Z * option bytes * option bytes) :=
  let hdr_tuple :=
    match f with
    | put_header_fmt =>
        match put_header_fmt_unpack header with
        | Some (crc, size, tag, key) => Some (crc, size, tag, Some key)
        | None => None
        end
    | header_fmt =>
        match header_fmt_unpack header with
        | Some (crc, size, tag) => Some (crc, size, tag, None)
        | None => None
        end
    end in
  match hdr_tuple with
  | None => inl IntegrityError
  | Some (crc, size, tag, key) =>
      if (MAX_OBJECT_SIZE <? size) || (size <? fmt_size f)
      then inl IntegrityError
      else
        let length := size - fmt_size f in
        let keyless_entry :=
          match key with
          | None => tag_in tag [TAG_PUT; TAG_DELETE]
          | Some _ => false
          end in
        let checked (result : Z * Z * option bytes * option bytes) :=
          if tag_in tag acceptable_tags then inr result
          else inl IntegrityError in
        if read_data then
          let data := bupto length body in
          if negb (blen data =? length) then inl IntegrityError
          else if negb (Z.land (crc32 data (crc32 (bfrom 4 header) 0)) crc_mask
                        =? crc)
          then inl IntegrityError
          else if keyless_entry
          then checked (size, tag, Some (bupto 32 data), Some (bfrom 32 data))
          else checked (size, tag, key, Some data)
        else
          if keyless_entry then
            let key' := bupto 32 body in
            if negb (blen key' =? 32) then inl IntegrityError
            else checked (size, tag, Some key', None)
          else checked (size, tag, key, None)
  end.

(** What [iter_objects] yields: [(tag, key, offset, data)] when
    [include_data] is set and [(tag, key, offset, size)] otherwise; the item
    carries both and the consumer picks. *)
Record item : Type := mkItem {
  it_tag : Z;
  it_key : option bytes;
  it_offset : Z;
  it_size : Z;
  it_data : option bytes
}.

(** One turn of the [while header:] loop of [iter_objects] (lines 783-793)
    at [offset]: the end of the file, an exception, or an item. *)
Inductive turn : Type :=
| Stop
| Fault (e : exn)
| Yield (it : item).

Definition next_object (content : bytes) (offset : Z) (read_data : bool)
  : turn :=
  let header := read_at content offset header_fmt_size in
  match header with
  | [] => Stop
  | _ =>
      match _read (bfrom (offset + header_fmt_size) content) header_fmt header
                  [TAG_PUT; TAG_DELETE; TAG_COMMIT] read_data with
      | inl e => Fault e
      | inr (size, tag, key, data) => Yield (mkItem tag key offset size data)
      end
  end.

(** The items of a segment from [offset] on, with how the iteration ends
    ([None]: StopIteration). Every frame is at least nine bytes long, so
    [fuel] above the number of bytes left is never used up. *)
Fixpoint iter_from (fuel : nat) (content : bytes) (offset : Z)
    (read_data : bool) : list item * option exn :=
  match fuel with
  | O => ([], None)
  | S fuel' =>
      match next_object content offset read_data with
      | Stop => ([], None)
      | Fault e => ([], Some e)
      | Yield it =>
          let '(l, e) :=
            iter_from fuel' content (offset + it_size it) read_data in
          (it :: l, e)
      end
  end.

Definition magic_ok (content : bytes) : bool :=
  bytes_eqb (read_at content 0 MAGIC_LEN) MAGIC.

(** [LoggedIO.iter_objects] (lines 769-793) on the content of a segment
    file. *)
Definition iter_objects (content : bytes) (read_data : bool)
  : list item * option exn :=
  if magic_ok content
  then iter_from (S (length content)) content MAGIC_LEN read_data
  else ([], Some IntegrityError).

(** The [while True:] loop of [is_committed_segment] (lines 706-719) over
    the items [iter_objects] yields and the way it ends. *)
Fixpoint commit_scan (items : list item) (ending : option exn)
    (seen_commit : bool) : bool :=
  match items with
  | [] =>
      match ending with
      | Some _ => false
      | None => seen_commit
      end
  | it :: items' =>
      if it_tag it =? TAG_COMMIT then commit_scan items' ending true
      else if seen_commit then false
      else commit_scan items' ending seen_commit
  end.

(** [LoggedIO.is_committed_segment] (lines 689-719) on the content of the
    segment file. *)
Definition is_committed_content (content : bytes) : bool :=
  if blen content <? header_fmt_size then false
  else if negb (bytes_eqb (bfrom (blen content - header_fmt_size) content)
                          COMMIT)
  then false
  else let '(items, ending) := iter_objects content true in
       commit_scan items ending false.

(** [LoggedIO.segment_iterator] (lines 656-664): the segment numbers on
    disk in numeric order, descending when [reverse]. *)
Definition segment_iterator (d : Disk) (reverse : bool) : list Z :=
  let ascending := merge_sort Z.le (map fst (map_to_list (data d))) in
  if reverse then rev ascending else ascending.

Definition get_latest_segment (d : Disk) : option Z :=
  head (segment_iterator d true).

Definition is_committed_segment (d : Disk) (segment : Z) : bool :=
  match data d !! segment with
  | Some content => is_committed_content content
  | None => false
  end.

(** [LoggedIO.get_segments_transaction_id] (lines 671-677). *)
Definition get_segments_transaction_id (d : Disk) : option Z :=
  head (filter (fun s => is_committed_segment d s = true)
               (segment_iterator d true)).

Definition segment_exists (d : Disk) (segment : Z) : bool :=
  bool_decide (is_Some (data d !! segment)).

(** [LoggedIO.segment_size]: [os.path.getsize], [FileNotFoundError] on a
    missing file. *)
Definition segment_size (segment : Z) : M Z :=
  fun r => match data (disk r) !! segment with
           | Some content => (Ok (blen content), r)
           | None => (Raise FileNotFoundError, r)
           end.

(** The loop of [LoggedIO.cleanup] (lines 683-687) over the descending
    segment list. *)
Fixpoint cleanup_loop (l : list Z) (transaction_id : Z) (files : gmap Z bytes)
  : gmap Z bytes :=
  match l with
  | [] => files
  | segment :: l' =>
      if transaction_id <? segment
      then cleanup_loop l' transaction_id (delete segment files)
      else files
  end.

Definition set_segment (s : Z) (i : LoggedIO) : LoggedIO :=
  mkIO s (io_offset i) (io_limit i) (io_write_fd i).

Definition cleanup (transaction_id : Z) : M unit :=
  modify (fun r =>
    with_disk (fun d =>
        set_data (cleanup_loop (segment_iterator d true) transaction_id (data d)) d)
      (with_io (set_segment (transaction_id + 1)) r)).

(** [LoggedIO.delete_segment] (lines 755-761). *)
Definition delete_segment (segment : Z) : M unit :=
  modify (with_disk (fun d => set_data (delete segment (data d)) d)).

(** ** LoggedIO: writing frames *)

(** [LoggedIO.close_segment] (lines 748-753). *)
Definition close_segment : M unit :=
  modify (fun r =>
    match io_write_fd (io r) with
    | Some _ =>
        with_io (fun i => mkIO (io_segment i + 1) 0 (io_limit i) None) r
    | None => r
    end).

(** Modelled from the spec: [platform.SyncFile], the durable file of the
    write path ("an open writable file with a sync() primitive"); its code
    is not part of the sources. Opening it on a segment creates the file
    empty, or empties the one that is there. *)
Definition SyncFile (segment : Z) : M unit :=
  modify (fun r =>
    with_disk (fun d => set_data (<[segment := []]> (data d)) d)
      (with_io (fun i =>
          mkIO (io_segment i) (io_offset i) (io_limit i) (Some segment)) r)).

(** [self._write_fd.write(b)]: the bytes go to the end of the file the
    handle was opened on (nowhere once that file is unlinked). *)
Definition fd_write (b : bytes) : M unit :=
  modify (fun r =>
    match io_write_fd (io r) with
    | Some s =>
        match data (disk r) !! s with
        | Some content =>
            with_disk (fun d => set_data (<[s := content ++ b]> (data d)) d) r
        | None => r
        end
    | None => r
    end).

Definition set_offset (o : Z) (i : LoggedIO) : LoggedIO :=
  mkIO (io_segment i) o (io_limit i) (io_write_fd i).

(** [LoggedIO.get_write_fd] (lines 724-738). *)
Definition get_write_fd (no_new raise_full : bool) : M unit :=
  let* r := self in
  (if negb no_new && negb (io_offset (io r) =? 0)
      && (io_limit (io r) <? io_offset (io r))
   then if raise_full then raise SegmentFull else close_segment
   else ret tt) ;;
  let* r := self in
  match io_write_fd (io r) with
  | None =>
      SyncFile (io_segment (io r)) ;;
      fd_write MAGIC ;;
      modify (with_io (set_offset MAGIC_LEN))
  | Some _ => ret tt
  end.

(** [struct] packing inside a method: [struct.error] when out of range. *)
Definition pack (packed : option bytes) : M bytes :=
  match packed with
  | Some b => ret b
  | None => raise StructError
  end.

(** [LoggedIO.write_put] (lines 879-887). *)
Definition write_put (id data : bytes) (raise_full : bool) : M (Z * Z) :=
  get_write_fd false raise_full ;;
  let size := blen data + put_header_fmt_size in
  let* r := self in
  let offset := io_offset (io r) in
  let* header := pack (header_no_crc_fmt_pack size TAG_PUT) in
  let* crc :=
    pack (crc_fmt_pack
            (Z.land (crc32 data (crc32 id (crc32 header 0))) crc_mask)) in
  fd_write (crc ++ header ++ id ++ data) ;;
  modify (with_io (fun i => set_offset (io_offset i + size) i)) ;;
  let* r := self in
  ret (io_segment (io r), offset).

(** [LoggedIO.write_delete] (lines 889-895). *)
Definition write_delete (id : bytes) (raise_full : bool) : M (Z * Z) :=
  get_write_fd false raise_full ;;
  let* header :=
    pack (header_no_crc_fmt_pack put_header_fmt_size TAG_DELETE) in
  let* crc :=
    pack (crc_fmt_pack (Z.land (crc32 id (crc32 header 0)) crc_mask)) in
  fd_write (crc ++ header ++ id) ;;
  modify (with_io (fun i => set_offset (io_offset i + put_header_fmt_size) i)) ;;
  let* r := self in
  ret (io_segment (io r), put_header_fmt_size).

(** [LoggedIO.write_commit] (lines 897-903). *)
Definition write_commit : M unit :=
  close_segment ;;
  get_write_fd false false ;;
  let* header :=
    pack (header_no_crc_fmt_pack header_fmt_size TAG_COMMIT) in
  let* crc := pack (crc_fmt_pack (Z.land (crc32 header 0) crc_mask)) in
  fd_write (crc ++ header) ;;
  close_segment.

(** [LoggedIO.read] (lines 815-831): the data of the PUT entry at
    [(segment, offset)], or its size when [read_data] is false. *)
Definition read (segment offset : Z) (id : bytes) (read_data : bool)
  : M (option bytes * Z) :=
  let* r := self in
  match data (disk r) !! segment with
  | None => raise FileNotFoundError
  | Some content =>
      let header := read_at content offset put_header_fmt_size in
      match _read (bfrom (offset + put_header_fmt_size) content)
                  put_header_fmt header [TAG_PUT] read_data with
      | inl e => raise e
      | inr (size, tag, key, data) =>
          if negb (bool_decide (Some id = key)) then raise IntegrityError
          else ret (data, size)
      end
  end.

(** The [while len(data) >= 9:] loop of [recover_segment] (lines 804-813):
    what is written after the magic. Every turn shortens [data], so [fuel]
    equal to its length is enough. *)
Fixpoint recover_loop (fuel : nat) (data : bytes) : bytes :=
  match fuel with
  | O => []
  | S fuel' =>
      if blen data <? header_fmt_size then []
      else
        match header_fmt_unpack (bupto header_fmt_size data) with
        | None => []
        | Some (crc, size, tag) =>
            if (size <? header_fmt_size) || (blen data <? size)
            then recover_loop fuel' (bfrom 1 data)
            else if negb (Z.land (crc32 (bslice 4 size data) 0) crc_mask =? crc)
            then recover_loop fuel' (bfrom 1 data)
            else bupto size data ++ recover_loop fuel' (bfrom size data)
        end
  end.

(** [LoggedIO.recover_segment] (lines 795-813). *)
Definition recover_segment (segment : Z) : M unit :=
  let* r := self in
  match data (disk r) !! segment with
  | None => raise FileNotFoundError
  | Some content =>
      modify (with_disk (fun d =>
        set_beforerecover (<[segment := content]> (beforerecover d))
          (set_data (delete segment (data d)) d))) ;;
      modify (with_disk (fun d =>
        set_data (<[segment := MAGIC ++ recover_loop (length content) content]>
                    (data d)) d))
  end.

(** ** Files of the repository directory *)

(** ['%d' % n] *)
Definition fmt_d (n : Z) : string := NilZero.string_of_int (Z.to_int n).

(** [s[n:]], [s.startswith(p)], [s.endswith(p)], [s.isdigit()] then
    [int(s)], on the characters of the strings. *)
Definition chars (s : string) : list ascii := list_ascii_of_string s.
Definition str_from (n : nat) (s : string) : string :=
  string_of_list_ascii (drop n (chars s)).
Definition startswith (p s : string) : bool :=
  bool_decide (chars p `prefix_of` chars s).
Definition endswith (p s : string) : bool :=
  bool_decide (chars p `suffix_of` chars s).
Definition int_of_digits (s : string) : option Z :=
  match NilZero.uint_of_string s with
  | Some u => Some (Z.of_uint u)
  | None => None
  end.

Definition index_name (transaction_id : Z) : string :=
  ("index." ++ fmt_d transaction_id)%string.
Definition hints_name (transaction_id : Z) : string :=
  ("hints." ++ fmt_d transaction_id)%string.

(** [os.stat(...).st_size != 0]: a written index or hints file is never
    empty. *)
Definition st_size_nonzero (f : File) : bool :=
  match f with
  | IndexFile _ | HintsFile _ => true
  | TransactionsFile lines => negb (bool_decide (lines = []))
  | RawFile content => negb (bool_decide (content = []))
  end.

Definition listdir (d : Disk) : list string := map fst (map_to_list (top d)).

(** The number of an [index.N] entry that counts for
    [get_index_transaction_id]. *)
Definition index_number (d : Disk) (fn : string) : option Z :=
  if startswith "index." fn then
    match int_of_digits (str_from 6 fn), top d !! fn with
    | Some n, Some f => if st_size_nonzero f then Some n else None
    | _, _ => None
    end
  else None.

(** [Repository.get_index_transaction_id] (lines 179-186). *)
Definition get_index_transaction_id (d : Disk) : option Z :=
  last (merge_sort Z.le (omap (index_number d) (listdir d))).

Definition unlink (name : string) : M unit :=
  let* r := self in
  match top (disk r) !! name with
  | None => raise FileNotFoundError
  | Some _ =>
      modify (with_disk (fun d =>
        log_events [EvUnlink name] (set_top (delete name (top d)) d)))
  end.

Definition rename (src dst : string) : M unit :=
  let* r := self in
  match top (disk r) !! src with
  | None => raise FileNotFoundError
  | Some f =>
      modify (with_disk (fun d =>
        log_events [EvRename src dst]
          (set_top (<[dst := f]> (delete src (top d))) d)))
  end.

Definition write_file (name : string) (f : File) (fsync : bool) : M unit :=
  modify (with_disk (fun d =>
    log_events (EvWrite name :: if fsync then [EvFsync name] else [])
      (set_top (<[name := f]> (top d)) d))).

Definition append_transaction (transaction_id : Z) : M unit :=
  modify (with_disk (fun d =>
    let lines :=
      match top d !! "transactions"%string with
      | Some (TransactionsFile l) => l
      | _ => []
      end in
    log_events [EvAppend "transactions"%string]
      (set_top (<["transactions"%string :=
                  TransactionsFile (lines ++ [transaction_id])]> (top d)) d))).

(** ** Repository *)

(** [Repository.rollback] (lines 547-551). *)
Definition rollback : M unit :=
  modify (fun r => with_active_txn false (with_index None r)).

(** The names [write_index] removes (lines 339-344). *)
Definition is_stale (transaction_id : Z) (name : string) : bool :=
  (startswith "index." name || startswith "hints." name)
  && negb (endswith ("." ++ fmt_d transaction_id) name).

(** [Repository.write_index] (lines 320-345). *)
Definition write_index : M unit :=
  let* r := self in
  match get_segments_transaction_id (disk r) with
  | None => raise TypeError
  | Some transaction_id =>
      let hints := mkHints 2 (segments r) (compact r) in
      let hints_file := hints_name transaction_id in
      write_file (hints_file ++ ".tmp") (HintsFile hints) true ;;
      rename (hints_file ++ ".tmp") hints_file ;;
      match index r with
      | None => raise AttributeError
      | Some idx =>
          write_file "index.tmp" (IndexFile idx) false ;;
          rename "index.tmp" (index_name transaction_id) ;;
          (if append_only r then append_transaction transaction_id
           else ret tt) ;;
          let* r := self in
          for_each (listdir (disk r))
            (fun name => if is_stale transaction_id name then unlink name
                         else ret tt) ;;
          modify (with_index None)
      end
  end.

(** Dictionary accesses on [self.segments] (a dict), [self.compact] (a
    [defaultdict(int)]) and [self.index]. *)
Definition segments_get (s : Z) : M Z :=
  fun r => match segments r !! s with
           | Some n => (Ok n, r)
           | None => (Raise KeyError, r)
           end.
(** [self.segments[s] += delta] *)
Definition segments_add (s delta : Z) : M unit :=
  let* n := segments_get s in
  modify (fun r => with_segments (<[s := n + delta]> (segments r)) r).
(** [self.segments[s] = n] *)
Definition segments_set (s n : Z) : M unit :=
  modify (fun r => with_segments (<[s := n]> (segments r)) r).
(** [self.segments.setdefault(s, 0)] *)
Definition segments_setdefault (s : Z) : M unit :=
  modify (fun r =>
    match segments r !! s with
    | Some _ => r
    | None => with_segments (<[s := 0]> (segments r)) r
    end).
(** [self.segments.pop(s)] *)
Definition segments_pop (s : Z) : M Z :=
  let* n := segments_get s in
  modify (fun r => with_segments (delete s (segments r)) r) ;;
  ret n.
(** [self.compact[s] += delta] *)
Definition compact_add (s delta : Z) : M unit :=
  modify (fun r =>
    with_compact (<[s := default 0 (compact r !! s) + delta]> (compact r)) r).
(** [del self.compact[s]] *)
Definition compact_del (s : Z) : M unit :=
  let* r := self in
  match compact r !! s with
  | Some _ => modify (with_compact (delete s (compact r)))
  | None => raise KeyError
  end.
(** [self.index[key] = segment, offset] *)
Definition index_set (key : bytes) (segment offset : Z) : M unit :=
  let* r := self in
  match index r with
  | Some idx => modify (with_index (Some (<[key := (segment, offset)]> idx)))
  | None => raise TypeError
  end.
(** [self.index.get(key, (-1, -1)) == (segment, offset)] *)
Definition index_points_to (key : bytes) (segment offset : Z) : M bool :=
  let* r := self in
  match index r with
  | Some idx =>
      ret (bool_decide (default (-1, -1) (idx !! key) = (segment, offset)))
  | None => raise AttributeError
  end.
(** [not self.index]: unset, or an index without entries. *)
Definition index_falsy (r : Repository) : bool :=
  match index r with
  | Some idx => bool_decide (idx = ∅)
  | None => true
  end.

Definition is_SegmentFull (e : exn) : bool := bool_decide (e = SegmentFull).
Definition is_KeyError (e : exn) : bool := bool_decide (e = KeyError).
Definition is_RuntimeError (e : exn) : bool := bool_decide (e = RuntimeError).
Definition is_IntegrityError (e : exn) : bool :=
  bool_decide (e = IntegrityError).
Definition any_exception (e : exn) : bool := true.

(** The two products of the size heuristic of [compact_segments] (line 374)
    are taken exactly: [segment_size > 0.2 * max_segment_size and
    freeable_space < 0.15 * segment_size]. *)
Definition defer_compaction (segment_size max_size freeable_space : Z)
  : bool :=
  (max_size <? 5 * segment_size) && (20 * freeable_space <? 3 * segment_size).

(** [complete_xfer] (lines 356-367); the caller empties [unused]. *)
Definition complete_xfer (unused : list Z) : M unit :=
  write_commit ;;
  for_each unused (fun segment =>
    let* n := segments_pop segment in
    assert (n =? 0) ;;
    delete_segment segment ;;
    compact_del segment).

(** The body of the loop over the entries of a segment being compacted
    (lines 380-396); returns the new value of [unused]. *)
Definition compact_object (segment : Z) (index_transaction_id : option Z)
    (save_space : bool) (it : item) (unused : list Z) : M (list Z) :=
  let tag := it_tag it in
  let offset := it_offset it in
  let* live :=
    if tag =? TAG_PUT then
      match it_key it with
      | Some key => index_points_to key segment offset
      | None => raise TypeError
      end
    else ret false in
  match it_key it, it_data it with
  | Some key, Some data =>
      if live then
        let* (new_segment, offset, unused) :=
          try_except
            (let* (s, o) := write_put key data save_space in
             ret (s, o, unused))
            is_SegmentFull
            (fun _ => complete_xfer unused ;;
                      let* (s, o) := write_put key data false in
                      ret (s, o, [])) in
        index_set key new_segment offset ;;
        segments_setdefault new_segment ;;
        segments_add new_segment 1 ;;
        segments_add segment (-1) ;;
        ret unused
      else if tag =? TAG_DELETE then
        if match index_transaction_id with
           | None => true
           | Some t => t <? segment
           end
        then
          try_except
            (write_delete key save_space ;; ret unused)
            is_SegmentFull
            (fun _ => complete_xfer unused ;;
                      write_delete key false ;; ret [])
        else ret unused
      else ret unused
  | _, _ => ret unused
  end.

(** The loop over [self.io.iter_objects(segment, include_data=True)] of
    [compact_segments]: the generator decodes the next entry from the file
    when asked for it. [fuel] bounds the number of entries; it runs out only
    if the file grows under the iterator. *)
Fixpoint compact_objects (fuel : nat) (segment : Z)
    (index_transaction_id : option Z) (save_space : bool) (offset : Z)
    (unused : list Z) : M (list Z) :=
  match fuel with
  | O => timeout
  | S fuel' =>
      let* r := self in
      match data (disk r) !! segment with
      | None => raise FileNotFoundError
      | Some content =>
          match next_object content offset true with
          | Stop => ret unused
          | Fault e => raise e
          | Yield it =>
              let* unused :=
                compact_object segment index_transaction_id save_space it
                               unused in
              compact_objects fuel' segment index_transaction_id save_space
                              (offset + it_size it) unused
          end
      end
  end.

(** One turn of the loop over [sorted(self.compact.items())] (lines
    369-398). *)
Definition compact_segment (index_transaction_id : option Z)
    (save_space : bool) (entry : Z * Z) (unused : list Z) : M (list Z) :=
  let '(segment, freeable_space) := entry in
  let* r := self in
  match data (disk r) !! segment with
  | None => compact_del segment ;; ret unused
  | Some content =>
      let* size := segment_size segment in
      if defer_compaction size (max_segment_size r) freeable_space
      then ret unused
      else
        segments_setdefault segment ;;
        let* unused :=
          if magic_ok content
          then compact_objects (S (length content)) segment
                 index_transaction_id save_space MAGIC_LEN unused
          else raise IntegrityError in
        let* n := segments_get segment in
        assert (n =? 0) ;;
        ret (unused ++ [segment])
  end.

Fixpoint compact_loop (index_transaction_id : option Z) (save_space : bool)
    (entries : list (Z * Z)) (unused : list Z) : M (list Z) :=
  match entries with
  | [] => ret unused
  | entry :: entries' =>
      let* unused :=
        compact_segment index_transaction_id save_space entry unused in
      compact_loop index_transaction_id save_space entries' unused
  end.

(** [sorted(d.items())] for a dictionary with integer keys. *)
Definition key_le (a b : Z * Z) : Prop := a.1 <= b.1.

#[global] Instance key_le_dec : RelDecision key_le.
Proof. intros a b. unfold key_le. apply _. Defined.

Definition sorted_items (m : gmap Z Z) : list (Z * Z) :=
  merge_sort key_le (map_to_list m).

(** [Repository.compact_segments] (lines 347-399). *)
Definition compact_segments (save_space : bool) : M unit :=
  let* r := self in
  if bool_decide (compact r = ∅) then ret tt
  else
    let index_transaction_id := get_index_transaction_id (disk r) in
    let* unused :=
      compact_loop index_transaction_id save_space
                   (sorted_items (compact r)) [] in
    complete_xfer unused.

(** [Repository.commit] (lines 237-244). *)
Definition commit (save_space : bool) : M unit :=
  write_commit ;;
  let* r := self in
  (if negb (append_only r) then compact_segments save_space else ret tt) ;;
  write_index ;;
  rollback.

(** [report_error] of [check] (lines 482-485); [error_found], a variable of
    [check], is [true] from the first report on. *)
Definition report_error (msg : message) : M bool :=
  modify (fun r => with_errors (errors r ++ [msg]) r) ;;
  ret true.

(** The body of the loop of [_update_index] (lines 422-453). [reporting]
    tells whether a [report] callback was given; the result is the new value
    of [error_found]. *)
Definition update_entry (segment : Z) (reporting : bool) (error_found : bool)
    (it : item) : M bool :=
  let tag := it_tag it in
  if tag =? TAG_PUT then
    match it_key it with
    | None => raise TypeError
    | Some key =>
        let* r := self in
        match index r with
        | None => raise TypeError
        | Some idx =>
            (* try: ... except KeyError: pass *)
            match idx !! key with
            | Some (s, _) =>
                compact_add s (it_size it) ;;
                try_except (segments_add s (-1)) is_KeyError (fun _ => ret tt)
            | None => ret tt
            end ;;
            index_set key segment (it_offset it) ;;
            segments_add segment 1 ;;
            ret error_found
        end
    end
  else if tag =? TAG_DELETE then
    match it_key it with
    | None => raise TypeError
    | Some key =>
        let* r := self in
        match index r with
        | None => raise AttributeError
        | Some idx =>
            match idx !! key with
            | None => ret error_found
            | Some (s, offset) =>
                modify (with_index (Some (delete key idx))) ;;
                let* r := self in
                if segment_exists (disk r) s then
                  segments_add s (-1) ;;
                  let* (_, size) := read s offset key false in
                  compact_add s size ;;
                  ret error_found
                else ret error_found
            end
        end
    end
  else if tag =? TAG_COMMIT then ret error_found
  else if reporting then report_error (MsgUnexpectedTag tag segment)
  else raise CheckNeeded.

Fixpoint update_entries (segment : Z) (reporting : bool) (error_found : bool)
    (items : list item) : M bool :=
  match items with
  | [] => ret error_found
  | it :: items' =>
      let* error_found := update_entry segment reporting error_found it in
      update_entries segment reporting error_found items'
  end.

(** [Repository._update_index] (lines 419-455). [objects] is what the
    iterator passed in yields and how it ends. *)
Definition _update_index (segment : Z) (objects : list item * option exn)
    (reporting : bool) (error_found : bool) : M bool :=
  segments_set segment 0 ;;
  let* error_found :=
    update_entries segment reporting error_found (fst objects) in
  match snd objects with
  | Some e => raise e
  | None => ret tt
  end ;;
  let* n := segments_get segment in
  (if n =? 0 then
     let* size := segment_size segment in compact_add segment size
   else ret tt) ;;
  ret error_found.

(** [self.io.iter_objects(segment, ...)] on the segment file of the disk. *)
Definition iter_segment (segment : Z) (read_data : bool)
  : M (list item * option exn) :=
  let* r := self in
  match data (disk r) !! segment with
  | Some content => ret (iter_objects content read_data)
  | None => ret ([], Some FileNotFoundError)
  end.

(** [Repository._rebuild_sparse] (lines 457-470). *)
Definition _rebuild_sparse (segment : Z) : M unit :=
  modify (fun r => with_compact (<[segment := 0]> (compact r)) r) ;;
  let* n := segments_get segment in
  if n =? 0 then
    let* size := segment_size segment in compact_add segment size
  else
    let* objects := iter_segment segment false in
    for_each (fst objects) (fun it =>
      if it_tag it =? TAG_PUT then
        match it_key it with
        | None => raise TypeError
        | Some key =>
            let* live := index_points_to key segment (it_offset it) in
            if negb live then compact_add segment (it_size it) else ret tt
        end
      else if it_tag it =? TAG_DELETE then compact_add segment (it_size it)
      else ret tt) ;;
    match snd objects with
    | Some e => raise e
    | None => ret tt
    end.

(** The loop of [replay_segments] (lines 406-413) over the ascending
    segment list. *)
Fixpoint replay_loop (index_transaction_id segments_transaction_id : option Z)
    (l : list Z) : M unit :=
  match l with
  | [] => ret tt
  | segment :: l' =>
      if match index_transaction_id with
         | Some i => segment <=? i
         | None => false
         end
      then replay_loop index_transaction_id segments_transaction_id l'
      else
        match segments_transaction_id with
        | None => raise TypeError
        | Some t =>
            if t <? segment then ret tt
            else
              let* objects := iter_segment segment true in
              _update_index segment objects false false ;;
              replay_loop index_transaction_id segments_transaction_id l'
        end
  end.

(** [self.segments = ...; self.compact = FreeSpace(...)] *)
Definition load_hints (segs comp : gmap Z Z) : M unit :=
  modify (fun r => with_compact comp (with_segments segs r)).

(** The methods that call each other when a snapshot has to be rebuilt:
    [open_index] (lines 246-266), [prepare_txn] (lines 268-318),
    [check_transaction] (lines 188-200), [replay_segments] (lines 401-417)
    and [get_transaction_id] (lines 202-204). The source recurses without
    bound; [fuel] counts the nested calls and [Timeout] is the result when
    it is used up. Taking the lock always succeeds. *)
Fixpoint open_index (fuel : nat) (transaction_id : option Z)
    (auto_recover : bool) : M NSIndex :=
  match fuel with
  | O => timeout
  | S fuel' =>
      match transaction_id with
      | None => ret ∅
      | Some t =>
          let* r := self in
          match top (disk r) !! index_name t with
          | Some (IndexFile idx) => ret idx
          | _ =>
              (* except RuntimeError: 'hashindex_read failed' *)
              try_except (unlink (index_name t)) any_exception
                         (fun _ => raise InternalOSError) ;;
              if negb auto_recover then raise RuntimeError
              else
                let* t' := get_transaction_id fuel' in
                prepare_txn fuel' t' true ;;
                commit false ;;
                let* t'' := get_transaction_id fuel' in
                open_index fuel' t'' true
          end
      end
  end
with prepare_txn (fuel : nat) (transaction_id : option Z) (do_cleanup : bool)
  : M unit :=
  match fuel with
  | O => timeout
  | S fuel' =>
      modify (with_active_txn true) ;;
      let* r := self in
      (if index_falsy r || bool_decide (transaction_id = None) then
         let* idx :=
           try_except (open_index fuel' transaction_id false) is_RuntimeError
             (fun _ => check_transaction fuel' ;;
                       open_index fuel' transaction_id false) in
         modify (with_index (Some idx))
       else ret tt) ;;
      match transaction_id with
      | None => load_hints ∅ ∅
      | Some t =>
          (if do_cleanup then cleanup t else ret tt) ;;
          let* r := self in
          match top (disk r) !! hints_name t with
          | Some (HintsFile hints) =>
              if h_version hints =? 1 then
                load_hints (h_segments hints) ∅ ;;
                for_each
                  (merge_sort Z.le (map fst (map_to_list (h_compact hints))))
                  _rebuild_sparse
              else if negb (h_version hints =? 2) then raise ValueError
              else load_hints (h_segments hints) (h_compact hints)
          | found =>
              (* msgpack.UnpackException, msgpack.ExtraData or
                 FileNotFoundError *)
              (if bool_decide (found = None) then ret tt
               else unlink (hints_name t)) ;;
              unlink (index_name t) ;;
              check_transaction fuel' ;;
              prepare_txn fuel' transaction_id true
          end
      end
  end
with check_transaction (fuel : nat) : M unit :=
  match fuel with
  | O => timeout
  | S fuel' =>
      let* r := self in
      let index_transaction_id := get_index_transaction_id (disk r) in
      let segments_transaction_id := get_segments_transaction_id (disk r) in
      if bool_decide (index_transaction_id <> None)
         && bool_decide (segments_transaction_id = None)
      then raise CheckNeeded
      else if negb (bool_decide
                      (index_transaction_id = segments_transaction_id))
      then
        let* replay_from :=
          match index_transaction_id, segments_transaction_id with
          | Some i, Some t =>
              if t <? i then ret None else ret index_transaction_id
          | Some i, None => raise TypeError
          | None, _ => ret index_transaction_id
          end in
        replay_segments fuel' replay_from segments_transaction_id
      else ret tt
  end
with replay_segments (fuel : nat)
    (index_transaction_id segments_transaction_id : option Z) : M unit :=
  match fuel with
  | O => timeout
  | S fuel' =>
      prepare_txn fuel' index_transaction_id false ;;
      try_finally
        (let* r := self in
         replay_loop index_transaction_id segments_transaction_id
                     (segment_iterator (disk r) false) ;;
         write_index)
        rollback
  end
with get_transaction_id (fuel : nat) : M (option Z) :=
  match fuel with
  | O => timeout
  | S fuel' =>
      check_transaction fuel' ;;
      let* r := self in
      ret (get_index_transaction_id (disk r))
  end.

(** The body of the loop of [check] over the segments (lines 505-517). *)
Definition check_segment (repair : bool) (transaction_id : option Z)
    (error_found : bool) (segment : Z) : M bool :=
  match transaction_id with
  | None => raise TypeError
  | Some t =>
      if t <? segment then ret error_found
      else
        let* objects := iter_segment segment true in
        let* (error_found, objects) :=
          match snd objects with
          | None => ret (error_found, objects)
          | Some e =>
              if is_IntegrityError e then
                let* error_found := report_error (MsgIntegrity segment) in
                if repair then
                  recover_segment segment ;;
                  let* objects := iter_segment segment true in
                  match snd objects with
                  | None => ret (error_found, objects)
                  | Some e' => raise e'
                  end
                else ret (error_found, ([], None))
              else raise e
          end in
        _update_index segment objects true error_found
  end.

Fixpoint check_segments (repair : bool) (transaction_id : option Z)
    (error_found : bool) (l : list Z) : M bool :=
  match l with
  | [] => ret error_found
  | segment :: l' =>
      let* error_found :=
        check_segment repair transaction_id error_found segment in
      check_segments repair transaction_id error_found l'
  end.

(** The comparison of the index found on disk with the rebuilt one (lines
    525-533). *)
Fixpoint compare_index (current_index : NSIndex)
    (entries : list (bytes * (Z * Z))) (error_found : bool) : M bool :=
  match entries with
  | [] => ret error_found
  | (key, value) :: entries' =>
      let* error_found :=
        if negb (bool_decide (default (-1, -1) (current_index !! key) = value))
        then report_error (MsgIndexMismatch key)
        else ret error_found in
      compare_index current_index entries' error_found
  end.

(** [Repository.check] (lines 472-545). *)
Definition check (fuel : nat) (repair save_space : bool) : M bool :=
  let* r := self in
  if append_only r && repair then raise ValueError
  else
    let error_found := false in
    assert (negb (_active_txn r)) ;;
    let* (transaction_id, current_index) :=
      try_except
        (let* t := get_transaction_id fuel in
         let* idx := open_index fuel t true in
         ret (t, Some idx))
        any_exception
        (fun _ => let* r := self in
                  ret (get_segments_transaction_id (disk r), None)) in
    let* r := self in
    let transaction_id :=
      match transaction_id with
      | None => get_index_transaction_id (disk r)
      | Some _ => transaction_id
      end in
    let transaction_id :=
      match transaction_id with
      | None => get_latest_segment (disk r)
      | Some _ => transaction_id
      end in
    (if repair then
       match transaction_id with
       | Some t => cleanup t
       | None => raise TypeError
       end
     else ret tt) ;;
    let* r := self in
    let segments_transaction_id := get_segments_transaction_id (disk r) in
    prepare_txn fuel None true ;;
    let* r := self in
    let* error_found :=
      check_segments repair transaction_id error_found
                     (segment_iterator (disk r) false) in
    let* error_found :=
      if repair && bool_decide (segments_transaction_id = None) then
        match transaction_id with
        | None => raise TypeError
        | Some t =>
            let* error_found := report_error (MsgAddCommit t) in
            modify (with_io (set_segment (t + 1))) ;;
            write_commit ;;
            ret error_found
        end
      else ret error_found in
    let* error_found :=
      match current_index with
      | Some current =>
          if negb (bool_decide (current = ∅)) && negb repair then
            let* r := self in
            match index r with
            | None => raise TypeError
            | Some idx =>
                if negb (Z.of_nat (size current) =? Z.of_nat (size idx))
                then report_error
                       (MsgCountMismatch (Z.of_nat (size current))
                                         (Z.of_nat (size idx)))
                else compare_index current (map_to_list idx) error_found
            end
          else ret error_found
      | None => ret error_found
      end in
    (if repair then compact_segments save_space ;; write_index else ret tt) ;;
    rollback ;;
    ret (negb error_found || repair).

(** [Repository.get] (lines 568-575). *)
Definition get (fuel : nat) (id_ : bytes) : M bytes :=
  let* r := self in
  (if index_falsy r then
     let* t := get_transaction_id fuel in
     let* idx := open_index fuel t true in
     modify (with_index (Some idx))
   else ret tt) ;;
  let* r := self in
  match index r with
  | None => raise TypeError
  | Some idx =>
      match idx !! id_ with
      | None => raise ObjectNotFound
      | Some (segment, offset) =>
          let* (data, _) := read segment offset id_ true in
          match data with
          | Some d => ret d
          | None => raise TypeError
          end
      end
  end.

(** [Repository.put] (lines 581-598). *)
Definition put (fuel : nat) (id data : bytes) : M unit :=
  let* r := self in
  (if negb (_active_txn r) then
     let* t := get_transaction_id fuel in prepare_txn fuel t true
   else ret tt) ;;
  let* r := self in
  match index r with
  | None => raise TypeError
  | Some idx =>
      match idx !! id with
      | None => ret tt
      | Some (segment, offset) =>
          segments_add segment (-1) ;;
          let* (_, size) := read segment offset id false in
          compact_add segment size ;;
          let* (segment, size) := write_delete id false in
          compact_add segment size ;;
          segments_setdefault segment
      end
  end ;;
  let* (segment, offset) := write_put id data false in
  segments_setdefault segment ;;
  segments_add segment 1 ;;
  index_set id segment offset.

(** [Repository.delete] (lines 600-612). *)
Definition delete (fuel : nat) (id : bytes) : M unit :=
  let* r := self in
  (if negb (_active_txn r) then
     let* t := get_transaction_id fuel in prepare_txn fuel t true
   else ret tt) ;;
  let* r := self in
  match index r with
  | None => raise AttributeError
  | Some idx =>
      match idx !! id with
      | None => raise ObjectNotFound
      | Some (segment, offset) =>
          modify (with_index (Some (base.delete id idx))) ;;
          segments_add segment (-1) ;;
          let* (_, size) := read segment offset id false in
          compact_add segment size ;;
          let* (segment, size) := write_delete id false in
          compact_add segment size ;;
          segments_setdefault segment
      end
  end.

(** * Properties *)

(** ** Bytes, slices and packing *)

Lemma Z_of_byte_range (b : byte) : 0 <= Z_of_byte b < 256.
Proof.
  unfold Z_of_byte. pose proof (Byte.to_N_bounded b) as H. lia.
Qed.

Lemma Z_of_byte_of_Z (z : Z) : Z_of_byte (byte_of_Z z) = z mod 256.
Proof.
  unfold Z_of_byte, byte_of_Z.
  pose proof (Z.mod_pos_bound z 256 ltac:(lia)) as Hb.
  destruct (Byte.of_N (Z.to_N (z mod 256))) as [b|] eqn:E.
  - apply Byte.to_of_N in E. rewrite E. lia.
  - apply Byte.of_N_None_iff in E. lia.
Qed.

Lemma of_le32_le32 (v : Z) :
  0 <= v < 4294967296 ->
  match le32 v with
  | [b0; b1; b2; b3] => of_le32 b0 b1 b2 b3 = v
  | _ => False
  end.
Proof.
  intros Hv. unfold le32, of_le32. rewrite !Z_of_byte_of_Z.
  pose proof (Z.div_mod v 256 ltac:(lia)).
  pose proof (Z.div_mod (v / 256) 256 ltac:(lia)).
  pose proof (Z.div_mod (v / 256 / 256) 256 ltac:(lia)).
  replace (v / 65536) with (v / 256 / 256)
    by (rewrite Z.div_div by lia; reflexivity).
  replace (v / 16777216) with (v / 256 / 256 / 256)
    by (rewrite !Z.div_div by lia; reflexivity).
  assert (v / 256 / 256 / 256 < 256).
  { rewrite !Z.div_div by lia. apply Z.div_lt_upper_bound; lia. }
  assert (0 <= v / 256 / 256 / 256).
  { rewrite !Z.div_div by lia. apply Z.div_pos; lia. }
  rewrite (Z.mod_small (v / 256 / 256 / 256)) by lia. lia.
Qed.

Lemma fits_I_spec (v : Z) : fits_I v = true <-> 0 <= v < 4294967296.
Proof. unfold fits_I. rewrite andb_true_iff, Z.leb_le, Z.ltb_lt. tauto. Qed.

Lemma land_mask_range (x : Z) : 0 <= Z.land x crc_mask < 4294967296.
Proof.
  change crc_mask with (Z.ones 32). rewrite Z.land_ones by lia.
  change (2 ^ 32) with 4294967296. apply Z.mod_pos_bound. lia.
Qed.

Lemma blen_nonneg (b : bytes) : 0 <= blen b.
Proof. unfold blen. lia. Qed.

Lemma blen_app (a b : bytes) : blen (a ++ b) = blen a + blen b.
Proof. unfold blen. rewrite length_app. lia. Qed.

Lemma blen_cons (x : byte) (b : bytes) : blen (x :: b) = 1 + blen b.
Proof. unfold blen. cbn [length]. lia. Qed.

Lemma blen_nil : blen [] = 0.
Proof. reflexivity. Qed.

Lemma blen_le32 (v : Z) : blen (le32 v) = 4.
Proof. reflexivity. Qed.

Lemma bupto_app (a b : bytes) : bupto (blen a) (a ++ b) = a.
Proof.
  unfold bupto, blen. rewrite Nat2Z.id. now rewrite take_app_length.
Qed.

Lemma bfrom_app (a b : bytes) : bfrom (blen a) (a ++ b) = b.
Proof.
  unfold bfrom, blen. rewrite Nat2Z.id. now rewrite drop_app_length.
Qed.

Lemma bupto_all (n : Z) (a : bytes) : blen a <= n -> bupto n a = a.
Proof. unfold bupto, blen. intros H. apply take_ge. lia. Qed.

Lemma blen_bupto (n : Z) (a : bytes) :
  0 <= n -> blen (bupto n a) = Z.min n (blen a).
Proof. unfold bupto, blen. intros H. rewrite length_take. lia. Qed.

Lemma blen_bfrom (n : Z) (a : bytes) :
  0 <= n -> blen (bfrom n a) = Z.max 0 (blen a - n).
Proof. unfold bfrom, blen. intros H. rewrite length_drop. lia. Qed.

Lemma bfrom_bfrom (n m : Z) (a : bytes) :
  0 <= n -> 0 <= m -> bfrom m (bfrom n a) = bfrom (n + m) a.
Proof.
  unfold bfrom. intros Hn Hm. rewrite drop_drop. f_equal. lia.
Qed.

Lemma bfrom_0 (a : bytes) : bfrom 0 a = a.
Proof. reflexivity. Qed.

(** Reading a slice that was laid down after a prefix. *)
Lemma read_at_app (p f rest : bytes) :
  read_at (p ++ f ++ rest) (blen p) (blen f) = f.
Proof. unfold read_at. now rewrite bfrom_app, bupto_app. Qed.

Lemma bfrom_app_app (p f rest : bytes) :
  bfrom (blen p + blen f) (p ++ f ++ rest) = rest.
Proof.
  rewrite <- bfrom_bfrom by apply blen_nonneg.
  now rewrite !bfrom_app.
Qed.

(** ** CRC-32 *)

Lemma lxor_mask_twice (x : Z) : Z.lxor (Z.lxor x crc_mask) crc_mask = x.
Proof. now rewrite Z.lxor_assoc, Z.lxor_nilpotent, Z.lxor_0_r. Qed.

(** [crc32(b, crc32(a, v)) == crc32(a + b, v)] *)
Lemma crc32_app (a b : bytes) (v : Z) :
  crc32 (a ++ b) v = crc32 b (crc32 a v).
Proof.
  unfold crc32. rewrite fold_left_app. now rewrite lxor_mask_twice.
Qed.

Arguments le32 : simpl never.
Arguments crc32 : simpl never.
Arguments byte_of_Z : simpl never.
Arguments Z_of_byte : simpl never.
Arguments blen : simpl never.
Arguments bupto : simpl never.
Arguments bfrom : simpl never.

(** ** Frames as written *)

(** The bytes [write_put], [write_delete] and [write_commit] hand to
    [fd.write]. *)
Definition put_header (data : bytes) : bytes :=
  le32 (blen data + put_header_fmt_size) ++ [byte_of_Z TAG_PUT].
Definition put_frame (id data : bytes) : bytes :=
  le32 (Z.land (crc32 data (crc32 id (crc32 (put_header data) 0))) crc_mask)
  ++ put_header data ++ id ++ data.
Definition delete_header : bytes :=
  le32 put_header_fmt_size ++ [byte_of_Z TAG_DELETE].
Definition delete_frame (id : bytes) : bytes :=
  le32 (Z.land (crc32 id (crc32 delete_header 0)) crc_mask)
  ++ delete_header ++ id.

Lemma COMMIT_frame : COMMIT = le32 (Z.land (crc32 _commit 0) crc_mask) ++ _commit.
Proof. reflexivity. Qed.

Lemma blen_put_frame (id data : bytes) :
  blen (put_frame id data) = 9 + blen id + blen data.
Proof.
  unfold put_frame, put_header. rewrite !blen_app, !blen_le32.
  rewrite blen_cons, blen_nil. lia.
Qed.

Lemma blen_delete_frame (id : bytes) : blen (delete_frame id) = 9 + blen id.
Proof.
  unfold delete_frame, delete_header. rewrite !blen_app, !blen_le32.
  rewrite blen_cons, blen_nil. lia.
Qed.

(** ** The write cursor *)

(** [get_write_fd] starts a new segment file when the offset is past the
    limit. *)
Definition rolls (i : LoggedIO) : bool :=
  negb (io_offset i =? 0) && (io_limit i <? io_offset i).

(** The open write handle, if any, is on the file of [self.segment], and
    [self.offset] is the length of that file. *)
Definition cursor_ok (r : Repository) : Prop :=
  match io_write_fd (io r) with
  | Some s =>
      s = io_segment (io r) /\
      exists content, data (disk r) !! s = Some content /\
                      blen content = io_offset (io r) /\
                      MAGIC_LEN <= io_offset (io r)
  | None => True
  end.

(** Where the next frame goes: the segment, and what its file holds in
    front of the frame. *)
Definition write_target (r : Repository) : Z * bytes :=
  match io_write_fd (io r) with
  | Some s =>
      if rolls (io r) then (io_segment (io r) + 1, MAGIC)
      else (s, default [] (data (disk r) !! s))
  | None => (io_segment (io r), MAGIC)
  end.

(** The state once [frame] is written at the target. *)
Definition written (r : Repository) (frame : bytes) : Repository :=
  let '(w, prefix) := write_target r in
  with_disk (fun d => set_data (<[w := prefix ++ frame]> (data d)) d)
    (with_io (fun i => mkIO w (blen prefix + blen frame) (io_limit i) (Some w))
       r).

Lemma Repository_eq (a b : Repository) :
  io a = io b -> disk a = disk b -> index a = index b ->
  segments a = segments b -> compact a = compact b ->
  _active_txn a = _active_txn b -> append_only a = append_only b ->
  max_segment_size a = max_segment_size b -> errors a = errors b -> a = b.
Proof. destruct a, b; cbn; intros; subst; reflexivity. Qed.

Lemma Disk_eq (a b : Disk) :
  data a = data b -> beforerecover a = beforerecover b -> top a = top b ->
  journal a = journal b -> a = b.
Proof. destruct a, b; cbn; intros; subst; reflexivity. Qed.

Ltac unfold_state :=
  lazy beta iota zeta delta
    [with_io with_disk with_index with_segments with_compact
     with_active_txn with_errors set_data set_beforerecover set_top
     log_events set_offset set_segment
     io disk index segments compact _active_txn append_only
     max_segment_size errors data beforerecover top journal
     io_segment io_offset io_limit io_write_fd] in *.

Ltac run := unfold bind, ret, raise, self, modify in *; unfold_state.

Lemma get_write_fd_run (r : Repository) :
  cursor_ok r -> get_write_fd false false r = (Ok tt, written r []).
Proof.
  intros Hc. unfold get_write_fd, written, write_target, cursor_ok in *.
  unfold close_segment, SyncFile, fd_write, rolls.
  destruct r as [[seg off lim fd] [dat bef tp jr] idx sgs cmp act ao mx er].
  run. cbn [negb andb].
  destruct fd as [s|]; cbn.
  - destruct Hc as (-> & c & Hs & Hl & Hm).
    destruct (negb (off =? 0) && (lim <? off)) eqn:R; run.
    + rewrite lookup_insert_eq. run. now rewrite insert_insert_eq.
    + rewrite Hs. cbn. rewrite app_nil_r, blen_nil, Z.add_0_r.
      rewrite insert_id by done. now rewrite Hl.
  - destruct (negb (off =? 0) && (lim <? off)); run;
      rewrite lookup_insert_eq; run; now rewrite insert_insert_eq.
Qed.

Lemma emit_run (r : Repository) (frame : bytes) :
  bind (fd_write frame)
       (fun _ => modify (with_io (fun i =>
                   set_offset (io_offset i + blen frame) i)))
       (written r []) = (Ok tt, written r frame).
Proof.
  unfold written, fd_write. destruct (write_target r) as [w prefix].
  run. rewrite lookup_insert_eq. run.
  now rewrite insert_insert_eq, app_nil_r, blen_nil, Z.add_0_r.
Qed.

Lemma written_io (r : Repository) (frame : bytes) :
  io (written r frame) =
  mkIO (write_target r).1 (blen (write_target r).2 + blen frame)
       (io_limit (io r)) (Some (write_target r).1).
Proof. unfold written. now destruct (write_target r). Qed.

Lemma written_data (r : Repository) (frame : bytes) :
  data (disk (written r frame)) =
  <[(write_target r).1 := (write_target r).2 ++ frame]> (data (disk r)).
Proof. unfold written. now destruct (write_target r). Qed.

Lemma written_rest (r : Repository) (frame : bytes) :
  index (written r frame) = index r /\
  segments (written r frame) = segments r /\
  compact (written r frame) = compact r /\
  _active_txn (written r frame) = _active_txn r /\
  append_only (written r frame) = append_only r /\
  max_segment_size (written r frame) = max_segment_size r /\
  errors (written r frame) = errors r /\
  top (disk (written r frame)) = top (disk r) /\
  journal (disk (written r frame)) = journal (disk r) /\
  beforerecover (disk (written r frame)) = beforerecover (disk r).
Proof. unfold written. now destruct (write_target r). Qed.

Lemma written_cursor_ok (r : Repository) (frame : bytes) :
  cursor_ok r -> cursor_ok (written r frame).
Proof.
  intros Hc. unfold cursor_ok in *. rewrite written_io, written_data. cbn.
  split; [done|]. eexists. rewrite lookup_insert_eq. split; [done|].
  rewrite blen_app. split; [done|].
  pose proof (blen_nonneg frame).
  enough (MAGIC_LEN <= blen (write_target r).2) by lia.
  unfold write_target.
  destruct (io_write_fd (io r)) eqn:E; [|done].
  destruct (rolls (io r)); [done|]. cbn.
  destruct Hc as (_ & c & -> & Hl & Hm). cbn. lia.
Qed.

Lemma pack_header_no_crc (size tag : Z) :
  0 <= size < 4294967296 -> 0 <= tag < 256 ->
  header_no_crc_fmt_pack size tag = Some (le32 size ++ [byte_of_Z tag]).
Proof.
  intros Hs Ht. unfold header_no_crc_fmt_pack, fits_B.
  rewrite (proj2 (fits_I_spec size)) by done.
  destruct (Z.leb_spec 0 tag), (Z.ltb_spec tag 256); try lia. done.
Qed.

Lemma pack_crc (x : Z) :
  crc_fmt_pack (Z.land x crc_mask) = Some (le32 (Z.land x crc_mask)).
Proof.
  unfold crc_fmt_pack.
  now rewrite (proj2 (fits_I_spec _)) by apply land_mask_range.
Qed.

(** [write_put] appends the whole PUT frame at the write target and
    returns where it starts. *)
Lemma write_put_run (r : Repository) (id data : bytes) :
  cursor_ok r -> blen id = 32 ->
  blen data + put_header_fmt_size < 4294967296 ->
  write_put id data false r =
  (Ok ((write_target r).1, blen (write_target r).2),
   written r (put_frame id data)).
Proof.
  intros Hc Hid Hs. unfold write_put.
  unfold bind at 1. rewrite get_write_fd_run by done.
  unfold bind at 1, self at 1.
  pose proof (blen_nonneg data). unfold put_header_fmt_size in *.
  rewrite pack_header_no_crc by (unfold TAG_PUT; lia).
  unfold pack at 1, bind at 1, ret at 1.
  rewrite pack_crc. unfold pack at 1, bind at 1, ret at 1.
  pose proof (emit_run r (put_frame id data)) as E.
  rewrite blen_put_frame, Hid in E.
  replace (9 + 32 + blen data) with (blen data + 41) in E by lia.
  unfold bind at 1 in E. unfold bind at 1.
  unfold put_frame, put_header, put_header_fmt_size in E.
  destruct (fd_write _ (written r [])) as [[| |] r1] eqn:F; try discriminate.
  unfold bind at 1. rewrite E.
  unfold bind, self, ret. rewrite !written_io. cbn [io_segment io_offset].
  now rewrite blen_nil, Z.add_0_r.
Qed.

Lemma write_delete_run (r : Repository) (id : bytes) :
  cursor_ok r -> blen id = 32 ->
  write_delete id false r =
  (Ok ((write_target r).1, put_header_fmt_size),
   written r (delete_frame id)).
Proof.
  intros Hc Hid. unfold write_delete.
  unfold bind at 1. rewrite get_write_fd_run by done.
  unfold put_header_fmt_size in *.
  rewrite pack_header_no_crc by (unfold TAG_DELETE; lia).
  unfold pack at 1, bind at 1, ret at 1.
  rewrite pack_crc. unfold pack at 1, bind at 1, ret at 1.
  pose proof (emit_run r (delete_frame id)) as E.
  rewrite blen_delete_frame, Hid in E. change (9 + 32) with 41 in E.
  unfold bind at 1 in E. unfold bind at 1.
  unfold delete_frame, delete_header, put_header_fmt_size in E.
  destruct (fd_write _ (written r [])) as [[| |] r1] eqn:F; try discriminate.
  unfold bind at 1. rewrite E.
  unfold bind, self, ret. now rewrite !written_io.
Qed.

(** The state [close_segment] leaves. *)
Definition closed (r : Repository) : Repository :=
  match io_write_fd (io r) with
  | Some _ =>
      with_io (fun i => mkIO (io_segment i + 1) 0 (io_limit i) None) r
  | None => r
  end.

Lemma closed_fd (r : Repository) : io_write_fd (io (closed r)) = None.
Proof. unfold closed. destruct (io_write_fd (io r)) eqn:E; [done|]. apply E. Qed.

(** The segment [write_commit] puts the COMMIT entry in, and the state it
    leaves. *)
Definition commit_segment (r : Repository) : Z :=
  match io_write_fd (io r) with
  | Some _ => io_segment (io r) + 1
  | None => io_segment (io r)
  end.

Definition committed (r : Repository) : Repository :=
  with_disk (fun d =>
      set_data (<[commit_segment r := MAGIC ++ COMMIT]> (data d)) d)
    (with_io (fun i => mkIO (commit_segment r + 1) 0 (io_limit i) None) r).

Lemma fd_write_run (r : Repository) (s : Z) (c b : bytes) :
  io_write_fd (io r) = Some s -> data (disk r) !! s = Some c ->
  fd_write b r
  = (Ok tt, with_disk (fun d => set_data (<[s := c ++ b]> (data d)) d) r).
Proof. intros Hf Hd. unfold fd_write, modify. now rewrite Hf, Hd. Qed.

Lemma close_segment_run (r : Repository) (s : Z) :
  io_write_fd (io r) = Some s ->
  close_segment r
  = (Ok tt,
     with_io (fun i => mkIO (io_segment i + 1) 0 (io_limit i) None) r).
Proof. intros Hf. unfold close_segment, modify. now rewrite Hf. Qed.

Lemma write_commit_run (r : Repository) :
  write_commit r = (Ok tt, committed r).
Proof.
  unfold write_commit. unfold bind at 1.
  change (close_segment r) with (Ok tt, closed r).
  unfold bind at 1. rewrite get_write_fd_run
    by (unfold cursor_ok; now rewrite closed_fd).
  change (header_no_crc_fmt_pack header_fmt_size TAG_COMMIT)
    with (Some _commit).
  unfold pack at 1, bind at 1, ret at 1.
  rewrite pack_crc. unfold pack at 1, bind at 1, ret at 1.
  rewrite <- COMMIT_frame.
  unfold bind.
  erewrite fd_write_run;
    [|rewrite written_io; reflexivity
     |rewrite written_data; apply lookup_insert_eq].
  erewrite close_segment_run by (cbn; rewrite written_io; reflexivity).
  f_equal. unfold written, write_target. rewrite closed_fd.
  unfold committed, commit_segment, closed.
  generalize COMMIT as cm. generalize MAGIC as mg. intros mg cm.
  destruct r as [[seg off lim fd] [dat bef tp jr] idx sgs cmp act ao mx er].
  destruct fd; unfold_state; now rewrite insert_insert_eq, app_nil_r.
Qed.

Lemma write_target_prefix (r : Repository) :
  cursor_ok r ->
  (write_target r).2 = MAGIC \/
  (data (disk r) !! (write_target r).1 = Some (write_target r).2 /\
   blen (write_target r).2 = io_offset (io r) /\
   io_offset (io r) <= io_limit (io r)).
Proof.
  unfold cursor_ok, write_target, rolls. intros Hc.
  destruct (io_write_fd (io r)) as [s|]; [|now left].
  destruct Hc as (-> & c & Hs & Hl & Hm).
  destruct (Z.eqb_spec (io_offset (io r)) 0) as [E|E];
    [change MAGIC_LEN with 8 in Hm; lia|].
  destruct (Z.ltb_spec (io_limit (io r)) (io_offset (io r))); cbn;
    [now left|right].
  rewrite Hs. cbn. done.
Qed.

Lemma write_target_segment (r : Repository) :
  cursor_ok r ->
  (write_target r).1 <> io_segment (io r) <->
  is_Some (io_write_fd (io r)) /\ io_offset (io r) <> 0 /\
  io_limit (io r) < io_offset (io r).
Proof.
  unfold cursor_ok, write_target, rolls. intros Hc.
  destruct (io_write_fd (io r)) as [s|].
  - destruct Hc as (-> & _).
    destruct (Z.eqb_spec (io_offset (io r)) 0),
      (Z.ltb_spec (io_limit (io r)) (io_offset (io r))); cbn;
      split; try lia; try (intros (_ & ? & ?); lia); intros _; split;
      eauto; lia.
  - cbn. split; [done|]. intros ([? ?] & _). discriminate.
Qed.

(** C9. A frame is never split across segments, and a segment may grow
    past the limit. [get_write_fd] moves to a new segment number exactly
    when a segment is open and its offset is strictly above the limit; the
    PUT, DELETE or COMMIT frame then written goes whole to the end of one
    segment file, all other files untouched. The frame starts at the magic
    of a file just opened or at an offset that is at most the limit, so the
    file ends at most one frame past [max limit MAGIC_LEN]. *)
Theorem frames_never_split (r : Repository) (id value : bytes) :
  cursor_ok r -> blen id = 32 ->
  blen value + put_header_fmt_size < 4294967296 ->
  let w := (write_target r).1 in
  let prefix := (write_target r).2 in
  (w <> io_segment (io r) <->
   is_Some (io_write_fd (io r)) /\ io_offset (io r) <> 0 /\
   io_limit (io r) < io_offset (io r)) /\
  (exists r', write_put id value false r = (Ok (w, blen prefix), r') /\
     data (disk r') = <[w := prefix ++ put_frame id value]> (data (disk r))) /\
  (exists r', write_delete id false r = (Ok (w, put_header_fmt_size), r') /\
     data (disk r') = <[w := prefix ++ delete_frame id]> (data (disk r))) /\
  (exists r', write_commit r = (Ok tt, r') /\
     data (disk r') =
     <[commit_segment r := MAGIC ++ COMMIT]> (data (disk r))) /\
  (prefix = MAGIC \/
   (data (disk r) !! w = Some prefix /\ blen prefix = io_offset (io r) /\
    io_offset (io r) <= io_limit (io r))) /\
  blen (prefix ++ put_frame id value)
  <= Z.max (io_limit (io r)) MAGIC_LEN + blen (put_frame id value).
Proof.
  intros Hc Hid Hs w prefix. subst w prefix.
  split; [now apply write_target_segment|].
  split; [eexists; split; [now apply write_put_run|apply written_data]|].
  split; [eexists; split; [now apply write_delete_run|apply written_data]|].
  split; [eexists; split; [apply write_commit_run|reflexivity]|].
  pose proof (write_target_prefix r Hc) as Hp.
  split; [exact Hp|].
  rewrite blen_app.
  destruct Hp as [-> | (_ & -> & ?)]; [change (blen MAGIC) with MAGIC_LEN|];
    lia.
Qed.

(** ** Recovery of a damaged segment *)

(** The byte walk of the specification: at each position read a header; if
    its size is between the header size and the number of bytes left and
    the checksum of the bytes after the checksum field matches, emit the
    frame and move past it; otherwise move one byte on. *)
Definition frame_at_head (data : bytes) (size : Z) : Prop :=
  exists crc tag,
    header_fmt_unpack (bupto header_fmt_size data) = Some (crc, size, tag) /\
    header_fmt_size <= size <= blen data /\
    Z.land (crc32 (bslice 4 size data) 0) crc_mask = crc.

Inductive walk : bytes -> bytes -> Prop :=
| walk_end (data : bytes) :
    blen data < header_fmt_size -> walk data []
| walk_emit (data : bytes) (size : Z) (out : bytes) :
    header_fmt_size <= blen data ->
    frame_at_head data size ->
    walk (bfrom size data) out ->
    walk data (bupto size data ++ out)
| walk_skip (data : bytes) (out : bytes) :
    header_fmt_size <= blen data ->
    (forall size, ~ frame_at_head data size) ->
    walk (bfrom 1 data) out ->
    walk data out.

Lemma header_fmt_unpack_some (h : bytes) :
  blen h = header_fmt_size -> is_Some (header_fmt_unpack h).
Proof.
  unfold blen, header_fmt_size. intros H.
  do 10 (destruct h as [|? h]; cbn in H; try lia). cbn. eauto.
Qed.

Lemma length_bfrom_lt (n : Z) (data : bytes) :
  0 < n -> 0 < blen data -> (length (bfrom n data) < length data)%nat.
Proof.
  unfold bfrom, blen. intros Hn Hd. rewrite length_drop. lia.
Qed.

Lemma recover_loop_walk (fuel : nat) (data : bytes) :
  (length data <= fuel)%nat -> walk data (recover_loop fuel data).
Proof.
  revert data. induction fuel as [|fuel IH]; intros data Hf.
  - cbn. apply walk_end. unfold blen, header_fmt_size. lia.
  - cbn [recover_loop].
    destruct (Z.ltb_spec (blen data) header_fmt_size) as [Hs|Hs];
      [now apply walk_end|].
    destruct (header_fmt_unpack_some (bupto header_fmt_size data))
      as [[[crc size] tag] Hu].
    { rewrite blen_bupto by (unfold header_fmt_size; lia). lia. }
    rewrite Hu.
    assert (Hlt : forall n, 0 < n ->
              (length (bfrom n data) <= fuel)%nat).
    { intros n Hn. pose proof (length_bfrom_lt n data Hn) as L.
      unfold header_fmt_size in Hs. lia. }
    destruct (Z.ltb_spec size header_fmt_size) as [H1|H1]; cbn [orb].
    { apply walk_skip; [done| |apply IH, Hlt; lia].
      intros size' (crc' & tag' & Hu' & Hr & _). rewrite Hu in Hu'.
      inversion Hu'; subst. lia. }
    destruct (Z.ltb_spec (blen data) size) as [H2|H2].
    { apply walk_skip; [done| |apply IH, Hlt; lia].
      intros size' (crc' & tag' & Hu' & Hr & _). rewrite Hu in Hu'.
      inversion Hu'; subst. lia. }
    destruct (Z.eqb_spec (Z.land (crc32 (bslice 4 size data) 0) crc_mask) crc)
      as [H3|H3]; cbn [negb].
    + apply walk_emit; [done| |apply IH, Hlt; unfold header_fmt_size in *; lia].
      exists crc, tag. done.
    + apply walk_skip; [done| |apply IH, Hlt; lia].
      intros size' (crc' & tag' & Hu' & Hr & Hc). rewrite Hu in Hu'.
      inversion Hu'; subst. done.
Qed.

Lemma frame_at_head_unique (data : bytes) (s1 s2 : Z) :
  frame_at_head data s1 -> frame_at_head data s2 -> s1 = s2.
Proof.
  intros (c1 & t1 & H1 & _) (c2 & t2 & H2 & _). congruence.
Qed.

Lemma walk_deterministic (data out1 out2 : bytes) :
  walk data out1 -> walk data out2 -> out1 = out2.
Proof.
  intros W1. revert out2.
  induction W1 as [d Hs|d size out Hs Hf W IH|d out Hs Hn W IH];
    intros out2 W2; inversion W2; subst; try lia.
  - done.
  - assert (size0 = size) as -> by eauto using frame_at_head_unique.
    f_equal. eauto.
  - exfalso. eapply H0. eauto.
  - exfalso. eapply Hn. eauto.
  - eauto.
Qed.

(** C8. [recover_segment] puts the original file aside under
    [<name>.beforerecover] and rewrites the segment as the magic followed
    by exactly the frames the byte walk over the original selects; no other
    segment file changes. *)
Theorem recover_segment_byte_walk (r : Repository) (segment : Z)
    (content : bytes) :
  data (disk r) !! segment = Some content ->
  exists r' out,
    recover_segment segment r = (Ok tt, r') /\
    walk content out /\
    (forall out', walk content out' -> out' = out) /\
    data (disk r') !! segment = Some (MAGIC ++ out) /\
    beforerecover (disk r') !! segment = Some content /\
    (forall s, s <> segment -> data (disk r') !! s = data (disk r) !! s).
Proof.
  intros Hs. unfold recover_segment. run. rewrite Hs. run.
  do 2 eexists. split; [reflexivity|].
  assert (W : walk content (recover_loop (length content) content))
    by now apply recover_loop_walk.
  split; [exact W|]. split; [intros; eauto using walk_deterministic|].
  cbn. rewrite !lookup_insert_eq. do 2 (split; [done|]).
  intros s Hne. now rewrite lookup_insert_ne, lookup_delete_ne.
Qed.

(** ** Decoding a segment *)

Lemma _read_header_fmt_size (body header : bytes) (tags : list Z)
    (read_data : bool) size tag key data :
  _read body header_fmt header tags read_data = inr (size, tag, key, data) ->
  header_fmt_size <= size <= MAX_OBJECT_SIZE /\ tag ∈ tags.
Proof.
  unfold _read. destruct (header_fmt_unpack header) as [[[c s] t]|]; [|done].
  cbn [fmt_size].
  destruct (Z.ltb_spec MAX_OBJECT_SIZE s); [done|].
  destruct (Z.ltb_spec s header_fmt_size); [done|]. cbn [orb].
  destruct (tag_in t tags) eqn:T.
  - apply bool_decide_eq_true in T.
    repeat match goal with
           | |- context [if ?b then _ else _] => destruct b
           end; intros [= <- <- <- <-]; try done; (split; [lia|done]).
  - repeat match goal with
           | |- context [if ?b then _ else _] => destruct b
           end; done.
Qed.

Lemma next_object_stop (content : bytes) (offset : Z) (read_data : bool) :
  blen content <= offset -> next_object content offset read_data = Stop.
Proof.
  intros H. unfold next_object, read_at, bfrom, bupto.
  rewrite drop_ge by (unfold blen in H; lia). now rewrite take_nil.
Qed.

Lemma next_object_yield (content : bytes) (offset : Z) (read_data : bool)
    (it : item) :
  next_object content offset read_data = Yield it ->
  it_offset it = offset /\
  header_fmt_size <= it_size it <= MAX_OBJECT_SIZE /\
  it_tag it ∈ [TAG_PUT; TAG_DELETE; TAG_COMMIT].
Proof.
  unfold next_object.
  destruct (read_at content offset header_fmt_size) as [|b h] eqn:E; [done|].
  destruct (_read _ _ _ _ _) as [e|[[[size tag] key] dat]] eqn:R; [done|].
  intros [= <-]. cbn. split; [done|]. eapply _read_header_fmt_size, R.
Qed.

(** More fuel than bytes left is as good as any larger amount. *)
Lemma iter_from_fuel (fuel fuel' : nat) (content : bytes) (offset : Z)
    (read_data : bool) :
  0 <= offset ->
  (Z.to_nat (blen content - offset) < fuel)%nat -> (fuel <= fuel')%nat ->
  iter_from fuel content offset read_data
  = iter_from fuel' content offset read_data.
Proof.
  revert fuel' offset.
  induction fuel as [|fuel IH]; intros fuel' offset Ho Hf Hle; [lia|].
  destruct fuel' as [|fuel']; [lia|]. cbn [iter_from].
  destruct (next_object content offset read_data) as [| |it] eqn:N; try done.
  destruct (Z.le_gt_cases (blen content) offset) as [Hge|Hlt].
  { now rewrite next_object_stop in N. }
  apply next_object_yield in N as (_ & Hsz & _).
  unfold header_fmt_size in Hsz.
  rewrite (IH fuel' (offset + it_size it)) by lia. done.
Qed.






(** ** The result of check *)

Lemma bind_ok {A B} (m : M A) (k : A -> M B) (r r' : Repository) (b : B) :
  bind m k r = (Ok b, r') ->
  exists a r1, m r = (Ok a, r1) /\ k a r1 = (Ok b, r').
Proof.
  unfold bind. destruct (m r) as [[a| |] r1]; try done. eauto.
Qed.

Ltac bind_inv H :=
  repeat match type of H with
         | bind _ _ _ = (Ok _, _) =>
             let a := fresh "a" in
             let r1 := fresh "r" in
             let E := fresh "E" in
             apply bind_ok in H as (a & r1 & E & H); try clear E
         | (if ?c then _ else _) _ = (Ok _, _) => destruct c
         | (let (_, _) := ?p in _) _ = (Ok _, _) => destruct p
         | match ?x with _ => _ end _ = (Ok _, _) => destruct x
         | raise _ _ = (Ok _, _) => discriminate H
         end.

(** C10. Whenever [check] returns in repair mode it returns [True],
    whatever was reported during the scan: the value returned is
    [not error_found or repair]. *)
Theorem check_repair_returns_true (fuel : nat) (save_space : bool)
    (r r' : Repository) (result : bool) :
  check fuel true save_space r = (Ok result, r') -> result = true.
Proof.
  intros H. unfold check in H. bind_inv H.
  unfold ret in H. injection H as <- _. apply orb_true_r.
Qed.

(** ** Sample repositories *)

(** A repository just created and opened ([Repository.create],
    [Repository.open], [LoggedIO.__init__]). *)
Definition new_repository (max_size : Z) (append : bool) : Repository :=
  mkRepo (mkIO 0 0 max_size None) (mkDisk ∅ ∅ ∅ []) None ∅ ∅ false append
         max_size [].

Definition key_of (b : byte) : bytes := repeat b 32.

(** Two objects stored and committed. *)
Definition two_objects : Repository :=
  snd ((put 4 (key_of x01) [x61; x62; x63] ;;
        put 4 (key_of x02) [x63] ;;
        commit false) (new_repository 100 false)).

(** The same with one byte of the first value overwritten on disk. *)
Definition damaged : Repository :=
  with_disk (fun d =>
      set_data (alter (fun c => <[50%nat := xff]> c) 0 (data d)) d)
    two_objects.

(** A transaction with one object written and the segment still open: the
    state [put(key, b'abc')] leaves a new repository in. *)
Definition one_pending : Repository :=
  mkRepo (mkIO 0 52 60 (Some 0))
         (mkDisk {[ 0 := MAGIC ++ put_frame (key_of x01) [x61; x62; x63] ]}
                 ∅ ∅ [])
         (Some {[ key_of x01 := (0, 8) ]}) {[ 0 := 1 ]} ∅ true false 60 [].

Lemma check_repair_returns_true_witness :
  check 4 true false damaged
  = (Ok true, snd (check 4 true false damaged)) /\
  errors (snd (check 4 true false damaged)) = [MsgIntegrity 0] /\
  fst (check 4 false false damaged) = Ok false.
Proof.
  assert (H : check 4 true false damaged
              = (Ok true, snd (check 4 true false damaged)))
    by (vm_compute; reflexivity).
  pose proof (check_repair_returns_true 4 false damaged _ _ H) as Ht.
  split; [exact H|]. split; vm_compute; reflexivity.
Defined.

Lemma frames_never_split_witness :
  cursor_ok one_pending /\
  blen (key_of x02) = 32 /\
  exists r',
    write_put (key_of x02) [x64] false one_pending = (Ok (0, 52), r') /\
    (exists content, data (disk r') !! 0 = Some content /\
                     blen content = 94 /\
                     io_limit (io one_pending) < blen content).
Proof.
  assert (Hc : cursor_ok one_pending).
  { vm_compute. split; [reflexivity|]. eexists. split; [reflexivity|].
    split; [reflexivity|discriminate]. }
  assert (Hk : blen (key_of x02) = 32) by (vm_compute; reflexivity).
  assert (Hs : blen [x64] + put_header_fmt_size < 4294967296)
    by (vm_compute; reflexivity).
  split; [exact Hc|]. split; [exact Hk|].
  destruct (frames_never_split one_pending (key_of x02) [x64] Hc Hk Hs)
    as (_ & (r' & Hw & Hd) & _).
  assert (E1 : (write_target one_pending).1 = 0) by (vm_compute; reflexivity).
  assert (E2 : blen (write_target one_pending).2 = 52)
    by (vm_compute; reflexivity).
  rewrite E1, E2 in Hw. rewrite E1 in Hd.
  exists r'. split; [exact Hw|].
  rewrite Hd. eexists. split; [apply lookup_insert_eq|].
  split; vm_compute; reflexivity.
Defined.

Lemma recover_segment_byte_walk_witness :
  let content := default [] (data (disk damaged) !! 0) in
  data (disk damaged) !! 0 = Some content /\
  exists r' out,
    recover_segment 0 damaged = (Ok tt, r') /\
    walk content out /\
    (forall out', walk content out' -> out' = out) /\
    data (disk r') !! 0 = Some (MAGIC ++ out) /\
    beforerecover (disk r') !! 0 = Some content /\
    (forall s, s <> 0 -> data (disk r') !! s = data (disk damaged) !! s).
Proof.
  intros content.
  assert (H : data (disk damaged) !! 0 = Some content)
    by (vm_compute; reflexivity).
  split; [exact H|].
  exact (recover_segment_byte_walk damaged 0 content H).
Defined.


(** ** put *)

(** [read] looks at the segment files only and changes nothing. *)
Lemma read_frame (r1 r2 : Repository) (segment offset : Z) (id : bytes)
    (read_data : bool) :
  data (disk r1) = data (disk r2) ->
  read segment offset id read_data r1
  = (fst (read segment offset id read_data r2), r1).
Proof.
  intros E. unfold read, bind, self. rewrite E.
  destruct (data (disk r2) !! segment) as [content|]; [|reflexivity].
  destruct (_read _ _ _ _ _) as [e|[[[size tag] key] dat]]; [reflexivity|].
  destruct (negb _); reflexivity.
Qed.

Lemma segments_add_run (r : Repository) (s n delta : Z) :
  segments r !! s = Some n ->
  segments_add s delta r
  = (Ok tt, with_segments (<[s := n + delta]> (segments r)) r).
Proof.
  intros H. unfold segments_add, segments_get, bind, modify. now rewrite H.
Qed.

(** [d.setdefault(s, 0)] on a dictionary. *)
Definition setdefault0 (s : Z) (m : gmap Z Z) : gmap Z Z :=
  match m !! s with
  | Some _ => m
  | None => <[s := 0]> m
  end.

Lemma segments_setdefault_run (r : Repository) (s : Z) :
  segments_setdefault s r
  = (Ok tt, with_segments (setdefault0 s (segments r)) r).
Proof.
  unfold segments_setdefault, setdefault0, modify.
  destruct (segments r !! s); [|reflexivity].
  now destruct r.
Qed.

Lemma setdefault0_lookup (s : Z) (m : gmap Z Z) :
  setdefault0 s m !! s = Some (default 0 (m !! s)).
Proof.
  unfold setdefault0. destruct (m !! s) eqn:E; cbn.
  - exact E.
  - apply lookup_insert_eq.
Qed.

(** [d[s] += delta] on a [defaultdict(int)]. *)
Definition bump (s delta : Z) (m : gmap Z Z) : gmap Z Z :=
  <[s := default 0 (m !! s) + delta]> m.

(** The end of [put] (lines 595-598): write the PUT entry, count it, point
    the index at it. *)
Definition put_entry (id value : bytes) (idx : NSIndex) (r : Repository)
  : Repository :=
  let new_segment := (write_target r).1 in
  let new_offset := blen (write_target r).2 in
  with_index (Some (<[id := (new_segment, new_offset)]> idx))
    (with_segments (bump new_segment 1 (segments r))
       (written r (put_frame id value))).

Lemma put_tail_run (r : Repository) (id value : bytes) (idx : NSIndex) :
  cursor_ok r -> blen id = 32 ->
  blen value + put_header_fmt_size < 4294967296 ->
  index r = Some idx ->
  (let* (segment, offset) := write_put id value false in
   segments_setdefault segment ;;
   segments_add segment 1 ;;
   index_set id segment offset) r
  = (Ok tt, put_entry id value idx r).
Proof.
  intros Hc Hid Hs Hi. unfold bind at 1. rewrite write_put_run by done.
  unfold bind at 1. rewrite segments_setdefault_run.
  unfold bind at 1.
  erewrite segments_add_run by (cbn; apply setdefault0_lookup).
  unfold index_set, bind, self, modify, put_entry.
  destruct (written_rest r (put_frame id value)) as (Ei & Es & _).
  cbn [index with_segments]. rewrite Ei, Hi. f_equal.
  unfold bump. cbn [segments with_segments]. rewrite Es.
  unfold setdefault0.
  destruct (segments r !! (write_target r).1) eqn:E; cbn [default];
    unfold_state; [reflexivity|]. now rewrite insert_insert_eq.
Qed.

Lemma cursor_ok_ext (r1 r2 : Repository) :
  io r1 = io r2 -> data (disk r1) = data (disk r2) ->
  cursor_ok r1 -> cursor_ok r2.
Proof. unfold cursor_ok. now intros <- <-. Qed.

Lemma write_target_ext (r1 r2 : Repository) :
  io r1 = io r2 -> data (disk r1) = data (disk r2) ->
  write_target r1 = write_target r2.
Proof. unfold write_target. now intros <- <-. Qed.

Lemma compact_add_run (r : Repository) (s delta : Z) :
  compact_add s delta r
  = (Ok tt, with_compact (bump s delta (compact r)) r).
Proof. reflexivity. Qed.

Lemma write_target_written (r : Repository) (frame : bytes) :
  write_target (written r frame)
  = if rolls (io (written r frame))
    then ((write_target r).1 + 1, MAGIC)
    else ((write_target r).1, (write_target r).2 ++ frame).
Proof.
  unfold write_target at 1. rewrite written_io. cbn [io_write_fd io_segment].
  now rewrite written_data, lookup_insert_eq.
Qed.

(** The state after the first half of [put] on a key the index holds
    (lines 589-594): the old entry is discounted and a DELETE entry
    written. *)
Definition superseded (id : bytes) (old_segment n size : Z) (r : Repository)
  : Repository :=
  let r1 := with_segments (<[old_segment := n - 1]> (segments r)) r in
  let r2 := with_compact (bump old_segment size (compact r1)) r1 in
  let w := written r2 (delete_frame id) in
  let r3 :=
    with_compact (bump (write_target r2).1 put_header_fmt_size (compact w)) w
  in
  with_segments (setdefault0 (write_target r2).1 (segments r3)) r3.

Lemma superseded_fields (id : bytes) (old_segment n size : Z)
    (r : Repository) :
  io (superseded id old_segment n size r) = io (written r (delete_frame id)) /\
  disk (superseded id old_segment n size r)
  = disk (written r (delete_frame id)) /\
  index (superseded id old_segment n size r) = index r /\
  compact (superseded id old_segment n size r)
  = bump (write_target r).1 put_header_fmt_size
      (bump old_segment size (compact r)) /\
  segments (superseded id old_segment n size r)
  = setdefault0 (write_target r).1 (<[old_segment := n - 1]> (segments r)) /\
  _active_txn (superseded id old_segment n size r) = _active_txn r /\
  append_only (superseded id old_segment n size r) = append_only r /\
  max_segment_size (superseded id old_segment n size r)
  = max_segment_size r /\
  errors (superseded id old_segment n size r) = errors r.
Proof.
  unfold superseded, written.
  set (r1 := with_segments _ r). set (r2 := with_compact _ r1).
  assert (Ht : write_target r2 = write_target r) by reflexivity.
  rewrite !Ht. destruct (write_target r) as [w prefix].
  repeat split.
Qed.

Lemma put_present_run (fuel : nat) (r : Repository) (id value : bytes)
    (idx : NSIndex) (old_segment old_offset n size : Z)
    (dat : option bytes) :
  _active_txn r = true -> index r = Some idx -> cursor_ok r ->
  blen id = 32 -> blen value + put_header_fmt_size < 4294967296 ->
  idx !! id = Some (old_segment, old_offset) ->
  segments r !! old_segment = Some n ->
  read old_segment old_offset id false r = (Ok (dat, size), r) ->
  put fuel id value r
  = (Ok tt, put_entry id value idx (superseded id old_segment n size r)).
Proof.
  intros Ha Hi Hc Hid Hs Hold Hn Hr.
  unfold put. unfold bind at 1, self at 1. rewrite Ha. cbn [negb].
  unfold bind at 1, ret at 1. unfold bind at 1, self at 1.
  rewrite Hi, Hold.
  unfold bind at 1. unfold bind at 1.
  rewrite (segments_add_run r old_segment n (-1)) by done.
  replace (n + -1) with (n - 1) by lia.
  unfold bind at 1.
  set (r1 := with_segments _ r).
  rewrite (read_frame r1 r) by reflexivity. rewrite Hr. cbn [fst].
  unfold bind at 1. rewrite compact_add_run.
  set (r2 := with_compact _ r1).
  assert (Hc2 : cursor_ok r2) by (revert Hc; now apply cursor_ok_ext).
  unfold bind at 1. rewrite write_delete_run by done.
  unfold bind at 1. rewrite compact_add_run.
  rewrite segments_setdefault_run.
  change (with_segments _ _) with (superseded id old_segment n size r).
  destruct (superseded_fields id old_segment n size r)
    as (Eio & Edisk & Eidx & _).
  apply put_tail_run; try done.
  - apply (cursor_ok_ext (written r (delete_frame id)));
      [done|now rewrite Edisk|now apply written_cursor_ok].
  - now rewrite Eidx.
Qed.

Lemma put_absent_run (fuel : nat) (r : Repository) (id value : bytes)
    (idx : NSIndex) :
  _active_txn r = true -> index r = Some idx -> cursor_ok r ->
  blen id = 32 -> blen value + put_header_fmt_size < 4294967296 ->
  idx !! id = None ->
  put fuel id value r = (Ok tt, put_entry id value idx r).
Proof.
  intros Ha Hi Hc Hid Hs Hnone.
  unfold put. unfold bind at 1, self at 1. rewrite Ha. cbn [negb].
  unfold bind at 1, ret at 1. unfold bind at 1, self at 1.
  rewrite Hi, Hnone.
  unfold bind at 1, ret at 1.
  now apply put_tail_run.
Qed.

Lemma put_entry_fields (id value : bytes) (idx : NSIndex) (r : Repository) :
  io (put_entry id value idx r) = io (written r (put_frame id value)) /\
  disk (put_entry id value idx r) = disk (written r (put_frame id value)) /\
  index (put_entry id value idx r)
  = Some (<[id := ((write_target r).1, blen (write_target r).2)]> idx) /\
  compact (put_entry id value idx r) = compact r /\
  segments (put_entry id value idx r)
  = bump (write_target r).1 1 (segments r) /\
  _active_txn (put_entry id value idx r) = _active_txn r /\
  append_only (put_entry id value idx r) = append_only r /\
  max_segment_size (put_entry id value idx r) = max_segment_size r /\
  errors (put_entry id value idx r) = errors r.
Proof.
  unfold put_entry, written. destruct (write_target r) as [w prefix].
  repeat split.
Qed.

(** C6. [put] on a key the index already holds: the live count of the old
    segment goes down by one and the size of the old entry is added to its
    reclaimable bytes; a DELETE entry for the key is written and its 41
    bytes are added to the reclaimable bytes of the segment it lands in,
    which gets a live count (0 if it had none); then the PUT entry is
    written after it, counted in its segment, and the index points at it.
    On a key the index does not hold only the last step happens. *)
Theorem put_overwrite_protocol (fuel : nat) (r : Repository)
    (id value : bytes) (idx : NSIndex) :
  _active_txn r = true -> index r = Some idx -> cursor_ok r ->
  blen id = 32 -> blen value + put_header_fmt_size < 4294967296 ->
  (forall old_segment old_offset n dat size,
     idx !! id = Some (old_segment, old_offset) ->
     segments r !! old_segment = Some n ->
     read old_segment old_offset id false r = (Ok (dat, size), r) ->
     let delete_segment := (write_target r).1 in
     let deleted := written r (delete_frame id) in
     let new_segment := (write_target deleted).1 in
     let new_offset := blen (write_target deleted).2 in
     exists r',
       put fuel id value r = (Ok tt, r') /\
       data (disk r')
       = <[new_segment := (write_target deleted).2 ++ put_frame id value]>
           (<[delete_segment := (write_target r).2 ++ delete_frame id]>
              (data (disk r))) /\
       compact r'
       = bump delete_segment put_header_fmt_size
           (bump old_segment size (compact r)) /\
       segments r'
       = bump new_segment 1
           (setdefault0 delete_segment
              (<[old_segment := n - 1]> (segments r))) /\
       index r' = Some (<[id := (new_segment, new_offset)]> idx) /\
       (new_segment = delete_segment /\
        new_offset = blen (write_target r).2 + put_header_fmt_size \/
        new_segment = delete_segment + 1 /\ new_offset = MAGIC_LEN)) /\
  (idx !! id = None ->
   let new_segment := (write_target r).1 in
   let new_offset := blen (write_target r).2 in
   exists r',
     put fuel id value r = (Ok tt, r') /\
     data (disk r')
     = <[new_segment := (write_target r).2 ++ put_frame id value]>
         (data (disk r)) /\
     compact r' = compact r /\
     segments r' = bump new_segment 1 (segments r) /\
     index r' = Some (<[id := (new_segment, new_offset)]> idx)).
Proof.
  intros Ha Hi Hc Hid Hs. split.
  - intros old_segment old_offset n dat size Hold Hn Hr
      delete_segment deleted new_segment new_offset.
    eexists.
    split; [exact (put_present_run fuel r id value idx _ _ _ _ _
                     Ha Hi Hc Hid Hs Hold Hn Hr)|].
    destruct (superseded_fields id old_segment n size r)
      as (Eio & Edisk & _ & Ecmp & Esgs & _).
    assert (Ht : write_target (superseded id old_segment n size r)
                 = write_target deleted)
      by (apply write_target_ext; [done|now rewrite Edisk]).
    destruct (put_entry_fields id value idx
                (superseded id old_segment n size r))
      as (_ & Ed & Ei & Ec & Es & _).
    rewrite Ed, Ei, Ec, Es, Ht, written_data, Ht.
    rewrite Edisk, Ecmp, Esgs. subst deleted. rewrite written_data.
    do 4 (split; [reflexivity|]).
    subst new_segment new_offset delete_segment.
    clear - Hc Hid. rewrite write_target_written.
    destruct (rolls _); [right|left]; cbn [fst snd]; [done|].
    rewrite blen_app, blen_delete_frame, Hid. done.
  - intros Hnone new_segment new_offset.
    eexists. split; [exact (put_absent_run fuel r id value idx
                              Ha Hi Hc Hid Hs Hnone)|].
    destruct (put_entry_fields id value idx r)
      as (_ & Ed & Ei & Ec & Es & _).
    rewrite Ed, Ei, Ec, Es, written_data. done.
Qed.

Lemma put_overwrite_protocol_witness :
  let idx : NSIndex := {[ key_of x01 := (0, 8) ]} in
  _active_txn one_pending = true /\
  index one_pending = Some idx /\
  cursor_ok one_pending /\
  blen (key_of x01) = 32 /\
  blen [x64] + put_header_fmt_size < 4294967296 /\
  idx !! key_of x01 = Some (0, 8) /\
  segments one_pending !! 0 = Some 1 /\
  read 0 8 (key_of x01) false one_pending = (Ok (None, 44), one_pending) /\
  exists r',
    put 4 (key_of x01) [x64] one_pending = (Ok tt, r') /\
    compact r'
    = bump (write_target one_pending).1 put_header_fmt_size
        (bump 0 44 (compact one_pending)) /\
    segments r'
    = bump (write_target (written one_pending
                            (delete_frame (key_of x01)))).1 1
        (setdefault0 (write_target one_pending).1
           (<[0 := 1 - 1]> (segments one_pending))).
Proof.
  intros idx.
  assert (H1 : _active_txn one_pending = true) by (vm_compute; reflexivity).
  assert (H2 : index one_pending = Some idx) by reflexivity.
  assert (H3 : cursor_ok one_pending).
  { vm_compute. split; [reflexivity|]. eexists. split; [reflexivity|].
    split; [reflexivity|discriminate]. }
  assert (H4 : blen (key_of x01) = 32) by (vm_compute; reflexivity).
  assert (H5 : blen [x64] + put_header_fmt_size < 4294967296)
    by (vm_compute; reflexivity).
  assert (H6 : idx !! key_of x01 = Some (0, 8)) by (vm_compute; reflexivity).
  assert (H7 : segments one_pending !! 0 = Some 1)
    by (vm_compute; reflexivity).
  assert (H8 : read 0 8 (key_of x01) false one_pending
               = (Ok (None, 44), one_pending)) by (vm_compute; reflexivity).
  destruct (proj1 (put_overwrite_protocol 4 one_pending (key_of x01) [x64]
                     idx H1 H2 H3 H4 H5) 0 8 1 None 44 H6 H7 H8)
    as (r' & Hp & _ & Hc & Hs & _).
  do 8 (split; [assumption|]).
  exists r'. split; [exact Hp|]. split; [exact Hc|exact Hs].
Defined.

(** ** Reading back what was written *)

Lemma header_fmt_unpack_le32 (crc size tag : Z) :
  0 <= crc < 4294967296 -> 0 <= size < 4294967296 -> 0 <= tag < 256 ->
  header_fmt_unpack (le32 crc ++ le32 size ++ [byte_of_Z tag])
  = Some (crc, size, tag).
Proof.
  intros Hc Hs Ht.
  pose proof (of_le32_le32 crc Hc) as E1.
  pose proof (of_le32_le32 size Hs) as E2.
  unfold le32 in *. cbn [app header_fmt_unpack].
  rewrite E1, E2, Z_of_byte_of_Z, Z.mod_small by lia. reflexivity.
Qed.

Lemma bupto_app_le (n : Z) (a b : bytes) :
  n <= blen a -> bupto n (a ++ b) = bupto n a.
Proof.
  unfold bupto, blen. intros H. apply take_app_le. lia.
Qed.

Lemma bfrom_app_le (n : Z) (a b : bytes) :
  0 <= n <= blen a -> bfrom n (a ++ b) = bfrom n a ++ b.
Proof.
  unfold bfrom, blen. intros H. apply drop_app_le. lia.
Qed.

Lemma put_header_fmt_unpack_frame (id value rest : bytes) :
  blen id = 32 -> blen value + put_header_fmt_size < 4294967296 ->
  put_header_fmt_unpack
    (bupto put_header_fmt_size (put_frame id value ++ rest))
  = Some (Z.land (crc32 value (crc32 id (crc32 (put_header value) 0)))
                 crc_mask,
          blen value + put_header_fmt_size, TAG_PUT, id).
Proof.
  intros Hid Hs. pose proof (blen_nonneg value) as Hv.
  unfold put_header_fmt_size in *.
  set (crc := Z.land _ _).
  assert (E : bupto 41 (put_frame id value ++ rest)
              = (le32 crc ++ put_header value) ++ id).
  { unfold put_frame. fold crc.
    replace ((le32 crc ++ put_header value ++ id ++ value) ++ rest)
      with (((le32 crc ++ put_header value) ++ id) ++ value ++ rest)
      by (now rewrite <- !app_assoc).
    replace 41 with (blen ((le32 crc ++ put_header value) ++ id)).
    - apply bupto_app.
    - rewrite !blen_app, Hid. reflexivity. }
  rewrite E. unfold put_header_fmt_unpack, put_header_fmt_size.
  rewrite bool_decide_eq_true_2
    by (rewrite !blen_app, Hid; reflexivity).
  replace 9 with (blen (le32 crc ++ put_header value)) by reflexivity.
  rewrite bupto_app, bfrom_app. unfold put_header, put_header_fmt_size.
  rewrite header_fmt_unpack_le32;
    [reflexivity|apply land_mask_range|lia|unfold TAG_PUT; lia].
Qed.

Lemma read_at_frame (prefix frame rest : bytes) (n : Z) :
  read_at (prefix ++ frame ++ rest) (blen prefix) n = bupto n (frame ++ rest).
Proof. unfold read_at. now rewrite bfrom_app. Qed.

(** The checksum the reader computes over a PUT frame is the one the writer
    stored. *)
Lemma put_frame_crc (id value : bytes) :
  crc32 value (crc32 (put_header value ++ id) 0)
  = crc32 value (crc32 id (crc32 (put_header value) 0)).
Proof. now rewrite crc32_app. Qed.

Lemma _read_put_frame (prefix id value rest : bytes) (read_data : bool) :
  blen id = 32 -> blen value + put_header_fmt_size < 4294967296 ->
  _read (bfrom (blen prefix + put_header_fmt_size)
               (prefix ++ put_frame id value ++ rest))
        put_header_fmt
        (read_at (prefix ++ put_frame id value ++ rest) (blen prefix)
                 put_header_fmt_size)
        [TAG_PUT] read_data
  = if MAX_OBJECT_SIZE <? blen value + put_header_fmt_size
    then inl IntegrityError
    else if read_data
         then if negb (blen (bupto (blen value) (value ++ rest)) =? blen value)
              then inl IntegrityError
              else inr (blen value + put_header_fmt_size, TAG_PUT, Some id,
                        Some value)
         else inr (blen value + put_header_fmt_size, TAG_PUT, Some id, None).
Proof.
  intros Hid Hs. pose proof (blen_nonneg value) as Hv.
  rewrite read_at_frame. unfold _read.
  rewrite put_header_fmt_unpack_frame by done.
  cbn [fmt_size].
  destruct (Z.ltb_spec MAX_OBJECT_SIZE (blen value + put_header_fmt_size));
    [reflexivity|].
  destruct (Z.ltb_spec (blen value + put_header_fmt_size) put_header_fmt_size);
    [lia|]. cbn [orb].
  replace (blen value + put_header_fmt_size - put_header_fmt_size)
    with (blen value) by lia.
  assert (Hb : bfrom (blen prefix + put_header_fmt_size)
                 (prefix ++ put_frame id value ++ rest) = value ++ rest).
  { rewrite <- bfrom_bfrom by (pose proof (blen_nonneg prefix);
      unfold put_header_fmt_size; lia).
    rewrite bfrom_app. unfold put_frame.
    replace ((le32 _ ++ put_header value ++ id ++ value) ++ rest)
      with (((le32 (Z.land (crc32 value (crc32 id
                (crc32 (put_header value) 0))) crc_mask)
              ++ put_header value) ++ id) ++ value ++ rest)
      by (now rewrite <- !app_assoc).
    replace put_header_fmt_size
      with (blen ((le32 (Z.land (crc32 value (crc32 id
                (crc32 (put_header value) 0))) crc_mask)
              ++ put_header value) ++ id))
      by (rewrite !blen_app, Hid; reflexivity).
    apply bfrom_app. }
  rewrite Hb. unfold tag_in. rewrite bool_decide_eq_true_2 by set_solver.
  destruct read_data; [|reflexivity].
  destruct (negb _) eqn:E1; [reflexivity|].
  assert (Hd : bupto (blen value) (value ++ rest) = value) by apply bupto_app.
  rewrite Hd.
  assert (Hh : bfrom 4 (bupto put_header_fmt_size
                          (put_frame id value ++ rest))
               = put_header value ++ id).
  { unfold put_frame.
    set (c := le32 _).
    replace ((c ++ put_header value ++ id ++ value) ++ rest)
      with ((c ++ put_header value ++ id) ++ value ++ rest)
      by (now rewrite <- !app_assoc).
    replace put_header_fmt_size with (blen (c ++ put_header value ++ id))
      by (rewrite !blen_app, Hid; reflexivity).
    rewrite bupto_app. replace 4 with (blen c) by reflexivity.
    apply bfrom_app. }
  rewrite Hh, put_frame_crc, Z.eqb_refl. reflexivity.
Qed.







(** ** Round trips through the log *)

(** [read] on a PUT frame, for any wanted id. *)
Lemma read_put_frame_wanted (r : Repository) (segment : Z)
    (prefix id value rest wanted : bytes) (read_data : bool) :
  data (disk r) !! segment = Some (prefix ++ put_frame id value ++ rest) ->
  blen id = 32 -> blen value + put_header_fmt_size <= MAX_OBJECT_SIZE ->
  read segment (blen prefix) wanted read_data r
  = if bool_decide (wanted = id)
    then (Ok (if read_data then Some value else None,
              blen value + put_header_fmt_size), r)
    else (Raise IntegrityError, r).
Proof.
  intros Hd Hid Hs. unfold read, bind, self. rewrite Hd.
  rewrite _read_put_frame
    by (try done; unfold MAX_OBJECT_SIZE, put_header_fmt_size in *; lia).
  destruct (Z.ltb_spec MAX_OBJECT_SIZE (blen value + put_header_fmt_size));
    [lia|].
  rewrite bupto_app, Z.eqb_refl. cbn [negb].
  assert (E : bool_decide (Some wanted = Some id) = bool_decide (wanted = id))
    by (apply bool_decide_ext; split; congruence).
  destruct read_data; rewrite E; destruct (bool_decide (wanted = id));
    reflexivity.
Qed.



(** ** get and delete inside a transaction *)






(** [delete]: a key the index does not hold raises [ObjectNotFound] and
    changes nothing. For a key it holds, the entry leaves the index, the
    live count of its segment goes down by one, the size of the old entry is
    added to the reclaimable bytes of that segment, and a DELETE entry is
    written whose 41 bytes count as reclaimable in the segment it lands in
    (which gets a live count, 0 if it had none). *)
Theorem delete_protocol (fuel : nat) (r : Repository) (id : bytes)
    (idx : NSIndex) :
  _active_txn r = true -> index r = Some idx -> cursor_ok r ->
  blen id = 32 ->
  (idx !! id = None -> delete fuel id r = (Raise ObjectNotFound, r)) /\
  (forall old_segment old_offset n dat size,
     idx !! id = Some (old_segment, old_offset) ->
     segments r !! old_segment = Some n ->
     read old_segment old_offset id false r = (Ok (dat, size), r) ->
     let delete_segment := (write_target r).1 in
     exists r',
       delete fuel id r = (Ok tt, r') /\
       index r' = Some (base.delete id idx) /\
       data (disk r')
       = <[delete_segment := (write_target r).2 ++ delete_frame id]>
           (data (disk r)) /\
       compact r'
       = bump delete_segment put_header_fmt_size
           (bump old_segment size (compact r)) /\
       segments r'
       = setdefault0 delete_segment
           (<[old_segment := n - 1]> (segments r))).
Proof.
  intros Ha Hi Hc Hid. split.
  - intros Hn. unfold delete. unfold bind at 1, self at 1.
    rewrite Ha. cbn [negb]. unfold bind at 1, ret at 1.
    unfold bind at 1, self at 1. now rewrite Hi, Hn.
  - intros s o n dat size Ho Hn Hr delete_segment.
    unfold delete. unfold bind at 1, self at 1.
    rewrite Ha. cbn [negb]. unfold bind at 1, ret at 1.
    unfold bind at 1, self at 1. rewrite Hi, Ho.
    unfold bind at 1, modify at 1.
    set (r0 := with_index _ r).
    unfold bind at 1.
    rewrite (segments_add_run r0 s n (-1)) by done.
    replace (n + -1) with (n - 1) by lia.
    unfold bind at 1.
    set (r1 := with_segments _ r0).
    rewrite (read_frame r1 r) by reflexivity. rewrite Hr. cbn [fst].
    unfold bind at 1. rewrite compact_add_run.
    set (r2 := with_compact _ r1).
    assert (Hc2 : cursor_ok r2) by (revert Hc; now apply cursor_ok_ext).
    assert (Ht2 : write_target r2 = write_target r) by reflexivity.
    unfold bind at 1. rewrite write_delete_run by done.
    unfold bind at 1. rewrite compact_add_run.
    rewrite segments_setdefault_run.
    eexists. split; [reflexivity|].
    cbn [index disk compact segments with_segments with_compact].
    destruct (written_rest r2 (delete_frame id)) as (Ei & Es & Ec & _).
    rewrite Ei, Es, Ec, written_data, !Ht2. subst delete_segment.
    repeat split.
Qed.

Lemma delete_protocol_witness :
  let idx : NSIndex := {[ key_of x01 := (0, 8) ]} in
  _active_txn one_pending = true /\
  index one_pending = Some idx /\
  cursor_ok one_pending /\
  blen (key_of x01) = 32 /\
  idx !! key_of x01 = Some (0, 8) /\
  segments one_pending !! 0 = Some 1 /\
  read 0 8 (key_of x01) false one_pending = (Ok (None, 44), one_pending) /\
  exists r',
    delete 1 (key_of x01) one_pending = (Ok tt, r') /\
    index r' = Some (base.delete (key_of x01) idx) /\
    segments r'
    = setdefault0 (write_target one_pending).1
        (<[0 := 1 - 1]> (segments one_pending)).
Proof.
  intros idx.
  assert (H1 : _active_txn one_pending = true) by reflexivity.
  assert (H2 : index one_pending = Some idx) by reflexivity.
  assert (H3 : cursor_ok one_pending).
  { vm_compute. split; [reflexivity|]. eexists. split; [reflexivity|].
    split; [reflexivity|discriminate]. }
  assert (H4 : blen (key_of x01) = 32) by (vm_compute; reflexivity).
  assert (H6 : idx !! key_of x01 = Some (0, 8)) by (vm_compute; reflexivity).
  assert (H7 : segments one_pending !! 0 = Some 1)
    by (vm_compute; reflexivity).
  assert (H8 : read 0 8 (key_of x01) false one_pending
               = (Ok (None, 44), one_pending)) by (vm_compute; reflexivity).
  destruct (proj2 (delete_protocol 1 one_pending (key_of x01) idx
                     H1 H2 H3 H4) 0 8 1 None 44 H6 H7 H8)
    as (r' & Hd & Hi & _ & _ & Hs).
  do 7 (split; [assumption|]).
  exists r'. split; [exact Hd|]. split; [exact Hi|exact Hs].
Defined.

(** ** The snapshot written by write_index *)

(** What the loop that removes the old auxiliary files leaves of the
    directory. *)
Fixpoint sweep (stale : string -> bool) (l : list string)
    (files : gmap string File) : gmap string File :=
  match l with
  | [] => files
  | name :: l' =>
      sweep stale l' (if stale name then base.delete name files else files)
  end.

Lemma sweep_lookup (stale : string -> bool) (l : list string)
    (files : gmap string File) (name : string) :
  sweep stale l files !! name
  = if stale name && bool_decide (name ∈ l) then None else files !! name.
Proof.
  revert files. induction l as [|n l IH]; intros files; cbn [sweep].
  - now rewrite andb_false_r.
  - rewrite IH. destruct (decide (name = n)) as [->|Hne].
    + rewrite (bool_decide_eq_true_2 (n ∈ n :: l)) by left.
      rewrite andb_true_r. destruct (stale n) eqn:S.
      * rewrite lookup_delete_eq. now destruct (bool_decide _).
      * reflexivity.
    + assert (E : bool_decide (name ∈ n :: l) = bool_decide (name ∈ l)).
      { apply bool_decide_ext. set_solver. }
      rewrite E. destruct (stale n); [rewrite lookup_delete_ne by done|];
        reflexivity.
Qed.

(** Every listed name is still there when its turn comes, so no [unlink]
    fails. *)
Lemma unlink_loop (stale : string -> bool) (l : list string)
    (r : Repository) :
  NoDup l -> (forall name, name ∈ l -> is_Some (top (disk r) !! name)) ->
  for_each l (fun name => if stale name then unlink name else ret tt) r
  = (Ok tt,
     with_disk (fun d =>
         log_events (map EvUnlink (filter (fun n => stale n = true) l))
           (set_top (sweep stale l (top d)) d)) r).
Proof.
  revert r. induction l as [|name l IH]; intros r Hnd Hin.
  - cbn. unfold ret. f_equal. destruct r as [? [? ? ? ?] ? ? ? ? ? ? ?].
    unfold_state. now rewrite app_nil_r.
  - apply NoDup_cons in Hnd as [Hni Hnd].
    cbn [for_each sweep]. unfold bind at 1.
    destruct (stale name) eqn:S.
    + unfold unlink, bind, self, modify.
      destruct (Hin name) as [f Hf]; [left|]. rewrite Hf.
      rewrite IH; [|done|].
      * f_equal. rewrite filter_cons_True by done. cbn [map].
        destruct r as [? [? ? ? ?] ? ? ? ? ? ? ?]. unfold_state.
        now rewrite <- app_assoc.
      * intros n Hn. unfold_state. rewrite lookup_delete_ne by set_solver.
        apply Hin. now right.
    + unfold ret. rewrite IH; [|done|intros; apply Hin; now right].
      f_equal. now rewrite filter_cons_False by (rewrite S; done).
Qed.

(** ** Names of the snapshot files *)

Lemma chars_app (a b : string) :
  chars (a ++ b)%string = chars a ++ chars b.
Proof.
  unfold chars. induction a as [|c a IH]; simpl; [reflexivity|].
  f_equal. exact IH.
Qed.

Lemma chars_inj (a b : string) : chars a = chars b -> a = b.
Proof.
  unfold chars. intros H.
  rewrite <- (string_of_list_ascii_of_string a),
    <- (string_of_list_ascii_of_string b). now rewrite H.
Qed.

Lemma str_from_app (p s : string) :
  str_from (length (chars p)) (p ++ s)%string = s.
Proof.
  unfold str_from. rewrite chars_app, drop_app_length.
  apply string_of_list_ascii_of_string.
Qed.

Lemma startswith_split (p s : string) :
  startswith p s = true ->
  chars s = chars p ++ chars (str_from (length (chars p)) s).
Proof.
  unfold startswith. intros H. apply bool_decide_eq_true in H as [k Hk].
  unfold str_from. rewrite Hk, drop_app_length.
  unfold chars at 3. now rewrite list_ascii_of_string_of_list_ascii.
Qed.

Lemma dot_not_in_digits (u : Decimal.uint) :
  "."%char ∉ chars (NilEmpty.string_of_uint u).
Proof.
  unfold chars.
  induction u; cbn; [apply not_elem_of_nil|..];
    (apply not_elem_of_cons; split; [discriminate|assumption]).
Qed.

Lemma dot_not_in_int_of_digits (s : string) (n : Z) :
  int_of_digits s = Some n -> "."%char ∉ chars s.
Proof.
  unfold int_of_digits.
  destruct (NilZero.uint_of_string s) as [u|] eqn:E; [|discriminate].
  intros _. apply NilZero.sus in E. subst s.
  destruct u; try apply dot_not_in_digits.
  unfold chars. cbn. apply not_elem_of_cons. split; [discriminate|].
  apply not_elem_of_nil.
Qed.

(** [int('%d' % n) == n] for a transaction id. *)
Lemma int_of_digits_fmt_d (n : Z) : 0 <= n -> int_of_digits (fmt_d n) = Some n.
Proof.
  intros Hn. unfold int_of_digits, fmt_d.
  destruct n as [|p|p]; [reflexivity| |lia].
  cbn [Z.to_int NilZero.string_of_int].
  rewrite NilZero.usu by apply DecimalPos.Unsigned.to_uint_nonnil.
  unfold Z.of_uint. now rewrite DecimalPos.Unsigned.of_to.
Qed.

Lemma endswith_dot_digits (prefix digits : string) (t n : Z) :
  0 <= t -> int_of_digits digits = Some n ->
  endswith ("." ++ fmt_d t)%string (prefix ++ "." ++ digits)%string = true ->
  n = t.
Proof.
  intros Ht Hd H. unfold endswith in H. apply bool_decide_eq_true in H.
  rewrite !chars_app in H.
  change (chars ".") with ["."%char] in H.
  change (?a ++ ["."%char] ++ ?b) with (a ++ "."%char :: b) in H.
  change (["."%char] ++ ?b) with ([] ++ "."%char :: b) in H.
  apply suffix_not_elem_of_app_cons_inv in H as (_ & _ & E).
  - apply chars_inj in E. rewrite <- E, int_of_digits_fmt_d in Hd by done.
    congruence.
  - eapply dot_not_in_int_of_digits, Hd.
  - eapply dot_not_in_int_of_digits, int_of_digits_fmt_d, Ht.
Qed.

Lemma endswith_app (p s : string) : endswith s (p ++ s)%string = true.
Proof.
  unfold endswith. apply bool_decide_eq_true. rewrite chars_app.
  now apply suffix_app_r.
Qed.

Lemma index_name_fresh (t : Z) : is_stale t (index_name t) = false.
Proof.
  unfold is_stale, index_name.
  change ("index." ++ fmt_d t)%string
    with ("index" ++ ("." ++ fmt_d t))%string.
  rewrite endswith_app. apply andb_false_r.
Qed.

Lemma hints_name_fresh (t : Z) : is_stale t (hints_name t) = false.
Proof.
  unfold is_stale, hints_name.
  change ("hints." ++ fmt_d t)%string
    with ("hints" ++ ("." ++ fmt_d t))%string.
  rewrite endswith_app. apply andb_false_r.
Qed.

Lemma index_number_index_name (d : Disk) (t : Z) (f : File) :
  0 <= t -> top d !! index_name t = Some f -> st_size_nonzero f = true ->
  index_number d (index_name t) = Some t.
Proof.
  intros Ht Hf Hs. unfold index_number.
  assert (E : startswith "index." (index_name t) = true).
  { unfold startswith, index_name. apply bool_decide_eq_true.
    rewrite chars_app. now apply prefix_app_r. }
  rewrite E. unfold index_name in *.
  change 6%nat with (length (chars "index.")).
  rewrite str_from_app, int_of_digits_fmt_d, Hf, Hs by done. reflexivity.
Qed.

(** An [index.N] that survives the removal of old files has [N = txid]. *)
Lemma index_number_not_stale (d : Disk) (fn : string) (n t : Z) :
  0 <= t -> index_number d fn = Some n -> is_stale t fn = false -> n = t.
Proof.
  intros Ht Hn Hs. unfold index_number in Hn.
  destruct (startswith "index." fn) eqn:P; [|discriminate].
  destruct (int_of_digits (str_from 6 fn)) as [m|] eqn:D; [|discriminate].
  destruct (top d !! fn) as [f|]; [|discriminate].
  destruct (st_size_nonzero f); [|discriminate]. injection Hn as ->.
  unfold is_stale in Hs. rewrite P in Hs. cbn [orb andb] in Hs.
  apply negb_false_iff in Hs.
  apply startswith_split in P.
  change (length (chars "index.")) with 6%nat in P.
  assert (E : fn = ("index" ++ "." ++ str_from 6 fn)%string).
  { apply chars_inj. rewrite P, !chars_app. reflexivity. }
  rewrite E in Hs. eapply endswith_dot_digits; eauto.
Qed.

(** ** The highest number of a list *)

Lemma last_strongly_sorted (l : list Z) (n : Z) :
  StronglySorted Z.le l -> last l = Some n ->
  n ∈ l /\ forall m, m ∈ l -> m <= n.
Proof.
  induction 1 as [|a l Hs IH Hall]; [discriminate|].
  destruct l as [|b l].
  - cbn. intros [= ->]. split; [left|]. intros m Hm.
    apply list_elem_of_singleton in Hm. lia.
  - change (last (a :: b :: l)) with (last (b :: l)). intros Hl.
    destruct (IH Hl) as [Hin Hmax]. split; [now right|].
    intros m Hm. apply elem_of_cons in Hm as [->|Hm]; [|now apply Hmax].
    rewrite Forall_forall in Hall. now apply Hall.
Qed.

(** [sorted(l)[-1]] is the largest element; there is none exactly when [l]
    is empty. *)
Lemma last_sorted_max (l : list Z) (n : Z) :
  last (merge_sort Z.le l) = Some n <->
  n ∈ l /\ forall m, m ∈ l -> m <= n.
Proof.
  assert (HS : StronglySorted Z.le (merge_sort Z.le l)).
  { apply (StronglySorted_merge_sort Z.le). }
  pose proof (merge_sort_Permutation Z.le l) as HP.
  split.
  - intros Hl. destruct (last_strongly_sorted _ _ HS Hl) as [Hin Hmax].
    split; [now rewrite <- HP|]. intros m Hm. apply Hmax. now rewrite HP.
  - intros [Hin Hmax].
    destruct (last (merge_sort Z.le l)) as [k|] eqn:E.
    + destruct (last_strongly_sorted _ _ HS E) as [Hk Hkmax].
      f_equal. rewrite HP in Hk. rewrite <- HP in Hin.
      specialize (Hmax k Hk). specialize (Hkmax n Hin). lia.
    + apply last_None in E. rewrite <- HP, E in Hin.
      now apply elem_of_nil in Hin.
Qed.


Lemma index_numbers_elem (d : Disk) (m : Z) :
  m ∈ omap (index_number d) (listdir d) <->
  exists fn, index_number d fn = Some m.
Proof.
  rewrite list_elem_of_omap. split.
  - intros (fn & _ & H). eauto.
  - intros (fn & H). exists fn. split; [|done].
    unfold index_number in H.
    destruct (startswith _ _); [|done].
    destruct (int_of_digits _); [|done].
    destruct (top d !! fn) as [f|] eqn:E; [|done].
    unfold listdir. apply list_elem_of_fmap. exists (fn, f).
    split; [done|]. now apply elem_of_map_to_list.
Qed.


(** ** The snapshot: state after write_index *)

(** The files of the directory once the new hints and index are in place,
    before the old ones are removed. *)
Definition snapshot_files (transaction_id : Z) (r : Repository) (idx : NSIndex)
  : gmap string File :=
  let hints := HintsFile (mkHints 2 (segments r) (compact r)) in
  let t1 :=
    <[hints_name transaction_id := hints]>
      (base.delete (hints_name transaction_id ++ ".tmp")%string
         (<[(hints_name transaction_id ++ ".tmp")%string := hints]>
            (top (disk r)))) in
  let t2 :=
    <[index_name transaction_id := IndexFile idx]>
      (base.delete "index.tmp"%string
         (<["index.tmp"%string := IndexFile idx]> t1)) in
  if append_only r then
    <["transactions"%string :=
       TransactionsFile
         (match t2 !! "transactions"%string with
          | Some (TransactionsFile l) => l
          | _ => []
          end ++ [transaction_id])]> t2
  else t2.

Definition snapshot_events (transaction_id : Z) (append : bool)
  : list event :=
  [EvWrite (hints_name transaction_id ++ ".tmp");
   EvFsync (hints_name transaction_id ++ ".tmp");
   EvRename (hints_name transaction_id ++ ".tmp") (hints_name transaction_id);
   EvWrite "index.tmp";
   EvRename "index.tmp" (index_name transaction_id)]
  ++ (if append then [EvAppend "transactions"] else []).

Definition stale_names (transaction_id : Z) (files : gmap string File)
  : list string :=
  filter (fun n => is_stale transaction_id n = true)
         (map fst (map_to_list files)).

(** The state [write_index] leaves. *)
Definition snapshotted (transaction_id : Z) (idx : NSIndex) (r : Repository)
  : Repository :=
  let files := snapshot_files transaction_id r idx in
  with_index None
    (with_disk (fun d =>
        mkDisk (data d) (beforerecover d)
          (sweep (is_stale transaction_id) (map fst (map_to_list files)) files)
          (journal d ++ snapshot_events transaction_id (append_only r)
           ++ map EvUnlink (stale_names transaction_id files))) r).

Lemma write_index_run (r : Repository) (transaction_id : Z) (idx : NSIndex) :
  get_segments_transaction_id (disk r) = Some transaction_id ->
  index r = Some idx ->
  write_index r = (Ok tt, snapshotted transaction_id idx r).
Proof.
  intros Ht Hi. unfold write_index. unfold bind at 1, self at 1.
  rewrite Ht. unfold bind at 1, write_file at 1, modify at 1.
  unfold bind at 1, rename at 1, bind at 1, self at 1.
  cbn [disk with_disk top set_top log_events].
  rewrite lookup_insert_eq. unfold modify at 1.
  rewrite Hi.
  unfold bind at 1, write_file at 1, modify at 1.
  unfold bind at 1, rename at 1, bind at 1, self at 1.
  cbn [disk with_disk top set_top log_events].
  rewrite lookup_insert_eq. unfold modify at 1.
  unfold bind at 1.
  set (r2 := with_disk _ (with_disk _ (with_disk _ (with_disk _ r)))).
  assert (E : exists r3,
            (if append_only r then append_transaction transaction_id
             else ret tt) r2 = (Ok tt, r3) /\
            r3 = with_disk (fun d => mkDisk (data d) (beforerecover d)
                   (snapshot_files transaction_id r idx)
                   (journal d
                    ++ snapshot_events transaction_id (append_only r))) r).
  { unfold snapshot_files, snapshot_events.
    destruct r as [? [? ? ? ?] ? ? ? ? ao ? ?]. subst r2.
    cbn [append_only]. destruct ao; eexists; (split; [reflexivity|]);
      unfold append_transaction, modify, ret; unfold_state;
      now rewrite <- ?app_assoc. }
  destruct E as (r3 & -> & Hr3).
  unfold bind at 1, self at 1. unfold bind at 1.
  unfold listdir. rewrite unlink_loop.
  - unfold modify, snapshotted. f_equal. rewrite Hr3.
    destruct r as [? [? ? ? ?] ? ? ? ? ? ? ?]. unfold_state.
    unfold stale_names. now rewrite <- !app_assoc.
  - apply NoDup_fst_map_to_list.
  - intros name Hn. apply list_elem_of_fmap in Hn as ((n & f) & -> & Hn).
    apply elem_of_map_to_list in Hn. eauto.
Qed.

Lemma snapshot_files_lookup (t : Z) (r : Repository) (idx : NSIndex)
    (name : string) :
  name <> "transactions"%string ->
  snapshot_files t r idx !! name
  = if decide (name = index_name t) then Some (IndexFile idx)
    else if decide (name = "index.tmp"%string) then None
    else if decide (name = hints_name t)
         then Some (HintsFile (mkHints 2 (segments r) (compact r)))
    else if decide (name = (hints_name t ++ ".tmp")%string) then None
    else top (disk r) !! name.
Proof.
  intros Hn. unfold snapshot_files.
  assert (E : forall m : gmap string File,
            (if append_only r
             then <["transactions"%string :=
                    TransactionsFile
                      (match m !! "transactions"%string with
                       | Some (TransactionsFile l) => l
                       | _ => []
                       end ++ [t])]> m
             else m) !! name = m !! name).
  { intros m. destruct (append_only r); [|done].
    now rewrite lookup_insert_ne. }
  cbv zeta. rewrite E.
  repeat case_decide; subst; simplify_map_eq; try done.
Qed.

Lemma stale_is_auxiliary (t : Z) (name : string) :
  is_stale t name = true ->
  name <> "transactions"%string /\ name <> index_name t /\
  name <> hints_name t.
Proof.
  intros H. repeat split; intros ->.
  - vm_compute in H. discriminate.
  - now rewrite index_name_fresh in H.
  - now rewrite hints_name_fresh in H.
Qed.

Lemma listed (files : gmap string File) (name : string) :
  name ∈ map fst (map_to_list files) <-> is_Some (files !! name).
Proof.
  rewrite list_elem_of_fmap. split.
  - intros ((n & f) & -> & H). apply elem_of_map_to_list in H. eauto.
  - intros [f H]. exists (name, f). split; [done|].
    now apply elem_of_map_to_list.
Qed.

Lemma snapshotted_lookup (t : Z) (idx : NSIndex) (r : Repository)
    (name : string) :
  top (disk (snapshotted t idx r)) !! name
  = if is_stale t name then None else snapshot_files t r idx !! name.
Proof.
  unfold snapshotted. cbn [disk with_index with_disk top].
  rewrite sweep_lookup. destruct (is_stale t name); [|done].
  cbn [andb]. case_bool_decide as Hb; [done|].
  destruct (snapshot_files t r idx !! name) eqn:E; [|done].
  exfalso. apply Hb, listed. eauto.
Qed.

Lemma snapshotted_index (t : Z) (idx : NSIndex) (r : Repository) :
  top (disk (snapshotted t idx r)) !! index_name t = Some (IndexFile idx).
Proof.
  rewrite snapshotted_lookup, index_name_fresh, snapshot_files_lookup by done.
  now rewrite decide_True.
Qed.

Lemma snapshotted_hints (t : Z) (idx : NSIndex) (r : Repository) :
  top (disk (snapshotted t idx r)) !! hints_name t
  = Some (HintsFile (mkHints 2 (segments r) (compact r))).
Proof.
  rewrite snapshotted_lookup, hints_name_fresh, snapshot_files_lookup by done.
  rewrite decide_False by done. rewrite decide_False by done.
  now rewrite decide_True.
Qed.

Lemma snapshotted_txid (t : Z) (idx : NSIndex) (r : Repository) :
  0 <= t -> get_index_transaction_id (disk (snapshotted t idx r)) = Some t.
Proof.
  intros Ht. unfold get_index_transaction_id. apply last_sorted_max. split.
  - apply index_numbers_elem. exists (index_name t).
    apply (index_number_index_name _ t (IndexFile idx));
      [done|apply snapshotted_index|done].
  - intros m Hm. apply index_numbers_elem in Hm as [fn Hfn].
    enough (m = t) by lia.
    eapply index_number_not_stale; eauto.
    destruct (is_stale t fn) eqn:S; [|done].
    unfold index_number in Hfn. rewrite snapshotted_lookup, S in Hfn.
    destruct (startswith _ _); [|done].
    now destruct (int_of_digits _).
Qed.

Lemma snapshotted_rest (t : Z) (idx : NSIndex) (r : Repository) :
  data (disk (snapshotted t idx r)) = data (disk r) /\
  io (snapshotted t idx r) = io r /\
  index (snapshotted t idx r) = None /\
  segments (snapshotted t idx r) = segments r /\
  compact (snapshotted t idx r) = compact r /\
  _active_txn (snapshotted t idx r) = _active_txn r.
Proof. destruct r as [? [? ? ? ?] ? ? ? ? ? ? ?]. repeat split. Qed.

(** [write_index] (the snapshot step of a commit), on a repository whose
    index is loaded and that has a committed segment [t]: it first writes
    [hints.t.tmp], syncs it and renames it to [hints.t], then writes
    [index.tmp] and renames it to [index.t], then (append-only mode) adds a
    line to [transactions], and last unlinks the files whose name starts
    with [index.] or [hints.] and does not end with [.t]. Afterwards
    [index.t] holds the index, [hints.t] the version 2 hints,
    [get_index_transaction_id] is [t], the segment files are untouched and
    the index is dropped from memory. *)
Theorem write_index_snapshot (r : Repository) (t : Z) (idx : NSIndex) :
  get_segments_transaction_id (disk r) = Some t ->
  index r = Some idx -> 0 <= t ->
  exists r' unlinked,
    write_index r = (Ok tt, r') /\
    journal (disk r')
    = journal (disk r)
      ++ [EvWrite (hints_name t ++ ".tmp");
          EvFsync (hints_name t ++ ".tmp");
          EvRename (hints_name t ++ ".tmp") (hints_name t);
          EvWrite "index.tmp";
          EvRename "index.tmp" (index_name t)]
      ++ (if append_only r then [EvAppend "transactions"] else [])
      ++ map EvUnlink unlinked /\
    (forall name,
       name ∈ unlinked <->
       is_stale t name = true /\ is_Some (top (disk r) !! name) /\
       name <> "index.tmp"%string /\
       name <> (hints_name t ++ ".tmp")%string) /\
    (forall name, is_stale t name = true -> top (disk r') !! name = None) /\
    top (disk r') !! index_name t = Some (IndexFile idx) /\
    top (disk r') !! hints_name t
    = Some (HintsFile (mkHints 2 (segments r) (compact r))) /\
    get_index_transaction_id (disk r') = Some t /\
    data (disk r') = data (disk r) /\
    index r' = None.
Proof.
  intros Hs Hi Ht.
  exists (snapshotted t idx r), (stale_names t (snapshot_files t r idx)).
  split; [now apply write_index_run|].
  split.
  { unfold snapshotted, snapshot_events; cbn. reflexivity. }
  split; [|split; [|split; [apply snapshotted_index
                           |split; [apply snapshotted_hints
                                   |split; [now apply snapshotted_txid
                                           |done]]]]].
  - intros name. unfold stale_names. rewrite list_elem_of_filter, listed.
    split.
    + intros [Hst Hsome]. split; [done|].
      destruct (stale_is_auxiliary t name Hst) as (N1 & N2 & N3).
      rewrite snapshot_files_lookup in Hsome by done.
      repeat case_decide; try done; by destruct Hsome.
    + intros (Hst & Hsome & N4 & N5). split; [done|].
      destruct (stale_is_auxiliary t name Hst) as (N1 & N2 & N3).
      rewrite snapshot_files_lookup by done.
      now rewrite !decide_False by done.
  - intros name Hst. now rewrite snapshotted_lookup, Hst.
Qed.

(** A committed segment [1] after one object, the index still in memory,
    and the files of an older snapshot [0] in the directory. *)
Definition ready_to_snapshot : Repository :=
  mkRepo (mkIO 2 0 100 None)
         (mkDisk {[ 0 := MAGIC ++ put_frame (key_of x01) [x61];
                    1 := MAGIC ++ COMMIT ]}
                 ∅
                 {[ "index.0"%string := IndexFile ∅;
                    "hints.0"%string := HintsFile (mkHints 2 ∅ ∅) ]}
                 [])
         (Some {[ key_of x01 := (0, 8) ]}) {[ 0 := 1 ]} ∅ true false 100 [].

Lemma write_index_snapshot_witness :
  let idx : NSIndex := {[ key_of x01 := (0, 8) ]} in
  get_segments_transaction_id (disk ready_to_snapshot) = Some 1 /\
  index ready_to_snapshot = Some idx /\
  0 <= 1 /\
  exists r',
    write_index ready_to_snapshot = (Ok tt, r') /\
    top (disk r') !! "index.0"%string = None /\
    top (disk r') !! index_name 1 = Some (IndexFile idx) /\
    get_index_transaction_id (disk r') = Some 1.
Proof.
  intros idx.
  assert (H1 : get_segments_transaction_id (disk ready_to_snapshot) = Some 1)
    by (vm_compute; reflexivity).
  assert (H2 : index ready_to_snapshot = Some idx) by reflexivity.
  assert (H3 : 0 <= 1) by lia.
  do 3 (split; [assumption|]).
  destruct (write_index_snapshot ready_to_snapshot 1 idx H1 H2 H3)
    as (r' & unlinked & Hw & _ & _ & Hst & Hix & _ & Hid & _).
  exists r'. split; [exact Hw|]. split; [|split; [exact Hix|exact Hid]].
  apply Hst. vm_compute. reflexivity.
Defined.

(** ** The last committed segment *)

Lemma last_strongly_sorted_iff (l : list Z) (n : Z) :
  StronglySorted Z.le l ->
  last l = Some n <-> n ∈ l /\ forall m, m ∈ l -> m <= n.
Proof.
  intros HS. split; [now apply last_strongly_sorted|].
  intros [Hin Hmax]. destruct (last l) as [k|] eqn:E.
  - destruct (last_strongly_sorted _ _ HS E) as [Hk Hkmax].
    f_equal. specialize (Hmax k Hk). specialize (Hkmax n Hin). lia.
  - apply last_None in E. subst. now apply elem_of_nil in Hin.
Qed.

Lemma StronglySorted_filter (P : Z -> Prop) `{!forall x, Decision (P x)}
    (l : list Z) :
  StronglySorted Z.le l -> StronglySorted Z.le (filter P l).
Proof.
  induction 1 as [|a l Hs IH Hall]; [constructor|].
  rewrite filter_cons. destruct (decide (P a)); [|done].
  constructor; [done|]. rewrite Forall_forall in *. intros y Hy.
  apply list_elem_of_filter in Hy as [_ Hy]. now apply Hall.
Qed.

Lemma head_filter_rev (P : Z -> Prop) `{!forall x, Decision (P x)}
    (l : list Z) :
  head (filter P (rev l)) = last (filter P l).
Proof.
  induction l as [|a l IH]; [reflexivity|].
  cbn [rev]. rewrite filter_app, filter_cons.
  destruct (decide (P a)) as [Hp|Hp].
  - rewrite filter_cons_True, filter_nil by done.
    destruct (filter P (rev l)) as [|x k] eqn:E.
    + cbn. cbn in IH. symmetry in IH. apply last_None in IH.
      now rewrite IH.
    + cbn [app head]. cbn [head] in IH. rewrite IH.
      destruct (filter P l) as [|y k'] eqn:F; [discriminate|]. reflexivity.
  - rewrite filter_cons_False, filter_nil, app_nil_r by done. exact IH.
Qed.

Lemma head_filter_rev_sorted (P : Z -> Prop) `{!forall x, Decision (P x)}
    (l : list Z) (n : Z) :
  StronglySorted Z.le l ->
  head (filter P (rev l)) = Some n <->
  n ∈ l /\ P n /\ forall m, m ∈ l -> P m -> m <= n.
Proof.
  intros HS. rewrite head_filter_rev.
  rewrite last_strongly_sorted_iff by now apply StronglySorted_filter.
  rewrite list_elem_of_filter. split.
  - intros [[Hp Hin] Hmax]. repeat split; try done.
    intros m Hm Hpm. apply Hmax. now apply list_elem_of_filter.
  - intros (Hin & Hp & Hmax). repeat split; try done.
    intros m Hm. apply list_elem_of_filter in Hm as [Hpm Hm]. eauto.
Qed.

Lemma segment_listed (d : Disk) (s : Z) :
  s ∈ map fst (map_to_list (data d)) <-> is_Some (data d !! s).
Proof.
  rewrite list_elem_of_fmap. split.
  - intros ((n & f) & -> & H). apply elem_of_map_to_list in H. eauto.
  - intros [f H]. exists (s, f). split; [done|].
    now apply elem_of_map_to_list.
Qed.

Lemma segments_txid_iff (d : Disk) (s : Z) :
  get_segments_transaction_id d = Some s <->
  is_committed_segment d s = true /\
  forall s', is_committed_segment d s' = true -> s' <= s.
Proof.
  unfold get_segments_transaction_id, segment_iterator.
  rewrite head_filter_rev_sorted
    by apply (StronglySorted_merge_sort Z.le).
  assert (Hex : forall x, is_committed_segment d x = true ->
                          x ∈ merge_sort Z.le (map fst (map_to_list (data d)))).
  { intros x Hx. rewrite merge_sort_Permutation. apply segment_listed.
    unfold is_committed_segment in Hx.
    destruct (data d !! x); [eauto|discriminate]. }
  split.
  - intros (_ & Hp & Hmax). split; [done|]. intros s' Hs'. eauto.
  - intros (Hp & Hmax). split; [eauto|]. split; [done|]. eauto.
Qed.

(** [get_segments_transaction_id]: the highest segment number on disk whose
    file [is_committed_segment] accepts, [None] when there is none; a
    segment above it is never committed. *)
Theorem get_segments_transaction_id_max (d : Disk) :
  (forall s,
     get_segments_transaction_id d = Some s <->
     is_Some (data d !! s) /\ is_committed_segment d s = true /\
     forall s', is_Some (data d !! s') -> s < s' ->
                is_committed_segment d s' = false) /\
  (get_segments_transaction_id d = None <->
   forall s, is_committed_segment d s = false).
Proof.
  split.
  - intros s. rewrite segments_txid_iff. split.
    + intros [Hc Hmax]. split.
      * unfold is_committed_segment in Hc.
        destruct (data d !! s); [eauto|discriminate].
      * split; [done|]. intros s' _ Hlt.
        destruct (is_committed_segment d s') eqn:E; [|done].
        specialize (Hmax s' E). lia.
    + intros (_ & Hc & Hab). split; [done|]. intros s' Hs'.
      destruct (Z.le_gt_cases s' s) as [|Hgt]; [done|].
      rewrite Hab in Hs'; [discriminate| |lia].
      unfold is_committed_segment in Hs'.
      destruct (data d !! s'); [eauto|discriminate].
  - split.
    + intros Hn s. destruct (is_committed_segment d s) eqn:E; [|done].
      assert (Hx : exists x, get_segments_transaction_id d = Some x).
      { unfold get_segments_transaction_id in *.
        destruct (filter _ _) as [|x k] eqn:F; [|eauto].
        assert (Hin : s ∈ filter (fun s => is_committed_segment d s = true)
                          (segment_iterator d true)).
        { apply list_elem_of_filter. split; [done|].
          unfold segment_iterator. apply list_elem_of_In, in_rev.
          rewrite rev_involutive. apply list_elem_of_In.
          rewrite merge_sort_Permutation. apply segment_listed.
          unfold is_committed_segment in E.
          destruct (data d !! s); [eauto|discriminate]. }
        rewrite F in Hin. now apply elem_of_nil in Hin. }
      destruct Hx as [x Hx]. congruence.
    + intros Hall. destruct (get_segments_transaction_id d) as [s|] eqn:E;
        [|done].
      apply segments_txid_iff in E as [Hc _]. now rewrite Hall in Hc.
Qed.

(** ** commit *)

Lemma MAGIC_COMMIT_committed : is_committed_content (MAGIC ++ COMMIT) = true.
Proof. vm_compute. reflexivity. Qed.











Lemma rolled_back_fields (r : Repository) :
  disk (with_active_txn false (with_index None r)) = disk r /\
  io (with_active_txn false (with_index None r)) = io r /\
  index (with_active_txn false (with_index None r)) = None /\
  _active_txn (with_active_txn false (with_index None r)) = false /\
  segments (with_active_txn false (with_index None r)) = segments r /\
  compact (with_active_txn false (with_index None r)) = compact r.
Proof. destruct r. repeat split. Qed.



(** ** Opening the snapshot *)

Lemma check_transaction_agree (fuel : nat) (r : Repository) :
  get_index_transaction_id (disk r) = get_segments_transaction_id (disk r) ->
  check_transaction (S fuel) r = (Ok tt, r).
Proof.
  intros E. cbn [check_transaction]. unfold bind, self. rewrite <- E.
  destruct (get_index_transaction_id (disk r)) as [t|].
  - rewrite (bool_decide_eq_false_2 (Some t = None)) by done.
    rewrite andb_false_r.
    now rewrite (bool_decide_eq_true_2 (Some t = Some t)) by done.
  - rewrite (bool_decide_eq_false_2 (None <> None)) by (intros H; now apply H).
    reflexivity.
Qed.

Lemma get_transaction_id_agree (fuel : nat) (r : Repository) :
  get_index_transaction_id (disk r) = get_segments_transaction_id (disk r) ->
  get_transaction_id (S (S fuel)) r
  = (Ok (get_index_transaction_id (disk r)), r).
Proof.
  intros E. cbn [get_transaction_id]. unfold bind at 1.
  now rewrite check_transaction_agree.
Qed.

Lemma open_index_snapshot (fuel : nat) (r : Repository) (t : Z)
    (idx : NSIndex) (auto_recover : bool) :
  top (disk r) !! index_name t = Some (IndexFile idx) ->
  open_index (S fuel) (Some t) auto_recover r = (Ok idx, r).
Proof. intros H. cbn [open_index]. unfold bind, self. now rewrite H. Qed.

(** [get] without an index in memory, on a repository whose newest index
    file and last committed segment have the same number [t]. *)
Lemma get_snapshot_run (fuel : nat) (r : Repository) (t : Z) (idx : NSIndex)
    (id : bytes) :
  index r = None ->
  get_index_transaction_id (disk r) = Some t ->
  get_segments_transaction_id (disk r) = Some t ->
  top (disk r) !! index_name t = Some (IndexFile idx) ->
  get (S (S fuel)) id r
  = match idx !! id with
    | None => (Raise ObjectNotFound, with_index (Some idx) r)
    | Some (segment, offset) =>
        match read segment offset id true (with_index (Some idx) r) with
        | (Ok (Some d, _), r') => (Ok d, r')
        | (Ok (None, _), r') => (Raise TypeError, r')
        | (Raise e, r') => (Raise e, r')
        | (Timeout, r') => (Timeout, r')
        end
    end.
Proof.
  intros Hi Hx Hs Hf. unfold get. unfold bind at 1, self at 1.
  unfold index_falsy. rewrite Hi.
  unfold bind at 1. unfold bind at 1.
  rewrite get_transaction_id_agree by congruence. rewrite Hx.
  unfold bind at 1. rewrite (open_index_snapshot _ _ _ idx) by done.
  unfold modify at 1. unfold bind at 1, self at 1.
  assert (E : index (with_index (Some idx) r) = Some idx) by now destruct r.
  rewrite E.
  destruct (idx !! id) as [[segment offset]|]; [|reflexivity].
  unfold bind.
  destruct (read segment offset id true _) as [[[[d|] sz]| |] r'];
    reflexivity.
Qed.


(** A repository at rest: one object in segment [0], the COMMIT entry in
    segment [1] and the snapshot [1] in the directory. *)
Definition at_rest : Repository :=
  mkRepo (mkIO 2 0 100 None)
         (mkDisk {[ 0 := MAGIC ++ put_frame (key_of x01) [x61];
                    1 := MAGIC ++ COMMIT ]}
                 ∅
                 {[ "index.1"%string := IndexFile {[ key_of x01 := (0, 8) ]};
                    "hints.1"%string := HintsFile (mkHints 2 {[ 0 := 1 ]} ∅) ]}
                 [])
         None ∅ ∅ false false 100 [].



(** ** From put to get, through a commit *)

Lemma write_target_ge (r : Repository) :
  cursor_ok r -> io_segment (io r) <= (write_target r).1.
Proof.
  unfold cursor_ok, write_target. destruct (io_write_fd (io r)) as [s|];
    [|cbn; lia].
  intros (-> & _). destruct (rolls (io r)); cbn; lia.
Qed.






(** ** Decoding the entries of a segment *)

(** What a transaction appends to the log. *)
Inductive entry : Type :=
| Put (id value : bytes)
| Delete (id : bytes)
| Commit.

(** The bytes [write_put], [write_delete] and [write_commit] write for an
    entry. *)
Definition frame_of (e : entry) : bytes :=
  match e with
  | Put id value => put_frame id value
  | Delete id => delete_frame id
  | Commit => COMMIT
  end.

Definition well_formed (e : entry) : Prop :=
  match e with
  | Put id value =>
      blen id = 32 /\ blen value + put_header_fmt_size <= MAX_OBJECT_SIZE
  | Delete id => blen id = 32
  | Commit => True
  end.

(** What [iter_objects] is to yield for an entry found at [offset]. *)
Definition item_of (offset : Z) (read_data : bool) (e : entry) : item :=
  match e with
  | Put id value =>
      mkItem TAG_PUT (Some id) offset (blen value + put_header_fmt_size)
             (if read_data then Some value else None)
  | Delete id =>
      mkItem TAG_DELETE (Some id) offset put_header_fmt_size
             (if read_data then Some [] else None)
  | Commit =>
      mkItem TAG_COMMIT None offset header_fmt_size
             (if read_data then Some [] else None)
  end.

Fixpoint items_of (offset : Z) (read_data : bool) (es : list entry)
  : list item :=
  match es with
  | [] => []
  | e :: es' =>
      item_of offset read_data e
      :: items_of (offset + blen (frame_of e)) read_data es'
  end.

Definition log (es : list entry) : bytes := concat (map frame_of es).

(** A frame by its tag and what follows the nine-byte header. *)
Definition raw_header (tag : Z) (body : bytes) : bytes :=
  le32 (header_fmt_size + blen body) ++ [byte_of_Z tag].
Definition raw_frame (tag : Z) (body : bytes) : bytes :=
  le32 (Z.land (crc32 body (crc32 (raw_header tag body) 0)) crc_mask)
  ++ raw_header tag body ++ body.

Definition keyed (tag : Z) : bool := tag_in tag [TAG_PUT; TAG_DELETE].

Lemma put_frame_raw (id value : bytes) :
  blen id = 32 -> put_frame id value = raw_frame TAG_PUT (id ++ value).
Proof.
  intros Hid. unfold put_frame, raw_frame, raw_header, put_header.
  rewrite blen_app, Hid.
  replace (header_fmt_size + (32 + blen value))
    with (blen value + put_header_fmt_size)
    by (unfold header_fmt_size, put_header_fmt_size; lia).
  now rewrite (crc32_app id value).
Qed.

Lemma delete_frame_raw (id : bytes) :
  blen id = 32 -> delete_frame id = raw_frame TAG_DELETE id.
Proof.
  intros Hid. unfold delete_frame, raw_frame, raw_header, delete_header.
  now rewrite Hid.
Qed.

Lemma COMMIT_raw : COMMIT = raw_frame TAG_COMMIT [].
Proof. reflexivity. Qed.

Lemma blen_raw_header (tag : Z) (body : bytes) :
  blen (raw_header tag body) = 5.
Proof.
  unfold raw_header. now rewrite blen_app, blen_le32, blen_cons, blen_nil.
Qed.

Lemma blen_raw_frame (tag : Z) (body : bytes) :
  blen (raw_frame tag body) = header_fmt_size + blen body.
Proof.
  unfold raw_frame.
  rewrite !blen_app, blen_le32, blen_raw_header. unfold header_fmt_size. lia.
Qed.

Lemma next_object_header (content : bytes) (offset : Z) (read_data : bool) :
  read_at content offset header_fmt_size <> [] ->
  next_object content offset read_data
  = match _read (bfrom (offset + header_fmt_size) content) header_fmt
                (read_at content offset header_fmt_size)
                [TAG_PUT; TAG_DELETE; TAG_COMMIT] read_data with
    | inl e => Fault e
    | inr (size, tag, key, data) => Yield (mkItem tag key offset size data)
    end.
Proof.
  intros H. unfold next_object.
  now destruct (read_at content offset header_fmt_size).
Qed.
Lemma next_object_raw_frame (prefix body rest : bytes) (tag : Z)
    (read_data : bool) :
  tag ∈ [TAG_PUT; TAG_DELETE; TAG_COMMIT] ->
  header_fmt_size + blen body <= MAX_OBJECT_SIZE ->
  (keyed tag = true -> 32 <= blen body) ->
  next_object (prefix ++ raw_frame tag body ++ rest) (blen prefix) read_data
  = Yield (mkItem tag (if keyed tag then Some (bupto 32 body) else None)
             (blen prefix) (header_fmt_size + blen body)
             (if read_data
              then Some (if keyed tag then bfrom 32 body else body)
              else None)).
Proof.
  intros Htag Hsz Hkey. pose proof (blen_nonneg body) as Hb.
  set (crc := Z.land (crc32 body (crc32 (raw_header tag body) 0)) crc_mask).
  set (hdr := le32 crc ++ raw_header tag body).
  assert (Hlen : blen hdr = header_fmt_size)
    by (unfold hdr; now rewrite blen_app, blen_le32, blen_raw_header).
  assert (Hf : raw_frame tag body ++ rest = hdr ++ body ++ rest)
    by (unfold raw_frame, hdr; fold crc; now rewrite <- !app_assoc).
  assert (Hh : read_at (prefix ++ raw_frame tag body ++ rest) (blen prefix)
                 header_fmt_size = hdr).
  { rewrite Hf, <- Hlen. apply read_at_app. }
  assert (Hbody : bfrom (blen prefix + header_fmt_size)
                    (prefix ++ raw_frame tag body ++ rest) = body ++ rest).
  { rewrite Hf, <- Hlen. apply bfrom_app_app. }
  rewrite next_object_header
    by (rewrite Hh; intros E; apply (f_equal blen) in E;
        rewrite Hlen in E; discriminate).
  rewrite Hh, Hbody. unfold _read.
  assert (Ht : 0 <= tag < 256).
  { unfold TAG_PUT, TAG_DELETE, TAG_COMMIT in Htag.
    set_unfold in Htag. lia. }
  assert (Hu : header_fmt_unpack hdr
               = Some (crc, header_fmt_size + blen body, tag)).
  { unfold hdr, raw_header. apply header_fmt_unpack_le32;
      [apply land_mask_range
      |unfold header_fmt_size, MAX_OBJECT_SIZE in *; lia|done]. }
  rewrite Hu. cbn [fmt_size].
  destruct (Z.ltb_spec MAX_OBJECT_SIZE (header_fmt_size + blen body)); [lia|].
  destruct (Z.ltb_spec (header_fmt_size + blen body) header_fmt_size);
    [lia|]. cbn [orb].
  replace (header_fmt_size + blen body - header_fmt_size) with (blen body)
    by lia.
  fold (keyed tag).
  assert (Hacc : tag_in tag [TAG_PUT; TAG_DELETE; TAG_COMMIT] = true)
    by now apply bool_decide_eq_true.
  rewrite Hacc.
  destruct read_data.
  - rewrite bupto_app, Z.eqb_refl. cbn [negb].
    assert (Hc : bfrom 4 hdr = raw_header tag body).
    { unfold hdr. replace 4 with (blen (le32 crc)) by apply blen_le32.
      apply (bfrom_app (le32 crc)). }
    rewrite Hc. fold crc. rewrite Z.eqb_refl. cbn [negb].
    now destruct (keyed tag).
  - destruct (keyed tag) eqn:K; [|reflexivity].
    specialize (Hkey eq_refl).
    rewrite bupto_app_le by done.
    rewrite blen_bupto, Z.min_l by lia. reflexivity.
Qed.

Lemma next_object_entry (prefix rest : bytes) (e : entry) (read_data : bool) :
  well_formed e ->
  next_object (prefix ++ frame_of e ++ rest) (blen prefix) read_data
  = Yield (item_of (blen prefix) read_data e).
Proof.
  destruct e as [id value|id|]; cbn [well_formed frame_of item_of].
  - intros [Hid Hsz]. rewrite put_frame_raw by done.
    rewrite next_object_raw_frame.
    + change (keyed TAG_PUT) with true. cbv iota.
      rewrite blen_app, Hid.
      assert (E1 : bupto 32 (id ++ value) = id)
        by (rewrite <- Hid; apply bupto_app).
      assert (E2 : bfrom 32 (id ++ value) = value)
        by (rewrite <- Hid; apply bfrom_app).
      rewrite E1, E2.
      replace (header_fmt_size + (32 + blen value))
        with (blen value + put_header_fmt_size)
        by (unfold header_fmt_size, put_header_fmt_size; lia).
      reflexivity.
    + set_solver.
    + rewrite blen_app, Hid.
      unfold header_fmt_size, put_header_fmt_size in *. lia.
    + intros _. rewrite blen_app, Hid. pose proof (blen_nonneg value). lia.
  - intros Hid. rewrite delete_frame_raw by done.
    rewrite next_object_raw_frame.
    + change (keyed TAG_DELETE) with true. cbv iota.
      assert (E1 : bupto 32 id = id) by (apply bupto_all; lia).
      assert (E2 : bfrom 32 id = []).
      { rewrite <- Hid. rewrite <- (app_nil_r id) at 2. apply bfrom_app. }
      rewrite E1, E2, Hid. reflexivity.
    + set_solver.
    + rewrite Hid. unfold header_fmt_size, MAX_OBJECT_SIZE. lia.
    + intros _. lia.
  - intros _. rewrite COMMIT_raw.
    rewrite next_object_raw_frame.
    + reflexivity.
    + set_solver.
    + unfold header_fmt_size, MAX_OBJECT_SIZE. rewrite blen_nil. lia.
    + intros K. discriminate K.
Qed.

Lemma item_of_size (offset : Z) (read_data : bool) (e : entry) :
  well_formed e -> it_size (item_of offset read_data e) = blen (frame_of e).
Proof.
  destruct e as [id value|id|]; cbn [well_formed frame_of item_of it_size].
  - intros [Hid _]. rewrite blen_put_frame, Hid.
    unfold put_header_fmt_size. lia.
  - intros Hid. now rewrite blen_delete_frame, Hid.
  - reflexivity.
Qed.

Lemma iter_from_log (fuel : nat) (prefix : bytes) (es : list entry)
    (read_data : bool) :
  Forall well_formed es -> (length es < fuel)%nat ->
  iter_from fuel (prefix ++ log es) (blen prefix) read_data
  = (items_of (blen prefix) read_data es, None).
Proof.
  revert fuel prefix. induction es as [|e es IH]; intros fuel prefix Hw Hf.
  - destruct fuel as [|fuel]; [reflexivity|]. cbn [iter_from items_of].
    rewrite next_object_stop; [reflexivity|].
    unfold log. cbn. rewrite app_nil_r. lia.
  - apply Forall_cons in Hw as [He Hw].
    destruct fuel as [|fuel]; [cbn in Hf; lia|].
    cbn [iter_from items_of]. unfold log. cbn [map concat].
    rewrite next_object_entry by done.
    rewrite item_of_size by done.
    rewrite <- blen_app, app_assoc.
    fold (log es). rewrite IH by (cbn in Hf; first [done|lia]).
    now rewrite blen_app.
Qed.

Lemma log_length (es : list entry) :
  Forall well_formed es -> (length es <= length (log es))%nat.
Proof.
  induction 1 as [|e es He Hw IH]; [done|].
  unfold log. cbn [map concat length]. rewrite length_app. fold (log es).
  enough (0 < length (frame_of e))%nat by lia.
  assert (Hs : 0 < blen (frame_of e)).
  { destruct e as [id value|id|]; cbn [frame_of].
    - rewrite blen_put_frame.
      pose proof (blen_nonneg id). pose proof (blen_nonneg value). lia.
    - rewrite blen_delete_frame. pose proof (blen_nonneg id). lia.
    - reflexivity. }
  unfold blen in Hs. lia.
Qed.

Lemma magic_ok_app (rest : bytes) : magic_ok (MAGIC ++ rest) = true.
Proof.
  unfold magic_ok, bytes_eqb. apply bool_decide_eq_true.
  replace MAGIC_LEN with (blen MAGIC) by reflexivity.
  rewrite <- (app_nil_l (MAGIC ++ rest)).
  change 0 with (blen (@nil byte)) at 1.
  apply (read_at_app [] MAGIC rest).
Qed.

Lemma iter_objects_entries (es : list entry) (read_data : bool) :
  Forall well_formed es ->
  iter_objects (MAGIC ++ log es) read_data
  = (items_of MAGIC_LEN read_data es, None).
Proof.
  intros Hw. unfold iter_objects. rewrite magic_ok_app.
  apply iter_from_log; [done|].
  pose proof (log_length es Hw). rewrite length_app. lia.
Qed.

(** [iter_objects] gives back what was written: on a segment file that
    holds the magic and then the frames [write_put], [write_delete] and
    [write_commit] produce for a list of entries (ids of 32 bytes, PUT
    frames within [MAX_OBJECT_SIZE]), it yields one item per entry, in
    order, each with the tag, key, offset and size of its frame (and the
    value of a PUT when data is read), and ends without an error. *)
Theorem iter_objects_log (es : list entry) (read_data : bool) :
  Forall well_formed es ->
  iter_objects (MAGIC ++ log es) read_data
  = (items_of MAGIC_LEN read_data es, None).
Proof.
  intros Hw. unfold iter_objects. rewrite magic_ok_app.
  apply iter_from_log; [done|].
  pose proof (log_length es Hw). rewrite length_app. lia.
Qed.

Definition sample_log : list entry :=
  [Put (key_of x01) [x61]; Delete (key_of x01); Commit].

Lemma iter_objects_log_witness :
  Forall well_formed sample_log /\
  iter_objects (MAGIC ++ log sample_log) true
  = ([mkItem TAG_PUT (Some (key_of x01)) 8 42 (Some [x61]);
      mkItem TAG_DELETE (Some (key_of x01)) 50 41 (Some []);
      mkItem TAG_COMMIT None 91 9 (Some [])], None).
Proof.
  assert (H : Forall well_formed sample_log).
  { repeat constructor; vm_compute; discriminate. }
  split; [exact H|]. exact (iter_objects_log sample_log true H).
Defined.

(** ** Committed and uncommitted logs *)

Lemma log_app (es es' : list entry) : log (es ++ es') = log es ++ log es'.
Proof. unfold log. now rewrite map_app, concat_app. Qed.

Lemma items_of_app (offset : Z) (read_data : bool) (es es' : list entry) :
  items_of offset read_data (es ++ es')
  = items_of offset read_data es
    ++ items_of (offset + blen (log es)) read_data es'.
Proof.
  revert offset. induction es as [|e es IH]; intros offset; cbn [items_of app].
  - unfold log. cbn. now rewrite blen_nil, Z.add_0_r.
  - rewrite IH. unfold log. cbn [map concat]. rewrite blen_app.
    now rewrite Z.add_assoc.
Qed.

Lemma commit_scan_app (items items' : list item) (ending : option exn)
    (seen : bool) :
  (forall it, it ∈ items -> it_tag it <> TAG_COMMIT) ->
  commit_scan (items ++ items') ending seen
  = if seen && negb (bool_decide (items = [])) then false
    else commit_scan items' ending seen.
Proof.
  induction items as [|a items IH]; intros Hn.
  - cbn. now rewrite andb_false_r.
  - cbn [app commit_scan].
    assert (Ha : (it_tag a =? TAG_COMMIT) = false)
      by (apply Z.eqb_neq, Hn; left).
    rewrite Ha. destruct seen; [reflexivity|].
    rewrite IH by (intros it Hit; apply Hn; now right). reflexivity.
Qed.

Lemma item_of_tag (offset : Z) (read_data : bool) (e : entry) :
  it_tag (item_of offset read_data e) = TAG_COMMIT <-> e = Commit.
Proof. destruct e; cbn; split; intros H; try done. Qed.

Lemma items_of_elem (offset : Z) (read_data : bool) (es : list entry)
    (it : item) :
  it ∈ items_of offset read_data es ->
  exists o e, e ∈ es /\ it = item_of o read_data e.
Proof.
  revert offset. induction es as [|e es IH]; intros offset; cbn [items_of].
  - intros H. now apply elem_of_nil in H.
  - intros H. apply elem_of_cons in H as [->|H].
    + exists offset, e. split; [left|done].
    + destruct (IH _ H) as (o & e' & He' & ->). exists o, e'.
      split; [now right|done].
Qed.

Lemma commit_scan_last (offset : Z) (read_data : bool) (es : list entry)
    (e : entry) (seen : bool) :
  e <> Commit ->
  commit_scan (items_of offset read_data (es ++ [e])) None seen = false.
Proof.
  intros He. revert offset seen.
  induction es as [|a es IH]; intros offset seen; cbn [app items_of commit_scan].
  - assert (E : (it_tag (item_of offset read_data e) =? TAG_COMMIT) = false).
    { apply Z.eqb_neq. intros H. now apply item_of_tag in H. }
    rewrite E. now destruct seen.
  - destruct (_ =? _); [apply IH|]. destruct seen; [reflexivity|apply IH].
Qed.

Lemma tail_of_app (a b : bytes) :
  bfrom (blen (a ++ b) - blen b) (a ++ b) = b.
Proof.
  rewrite blen_app. replace (blen a + blen b - blen b) with (blen a) by lia.
  apply bfrom_app.
Qed.

(** What makes a segment committed, on the entries written to it (ids of
    32 bytes, PUT frames within [MAX_OBJECT_SIZE]): a segment whose last
    entry is a COMMIT, with no earlier COMMIT in front of a PUT or DELETE,
    is committed; one whose last entry is a PUT or a DELETE is not, whatever
    the bytes of its value; the segment without entries is not. *)
Theorem is_committed_log (es : list entry) :
  Forall well_formed es ->
  (Commit ∉ es ->
   is_committed_content (MAGIC ++ log (es ++ [Commit])) = true) /\
  (forall e, well_formed e -> e <> Commit ->
     is_committed_content (MAGIC ++ log (es ++ [e])) = false) /\
  is_committed_content MAGIC = false.
Proof.
  intros Hw. split; [|split; [|reflexivity]].
  - intros Hn. unfold is_committed_content.
    assert (Hw' : Forall well_formed (es ++ [Commit]))
      by (apply Forall_app; split; [done|now repeat constructor]).
    rewrite iter_objects_entries by done.
    rewrite log_app. change (log [Commit]) with (COMMIT ++ []).
    rewrite app_nil_r, app_assoc.
    change header_fmt_size with (blen COMMIT) at 2.
    rewrite tail_of_app.
    assert (Hlen : (blen ((MAGIC ++ log es) ++ COMMIT) <? header_fmt_size)
                   = false).
    { apply Z.ltb_ge. rewrite blen_app.
      pose proof (blen_nonneg (MAGIC ++ log es)).
      change (blen COMMIT) with header_fmt_size. lia. }
    rewrite Hlen. unfold bytes_eqb.
    rewrite bool_decide_eq_true_2 by done. cbn [negb].
    rewrite items_of_app, commit_scan_app.
    + cbn [andb]. cbn [items_of commit_scan item_of it_tag].
      reflexivity.
    + intros it Hit Htag.
      apply items_of_elem in Hit as (o & e & He & ->).
      apply item_of_tag in Htag. now subst.
  - intros e He Hne. unfold is_committed_content.
    destruct (_ <? _); [reflexivity|]. destruct (negb _); [reflexivity|].
    assert (Hw' : Forall well_formed (es ++ [e]))
      by (apply Forall_app; split; [done|now repeat constructor]).
    rewrite iter_objects_entries by done.
    now apply commit_scan_last.
Qed.

Lemma is_committed_log_witness :
  let es := [Put (key_of x01) [x61]] in
  Forall well_formed es /\
  is_committed_content (MAGIC ++ log (es ++ [Commit])) = true /\
  is_committed_content (MAGIC ++ log (es ++ [Put (key_of x02) COMMIT]))
  = false.
Proof.
  intros es.
  assert (H : Forall well_formed es).
  { repeat constructor; vm_compute; discriminate. }
  split; [exact H|].
  destruct (is_committed_log es H) as (Hyes & Hno & _).
  split.
  - apply Hyes. intros Hin. apply list_elem_of_singleton in Hin.
    discriminate Hin.
  - apply Hno; [|discriminate].
    split; [reflexivity|]. vm_compute. discriminate.
Defined.

(** ** cleanup *)

Lemma strongly_sorted_snoc (l : list Z) (x : Z) :
  StronglySorted Z.le (l ++ [x]) ->
  StronglySorted Z.le l /\ forall y, y ∈ l -> y <= x.
Proof.
  induction l as [|a l IH]; cbn [app]; intros H.
  - split; [constructor|]. intros y Hy. now apply elem_of_nil in Hy.
  - apply StronglySorted_inv in H as [Hs Hall].
    destruct (IH Hs) as [Hl Hx]. rewrite Forall_forall in Hall. split.
    + constructor; [done|]. apply Forall_forall. intros y Hy.
      apply Hall. apply elem_of_app. now left.
    + intros y Hy. apply elem_of_cons in Hy as [->|Hy]; [|now apply Hx].
      apply Hall. apply elem_of_app. right. now left.
Qed.

Lemma cleanup_loop_keeps (l : list Z) (t : Z) (files : gmap Z bytes) :
  (forall y, y ∈ l -> y <= t) -> cleanup_loop (rev l) t files = files.
Proof.
  intros H. destruct l as [|a l _] using rev_ind; [reflexivity|].
  rewrite rev_app_distr. cbn [rev app cleanup_loop].
  destruct (Z.ltb_spec t a) as [Hlt|]; [|reflexivity].
  specialize (H a). rewrite elem_of_app in H.
  assert (a <= t) by (apply H; right; left). lia.
Qed.

Lemma cleanup_loop_lookup (l : list Z) (t s : Z) (files : gmap Z bytes) :
  StronglySorted Z.le l ->
  cleanup_loop (rev l) t files !! s
  = if bool_decide (t < s /\ s ∈ l) then None else files !! s.
Proof.
  revert files. induction l as [|a l IH] using rev_ind; intros files Hs.
  - cbn. rewrite bool_decide_eq_false_2; [done|].
    intros [_ H]. now apply elem_of_nil in H.
  - apply strongly_sorted_snoc in Hs as [Hs Hmax].
    rewrite rev_app_distr. cbn [rev app cleanup_loop].
    destruct (Z.ltb_spec t a) as [Hlt|Hge].
    + rewrite IH by done.
      destruct (decide (s = a)) as [->|Hne].
      * rewrite lookup_delete_eq.
        rewrite (bool_decide_eq_true_2 (t < a /\ a ∈ l ++ [a]));
          [now destruct (bool_decide _)|].
        split; [done|]. apply elem_of_app. right. left.
      * rewrite lookup_delete_ne by done.
        apply (f_equal (fun b : bool => if b then None else files !! s)).
        apply bool_decide_ext. rewrite elem_of_app, list_elem_of_singleton.
        tauto.
    + rewrite bool_decide_eq_false_2; [done|].
      intros [Hlt Hin]. apply elem_of_app in Hin as [Hin|Hin].
      * specialize (Hmax s Hin). lia.
      * apply list_elem_of_singleton in Hin. lia.
Qed.

Lemma cleanup_lookup (d : Disk) (t s : Z) :
  cleanup_loop (segment_iterator d true) t (data d) !! s
  = if bool_decide (t < s) then None else data d !! s.
Proof.
  unfold segment_iterator.
  rewrite cleanup_loop_lookup by apply (StronglySorted_merge_sort Z.le).
  destruct (data d !! s) as [c|] eqn:E.
  - apply (f_equal (fun b : bool => if b then None else Some c)).
    apply bool_decide_ext. rewrite merge_sort_Permutation, segment_listed.
    rewrite E. split; [tauto|]. intros H. split; [done|eauto].
  - now repeat case_bool_decide.
Qed.

Lemma head_elem {A} (l : list A) (x : A) : head l = Some x -> x ∈ l.
Proof. destruct l as [|a l]; [discriminate|]. intros [= ->]. left. Qed.

(** [cleanup(t)] removes exactly the segment files numbered above [t]:
    afterwards a segment file is there, with the content it had, if and
    only if its number is at most [t]; [self.segment] is [t + 1]; the
    write handle and the offset are left as they were, and so is the rest
    of the repository; what [get_latest_segment] then returns is at most
    [t]. *)
Theorem cleanup_removes_above (r : Repository) (t : Z) :
  exists r',
    cleanup t r = (Ok tt, r') /\
    (forall s, data (disk r') !! s
               = if bool_decide (t < s) then None else data (disk r) !! s) /\
    io r' = mkIO (t + 1) (io_offset (io r)) (io_limit (io r))
                 (io_write_fd (io r)) /\
    top (disk r') = top (disk r) /\ index r' = index r /\
    segments r' = segments r /\ compact r' = compact r /\
    _active_txn r' = _active_txn r /\
    (forall s, get_latest_segment (disk r') = Some s -> s <= t).
Proof.
  eexists. split; [reflexivity|].
  pose proof (cleanup_lookup (disk r) t) as Hl.
  destruct r as [[seg off lim fd] [dat bef tp jr] idx sgs cmp act ao mx er].
  unfold_state. cbn in Hl |- *.
  split; [exact Hl|]. do 6 (split; [reflexivity|]).
  intros s Hs. unfold get_latest_segment, segment_iterator in Hs.
  cbn in Hs.
  apply head_elem in Hs as Hin.
  apply list_elem_of_In, in_rev, list_elem_of_In in Hin.
  rewrite merge_sort_Permutation in Hin.
  apply list_elem_of_fmap in Hin as ((n & f) & -> & Hin).
  apply elem_of_map_to_list in Hin. rewrite Hl in Hin.
  case_bool_decide; [discriminate|]. cbn. lia.
Qed.

(** ** Starting a transaction from the last snapshot *)

(** The state [prepare_txn] leaves when [index.t] and a version 2
    [hints.t] are readable and no index is in memory. *)
Definition prepared (t : Z) (idx : NSIndex) (segs comp : gmap Z Z)
    (do_cleanup : bool) (r : Repository) : Repository :=
  let r1 := with_index (Some idx) (with_active_txn true r) in
  let r2 := if do_cleanup then (cleanup t r1).2 else r1 in
  with_compact comp (with_segments segs r2).

Lemma prepare_txn_eq (fuel : nat) (transaction_id : option Z)
    (do_cleanup : bool) :
  prepare_txn (S fuel) transaction_id do_cleanup
  = (modify (with_active_txn true) ;;
     let* r := self in
     (if index_falsy r || bool_decide (transaction_id = None) then
        let* idx :=
          try_except (open_index fuel transaction_id false) is_RuntimeError
            (fun _ => check_transaction fuel ;;
                      open_index fuel transaction_id false) in
        modify (with_index (Some idx))
      else ret tt) ;;
     match transaction_id with
     | None => load_hints ∅ ∅
     | Some t =>
         (if do_cleanup then cleanup t else ret tt) ;;
         let* r := self in
         match top (disk r) !! hints_name t with
         | Some (HintsFile hints) =>
             if h_version hints =? 1 then
               load_hints (h_segments hints) ∅ ;;
               for_each
                 (merge_sort Z.le (map fst (map_to_list (h_compact hints))))
                 _rebuild_sparse
             else if negb (h_version hints =? 2) then raise ValueError
             else load_hints (h_segments hints) (h_compact hints)
         | found =>
             (if bool_decide (found = None) then ret tt
              else unlink (hints_name t)) ;;
             unlink (index_name t) ;;
             check_transaction fuel ;;
             prepare_txn fuel transaction_id true
         end
     end).
Proof. reflexivity. Qed.

Lemma prepare_txn_run (fuel : nat) (r : Repository) (t : Z) (idx : NSIndex)
    (segs comp : gmap Z Z) (do_cleanup : bool) :
  index_falsy r = true ->
  top (disk r) !! index_name t = Some (IndexFile idx) ->
  top (disk r) !! hints_name t = Some (HintsFile (mkHints 2 segs comp)) ->
  prepare_txn (S (S fuel)) (Some t) do_cleanup r
  = (Ok tt, prepared t idx segs comp do_cleanup r).
Proof.
  intros Hf Hi Hh. rewrite prepare_txn_eq.
  unfold bind at 1, modify at 1. unfold bind at 1, self at 1.
  assert (E : index_falsy (with_active_txn true r) = true) by now destruct r.
  rewrite E. cbn [orb]. unfold bind at 1. unfold bind at 1.
  unfold try_except.
  rewrite (open_index_snapshot fuel _ t idx false) by now destruct r.
  unfold modify at 1.
  set (r1 := with_index (Some idx) (with_active_txn true r)).
  set (r2 := if do_cleanup then (cleanup t r1).2 else r1).
  assert (Ec : (if do_cleanup then cleanup t else ret tt) r1 = (Ok tt, r2))
    by (subst r2; now destruct do_cleanup).
  assert (Et : top (disk r2) = top (disk r)).
  { subst r2 r1. destruct do_cleanup; now destruct r as [? [? ? ? ?] ?]. }
  unfold bind at 1. rewrite Ec. unfold bind at 1, self at 1.
  rewrite Et, Hh. reflexivity.
Qed.





(** ** Replay after a crash between the COMMIT entry and the snapshot *)

Lemma check_transaction_eq (fuel : nat) :
  check_transaction (S fuel)
  = (let* r := self in
     let index_transaction_id := get_index_transaction_id (disk r) in
     let segments_transaction_id := get_segments_transaction_id (disk r) in
     if bool_decide (index_transaction_id <> None)
        && bool_decide (segments_transaction_id = None)
     then raise CheckNeeded
     else if negb (bool_decide
                     (index_transaction_id = segments_transaction_id))
     then
       let* replay_from :=
         match index_transaction_id, segments_transaction_id with
         | Some i, Some t =>
             if t <? i then ret None else ret index_transaction_id
         | Some i, None => raise TypeError
         | None, _ => ret index_transaction_id
         end in
       replay_segments fuel replay_from segments_transaction_id
     else ret tt).
Proof. reflexivity. Qed.

Lemma replay_segments_eq (fuel : nat)
    (index_transaction_id segments_transaction_id : option Z) :
  replay_segments (S fuel) index_transaction_id segments_transaction_id
  = (prepare_txn fuel index_transaction_id false ;;
     try_finally
       (let* r := self in
        replay_loop index_transaction_id segments_transaction_id
                    (segment_iterator (disk r) false) ;;
        write_index)
       rollback).
Proof. reflexivity. Qed.

Lemma get_transaction_id_eq (fuel : nat) :
  get_transaction_id (S fuel)
  = (check_transaction fuel ;;
     let* r := self in
     ret (get_index_transaction_id (disk r))).
Proof. reflexivity. Qed.

(** [check_transaction] when the last committed segment is ahead of the
    newest index: replay from the index on. *)
Lemma check_transaction_behind (fuel : nat) (r : Repository) (i t : Z) :
  get_index_transaction_id (disk r) = Some i ->
  get_segments_transaction_id (disk r) = Some t ->
  i < t ->
  check_transaction (S fuel) r = replay_segments fuel (Some i) (Some t) r.
Proof.
  intros Hi Ht Hlt. rewrite check_transaction_eq.
  unfold bind at 1, self at 1. cbv zeta. rewrite Hi, Ht.
  rewrite (bool_decide_eq_false_2 (Some t = None)) by done.
  rewrite andb_false_r.
  rewrite (bool_decide_eq_false_2 (Some i = Some t)) by (intros [= ->]; lia).
  cbn [negb]. destruct (Z.ltb_spec t i); [lia|].
  unfold bind at 1, ret at 1. reflexivity.
Qed.

Lemma replay_loop_skip (i t : Z) (low rest : list Z) :
  (forall x, x ∈ low -> x <= i) ->
  replay_loop (Some i) (Some t) (low ++ rest)
  = replay_loop (Some i) (Some t) rest.
Proof.
  induction low as [|a low IH]; intros H; [reflexivity|].
  cbn [app replay_loop].
  destruct (Z.leb_spec a i) as [_|Hgt].
  - apply IH. intros x Hx. apply H. now right.
  - specialize (H a ltac:(left)). lia.
Qed.

Lemma filter_none (P : Z -> Prop) `{!forall x, Decision (P x)}
    (l : list Z) :
  (forall x, x ∈ l -> ~ P x) -> filter P l = [].
Proof.
  induction l as [|a l IH]; intros Hn; [reflexivity|].
  rewrite filter_cons_False by (apply Hn; left).
  apply IH. intros x Hx. apply Hn. now right.
Qed.

Lemma sorted_split (t : Z) (l : list Z) :
  StronglySorted Z.le l ->
  l = filter (fun x => x <= t) l ++ filter (fun x => t < x) l.
Proof.
  induction 1 as [|a l Hs IH Hall]; [reflexivity|].
  rewrite !filter_cons. destruct (decide (a <= t)) as [Ha|Ha].
  - rewrite decide_False by lia. cbn [app]. now f_equal.
  - rewrite decide_True by lia.
    assert (E : filter (fun x => x <= t) l = []).
    { apply filter_none. intros x Hx. rewrite Forall_forall in Hall.
      specialize (Hall x Hx). lia. }
    rewrite E in IH |- *. cbn [app] in IH |- *. now f_equal.
Qed.

Lemma sorted_pair (l : list Z) (a b : Z) :
  StronglySorted Z.le l -> NoDup l -> a < b ->
  (forall x, x ∈ l <-> x = a \/ x = b) ->
  l = [a; b].
Proof.
  intros Hs Hnd Hab Hel.
  destruct l as [|x l].
  { exfalso. apply (elem_of_nil a), Hel. now left. }
  apply StronglySorted_inv in Hs as [Hs Hx]. rewrite Forall_forall in Hx.
  apply NoDup_cons in Hnd as [Hxl Hnd].
  assert (Exa : x = a).
  { destruct (proj1 (Hel x) ltac:(left)) as [-> | ->]; [done|].
    assert (Ha : a ∈ b :: l) by (apply Hel; now left).
    apply elem_of_cons in Ha as [->|Ha]; [lia|].
    specialize (Hx a Ha). lia. }
  subst x.
  assert (Hb : b ∈ l).
  { assert (Hb : b ∈ a :: l) by (apply Hel; now right).
    apply elem_of_cons in Hb as [->|Hb]; [lia|done]. }
  destruct l as [|y l]; [now apply elem_of_nil in Hb|].
  apply NoDup_cons in Hnd as [Hyl Hnd].
  assert (Eyb : y = b).
  { destruct (proj1 (Hel y) ltac:(right; left)) as [-> | ->]; [|done].
    exfalso. apply Hxl. left. }
  subst y. destruct l as [|z l]; [reflexivity|]. exfalso.
  destruct (proj1 (Hel z) ltac:(right; right; left)) as [-> | ->].
  - apply Hxl. right. left.
  - apply Hyl. left.
Qed.

(** What the bookkeeping of a replay leaves alone: the files, the cursor
    and the index; a segment that has a live count keeps one. *)
Definition counted (r r' : Repository) : Prop :=
  disk r' = disk r /\ io r' = io r /\ append_only r' = append_only r /\
  _active_txn r' = _active_txn r /\ index r' = index r /\
  forall k, is_Some (segments r !! k) -> is_Some (segments r' !! k).

Lemma counted_refl (r : Repository) : counted r r.
Proof. now repeat split. Qed.

Lemma counted_trans (r1 r2 r3 : Repository) :
  counted r1 r2 -> counted r2 r3 -> counted r1 r3.
Proof.
  intros (A1 & A2 & A3 & A4 & A5 & A6) (B1 & B2 & B3 & B4 & B5 & B6).
  repeat split; try congruence. intros k Hk. now apply B6, A6.
Qed.

Lemma segments_add_counted (s delta : Z) (r : Repository) :
  is_Some (segments r !! s) ->
  exists r', segments_add s delta r = (Ok tt, r') /\ counted r r'.
Proof.
  intros [n Hn]. rewrite (segments_add_run r s n delta Hn).
  eexists. split; [reflexivity|]. destruct r. repeat split.
  intros k Hk. cbn in *. destruct (decide (k = s)) as [->|Hne].
  - rewrite lookup_insert_eq. eauto.
  - now rewrite lookup_insert_ne.
Qed.

Lemma segments_add_caught (s delta : Z) (r : Repository) :
  exists r',
    try_except (segments_add s delta) is_KeyError (fun _ => ret tt) r
    = (Ok tt, r') /\ counted r r'.
Proof.
  unfold try_except. destruct (segments r !! s) as [n|] eqn:E.
  - destruct (segments_add_counted s delta r) as (r' & -> & Hc); eauto.
  - unfold segments_add, segments_get, bind. rewrite E. cbn.
    eexists. split; [reflexivity|apply counted_refl].
Qed.

Lemma compact_add_counted (s delta : Z) (r : Repository) :
  counted r (with_compact (bump s delta (compact r)) r).
Proof. destruct r. now repeat split. Qed.

(** One PUT entry replayed into the index. *)
Lemma update_entry_put (segment offset : Z) (id value : bytes)
    (r : Repository) (idx : NSIndex) (error_found : bool) :
  index r = Some idx -> is_Some (segments r !! segment) ->
  exists r',
    update_entry segment false error_found
                 (item_of offset true (Put id value)) r
    = (Ok error_found, r') /\
    disk r' = disk r /\ io r' = io r /\ append_only r' = append_only r /\
    _active_txn r' = _active_txn r /\
    index r' = Some (<[id := (segment, offset)]> idx) /\
    is_Some (segments r' !! segment).
Proof.
  intros Hi Hs. unfold update_entry. cbn [item_of it_tag it_key it_offset it_size].
  change (TAG_PUT =? TAG_PUT) with true. cbv iota.
  unfold bind at 1, self at 1. rewrite Hi.
  assert (E : exists r1,
            match idx !! id with
            | Some (s, _) =>
                compact_add s (blen value + put_header_fmt_size) ;;
                try_except (segments_add s (-1)) is_KeyError
                           (fun _ => ret tt)
            | None => ret tt
            end r = (Ok tt, r1) /\ counted r r1).
  { destruct (idx !! id) as [[s o]|].
    - unfold bind. rewrite compact_add_run.
      destruct (segments_add_caught s (-1)
                  (with_compact
                     (bump s (blen value + put_header_fmt_size) (compact r))
                     r))
        as (r1 & -> & Hc).
      exists r1. split; [reflexivity|].
      eapply counted_trans; [apply compact_add_counted|exact Hc].
    - exists r. split; [reflexivity|apply counted_refl]. }
  destruct E as (r1 & E & (C1 & C2 & C3 & C4 & C5 & C6)).
  unfold bind at 1. rewrite E.
  unfold bind at 1, index_set at 1, bind at 1, self at 1.
  rewrite C5, Hi. unfold modify at 1.
  set (r2 := with_index (Some (<[id := (segment, offset)]> idx)) r1).
  assert (Hs2 : is_Some (segments r2 !! segment))
    by (subst r2; destruct r1; cbn; now apply C6).
  destruct (segments_add_counted segment 1 r2 Hs2)
    as (r3 & E3 & (D1 & D2 & D3 & D4 & D5 & D6)).
  unfold bind. rewrite E3. exists r3. split; [reflexivity|].
  assert (F : disk r2 = disk r1 /\ io r2 = io r1 /\
              append_only r2 = append_only r1 /\
              _active_txn r2 = _active_txn r1 /\
              index r2 = Some (<[id := (segment, offset)]> idx))
    by (subst r2; now destruct r1).
  destruct F as (F1 & F2 & F3 & F4 & F5).
  repeat split; try congruence. now apply D6.
Qed.

(** The end of [_update_index] (lines 454-455). *)
Lemma update_index_tail (segment : Z) (r : Repository) (content : bytes)
    (error_found : bool) :
  is_Some (segments r !! segment) ->
  data (disk r) !! segment = Some content ->
  exists r',
    (let* n := segments_get segment in
     (if n =? 0 then
        let* size := segment_size segment in compact_add segment size
      else ret tt) ;;
     ret error_found) r = (Ok error_found, r') /\
    counted r r'.
Proof.
  intros [n Hn] Hd. unfold bind at 1, segments_get at 1. rewrite Hn.
  destruct (n =? 0).
  - unfold bind, segment_size. rewrite Hd. rewrite compact_add_run.
    eexists. split; [reflexivity|apply compact_add_counted].
  - eexists. split; [reflexivity|apply counted_refl].
Qed.

Lemma segments_set_fields (segment n : Z) (r : Repository) :
  disk (with_segments (<[segment := n]> (segments r)) r) = disk r /\
  io (with_segments (<[segment := n]> (segments r)) r) = io r /\
  append_only (with_segments (<[segment := n]> (segments r)) r)
  = append_only r /\
  _active_txn (with_segments (<[segment := n]> (segments r)) r)
  = _active_txn r /\
  index (with_segments (<[segment := n]> (segments r)) r) = index r /\
  is_Some (segments (with_segments (<[segment := n]> (segments r)) r)
           !! segment).
Proof.
  destruct r. repeat split. cbn. rewrite lookup_insert_eq. eauto.
Qed.

(** [_update_index] on a segment that holds one PUT entry. *)
Lemma update_index_put (segment offset : Z) (id value : bytes)
    (r : Repository) (idx : NSIndex) (content : bytes) :
  index r = Some idx -> data (disk r) !! segment = Some content ->
  exists r',
    _update_index segment ([item_of offset true (Put id value)], None)
                  false false r = (Ok false, r') /\
    disk r' = disk r /\ io r' = io r /\ append_only r' = append_only r /\
    _active_txn r' = _active_txn r /\
    index r' = Some (<[id := (segment, offset)]> idx).
Proof.
  intros Hi Hd. unfold _update_index, segments_set.
  unfold bind at 1, modify at 1.
  destruct (segments_set_fields segment 0 r) as (A1 & A2 & A3 & A4 & A5 & A6).
  set (r0 := with_segments _ r) in *.
  cbn [fst snd update_entries].
  destruct (update_entry_put segment offset id value r0 idx false)
    as (r1 & E1 & B1 & B2 & B3 & B4 & B5 & B6); [congruence|done|].
  unfold bind at 1. unfold bind at 1. rewrite E1.
  unfold ret at 1. unfold bind at 1, ret at 1.
  destruct (update_index_tail segment r1 content false)
    as (r2 & E2 & C1 & C2 & C3 & C4 & C5 & _); [done|congruence|].
  rewrite E2. exists r2. split; [reflexivity|].
  repeat split; congruence.
Qed.

(** [_update_index] on a segment that holds one COMMIT entry. *)
Lemma update_index_commit (segment offset : Z) (r : Repository)
    (content : bytes) :
  data (disk r) !! segment = Some content ->
  exists r',
    _update_index segment ([item_of offset true Commit], None)
                  false false r = (Ok false, r') /\
    disk r' = disk r /\ io r' = io r /\ append_only r' = append_only r /\
    _active_txn r' = _active_txn r /\ index r' = index r.
Proof.
  intros Hd. unfold _update_index, segments_set.
  unfold bind at 1, modify at 1.
  destruct (segments_set_fields segment 0 r) as (A1 & A2 & A3 & A4 & A5 & A6).
  set (r0 := with_segments _ r) in *.
  cbn [fst snd update_entries]. unfold update_entry.
  cbn [item_of it_tag].
  change (TAG_COMMIT =? TAG_PUT) with false.
  change (TAG_COMMIT =? TAG_DELETE) with false.
  change (TAG_COMMIT =? TAG_COMMIT) with true. cbv iota.
  unfold bind at 1. unfold bind at 1. unfold ret at 1. unfold ret at 1.
  unfold bind at 1, ret at 1.
  destruct (update_index_tail segment r0 content false)
    as (r2 & E2 & C1 & C2 & C3 & C4 & C5 & _); [done|congruence|].
  rewrite E2. exists r2. split; [reflexivity|].
  repeat split; congruence.
Qed.

Lemma segment_iterator_tail (d : Disk) (t : Z) :
  is_Some (data d !! (t + 1)) -> is_Some (data d !! (t + 2)) ->
  (forall s, t + 2 < s -> data d !! s = None) ->
  exists low,
    segment_iterator d false = low ++ [t + 1; t + 2] /\
    forall x, x ∈ low -> x <= t.
Proof.
  intros H1 H2 Hn. unfold segment_iterator.
  set (l := merge_sort Z.le (map fst (map_to_list (data d)))).
  assert (Hs : StronglySorted Z.le l)
    by apply (StronglySorted_merge_sort Z.le).
  assert (Hel : forall x, x ∈ l <-> is_Some (data d !! x)).
  { intros x. unfold l. rewrite merge_sort_Permutation. apply segment_listed. }
  assert (Hnd : NoDup l).
  { unfold l. rewrite merge_sort_Permutation. apply NoDup_fst_map_to_list. }
  exists (filter (fun x => x <= t) l). split.
  - rewrite (sorted_split t l Hs) at 1. f_equal.
    apply sorted_pair; [now apply StronglySorted_filter
                       |now apply NoDup_filter|lia|].
    intros x. rewrite list_elem_of_filter, Hel. split.
    + intros [Hlt [c Hc]].
      destruct (Z.le_gt_cases x (t + 2)) as [Hle|Hgt]; [lia|].
      rewrite Hn in Hc by lia. discriminate.
    + intros [->| ->]; (split; [lia|done]).
  - intros x Hx. now apply list_elem_of_filter in Hx as [Hx _].
Qed.

Lemma iter_segment_run (segment : Z) (read_data : bool) (r : Repository)
    (content : bytes) :
  data (disk r) !! segment = Some content ->
  iter_segment segment read_data r = (Ok (iter_objects content read_data), r).
Proof. intros H. unfold iter_segment, bind, self. now rewrite H. Qed.

(** The replay of a segment with one PUT entry followed by the segment of
    the COMMIT entry. *)
Lemma replay_put_commit (t : Z) (id value : bytes) (r : Repository)
    (idx : NSIndex) :
  index r = Some idx ->
  data (disk r) !! (t + 1) = Some (MAGIC ++ put_frame id value) ->
  data (disk r) !! (t + 2) = Some (MAGIC ++ COMMIT) ->
  blen id = 32 -> blen value + put_header_fmt_size <= MAX_OBJECT_SIZE ->
  exists r',
    replay_loop (Some t) (Some (t + 2)) [t + 1; t + 2] r = (Ok tt, r') /\
    disk r' = disk r /\ io r' = io r /\ append_only r' = append_only r /\
    _active_txn r' = _active_txn r /\
    index r' = Some (<[id := (t + 1, MAGIC_LEN)]> idx).
Proof.
  intros Hi H1 H2 Hid Hsz. cbn [replay_loop].
  destruct (Z.leb_spec (t + 1) t); [lia|].
  destruct (Z.ltb_spec (t + 2) (t + 1)); [lia|].
  destruct (Z.leb_spec (t + 2) t); [lia|].
  destruct (Z.ltb_spec (t + 2) (t + 2)); [lia|].
  unfold bind at 1. rewrite (iter_segment_run _ _ _ _ H1).
  assert (I1 : iter_objects (MAGIC ++ put_frame id value) true
               = ([item_of MAGIC_LEN true (Put id value)], None)).
  { transitivity (iter_objects (MAGIC ++ log [Put id value]) true).
    - unfold log. cbn [map concat frame_of]. now rewrite app_nil_r.
    - now rewrite iter_objects_entries by (repeat constructor; done). }
  assert (I2 : iter_objects (MAGIC ++ COMMIT) true
               = ([item_of MAGIC_LEN true Commit], None)).
  { transitivity (iter_objects (MAGIC ++ log [Commit]) true).
    - unfold log. cbn [map concat frame_of]. now rewrite app_nil_r.
    - now rewrite iter_objects_entries by (repeat constructor; done). }
  rewrite I1.
  destruct (update_index_put (t + 1) MAGIC_LEN id value r idx
              (MAGIC ++ put_frame id value) Hi H1)
    as (r1 & E1 & A1 & A2 & A3 & A4 & A5).
  unfold bind at 1. rewrite E1.
  assert (H2' : data (disk r1) !! (t + 2) = Some (MAGIC ++ COMMIT))
    by now rewrite A1.
  unfold bind at 1. rewrite (iter_segment_run _ _ _ _ H2').
  rewrite I2.
  destruct (update_index_commit (t + 2) MAGIC_LEN r1 (MAGIC ++ COMMIT) H2')
    as (r2 & E2 & B1 & B2 & B3 & B4 & B5).
  unfold bind at 1. rewrite E2. exists r2. split; [reflexivity|].
  repeat split; congruence.
Qed.

Lemma prepared_replay_fields (t : Z) (idx : NSIndex) (segs comp : gmap Z Z)
    (r : Repository) :
  disk (prepared t idx segs comp false r) = disk r /\
  io (prepared t idx segs comp false r) = io r /\
  index (prepared t idx segs comp false r) = Some idx /\
  append_only (prepared t idx segs comp false r) = append_only r.
Proof. destruct r. repeat split. Qed.

Lemma last_commit_segment (d : Disk) (t : Z) :
  data d !! t = Some (MAGIC ++ COMMIT) ->
  (forall s, t < s -> data d !! s = None) ->
  get_segments_transaction_id d = Some t.
Proof.
  intros Hc Hn. apply segments_txid_iff. split.
  - unfold is_committed_segment. rewrite Hc. apply MAGIC_COMMIT_committed.
  - intros s Hs. unfold is_committed_segment in Hs.
    destruct (Z.le_gt_cases s t) as [|Hgt]; [done|].
    rewrite Hn in Hs by lia. discriminate.
Qed.

(** [replay_segments] from snapshot [t] over a segment [t + 1] with one
    PUT entry and the segment [t + 2] of the COMMIT entry. *)
Lemma replay_segments_put (fuel : nat) (r : Repository) (t : Z)
    (idx : NSIndex) (segs comp : gmap Z Z) (id value : bytes) :
  index_falsy r = true -> 0 <= t ->
  top (disk r) !! index_name t = Some (IndexFile idx) ->
  top (disk r) !! hints_name t = Some (HintsFile (mkHints 2 segs comp)) ->
  data (disk r) !! (t + 1) = Some (MAGIC ++ put_frame id value) ->
  data (disk r) !! (t + 2) = Some (MAGIC ++ COMMIT) ->
  (forall s, t + 2 < s -> data (disk r) !! s = None) ->
  blen id = 32 -> blen value + put_header_fmt_size <= MAX_OBJECT_SIZE ->
  exists r',
    replay_segments (S (S (S fuel))) (Some t) (Some (t + 2)) r = (Ok tt, r') /\
    data (disk r') = data (disk r) /\ io r' = io r /\
    top (disk r') !! index_name (t + 2)
    = Some (IndexFile (<[id := (t + 1, MAGIC_LEN)]> idx)) /\
    (forall name, is_stale (t + 2) name = true ->
                  top (disk r') !! name = None) /\
    get_index_transaction_id (disk r') = Some (t + 2) /\
    index r' = None /\ _active_txn r' = false.
Proof.
  intros Hf Ht Hi Hh H1 H2 Hn Hid Hsz.
  rewrite replay_segments_eq. unfold bind at 1.
  rewrite (prepare_txn_run fuel r t idx segs comp false) by done.
  destruct (prepared_replay_fields t idx segs comp r) as (Pd & Pio & Pi & Pa).
  set (p := prepared t idx segs comp false r) in *.
  unfold try_finally. unfold bind at 1, self at 1.
  destruct (segment_iterator_tail (disk p) t) as (low & -> & Hlow);
    [rewrite Pd, H1; eauto|rewrite Pd, H2; eauto
    |intros s Hs; rewrite Pd; now apply Hn|].
  rewrite replay_loop_skip by done.
  destruct (replay_put_commit t id value p idx)
    as (k & Ek & Kd & Kio & Ka & Kt & Ki);
    [done|now rewrite Pd|now rewrite Pd|done|done|].
  unfold bind at 1. rewrite Ek.
  assert (Hseg : get_segments_transaction_id (disk k) = Some (t + 2)).
  { apply last_commit_segment; rewrite Kd, Pd; [done|].
    intros s Hs. apply Hn. lia. }
  rewrite (write_index_run k (t + 2) _ Hseg Ki).
  unfold rollback, modify.
  set (idx' := <[id := (t + 1, MAGIC_LEN)]> idx).
  destruct (rolled_back_fields (snapshotted (t + 2) idx' k))
    as (Rd & Rio & Ri & Ra & _).
  destruct (snapshotted_rest (t + 2) idx' k) as (Sd & Sio & _).
  eexists. split; [reflexivity|].
  rewrite Rd, Rio, Ri, Ra, Sd, Sio, Kd, Kio, Pd, Pio.
  split; [done|]. split; [done|].
  split; [apply snapshotted_index|].
  split; [intros name Hst; now rewrite snapshotted_lookup, Hst|].
  split; [apply snapshotted_txid; lia|done].
Qed.

(** [get] once [check_transaction] has run. *)
Lemma get_checked_run (fuel : nat) (r r1 : Repository) (t : Z)
    (idx : NSIndex) (id : bytes) :
  index_falsy r = true ->
  check_transaction fuel r = (Ok tt, r1) ->
  get_index_transaction_id (disk r1) = Some t ->
  top (disk r1) !! index_name t = Some (IndexFile idx) ->
  get (S fuel) id r
  = match idx !! id with
    | None => (Raise ObjectNotFound, with_index (Some idx) r1)
    | Some (segment, offset) =>
        match read segment offset id true (with_index (Some idx) r1) with
        | (Ok (Some d, _), r') => (Ok d, r')
        | (Ok (None, _), r') => (Raise TypeError, r')
        | (Raise e, r') => (Raise e, r')
        | (Timeout, r') => (Timeout, r')
        end
    end.
Proof.
  intros Hf Hc Hx Hi. unfold get. unfold bind at 1, self at 1.
  rewrite Hf. unfold bind at 1. unfold bind at 1.
  rewrite get_transaction_id_eq. unfold bind at 1. rewrite Hc.
  unfold bind at 1, self at 1. unfold ret at 1. rewrite Hx.
  unfold bind at 1. rewrite (open_index_snapshot _ _ _ idx) by done.
  unfold modify at 1. unfold bind at 1, self at 1.
  assert (E : index (with_index (Some idx) r1) = Some idx) by now destruct r1.
  rewrite E.
  destruct (idx !! id) as [[segment offset]|]; [|reflexivity].
  unfold bind.
  destruct (read segment offset id true _) as [[[[d|] sz]| |] r'];
    reflexivity.
Qed.

Lemma index_name_stale (t t' : Z) :
  0 <= t -> 0 <= t' -> t <> t' -> is_stale t' (index_name t) = true.
Proof.
  intros Ht Ht' Hne. unfold is_stale.
  assert (S1 : startswith "index." (index_name t) = true).
  { unfold startswith, index_name. apply bool_decide_eq_true.
    rewrite chars_app. now apply prefix_app_r. }
  rewrite S1. cbn [orb andb]. apply negb_true_iff.
  destruct (endswith _ _) eqn:E; [|done]. exfalso. apply Hne.
  change (index_name t) with ("index" ++ "." ++ fmt_d t)%string in E.
  apply (endswith_dot_digits "index" (fmt_d t) t' t); [done| |done].
  now apply int_of_digits_fmt_d.
Qed.

Lemma hints_name_stale (t t' : Z) :
  0 <= t -> 0 <= t' -> t <> t' -> is_stale t' (hints_name t) = true.
Proof.
  intros Ht Ht' Hne. unfold is_stale.
  assert (S1 : startswith "hints." (hints_name t) = true).
  { unfold startswith, hints_name. apply bool_decide_eq_true.
    rewrite chars_app. now apply prefix_app_r. }
  rewrite S1, orb_true_r. cbn [andb]. apply negb_true_iff.
  destruct (endswith _ _) eqn:E; [|done]. exfalso. apply Hne.
  change (hints_name t) with ("hints" ++ "." ++ fmt_d t)%string in E.
  apply (endswith_dot_digits "hints" (fmt_d t) t' t); [done| |done].
  now apply int_of_digits_fmt_d.
Qed.

(** A crash after [write_commit] and before the snapshot is written loses
    nothing. On a directory whose newest snapshot is [t], with a segment
    [t + 1] that holds one PUT entry, the COMMIT entry in segment [t + 2]
    and no segment above, [get] on a repository object without an index in
    memory replays the two segments on top of [index.t], writes [index]
    and [hints] number [t + 2], removes those of [t], ends the replay
    transaction and returns the value of the PUT. The segment files are
    not changed. *)
Theorem replay_recovers_put (fuel : nat) (r : Repository) (t : Z)
    (idx : NSIndex) (segs comp : gmap Z Z) (id value : bytes) :
  index_falsy r = true -> 0 <= t ->
  get_index_transaction_id (disk r) = Some t ->
  top (disk r) !! index_name t = Some (IndexFile idx) ->
  top (disk r) !! hints_name t = Some (HintsFile (mkHints 2 segs comp)) ->
  data (disk r) !! (t + 1) = Some (MAGIC ++ put_frame id value) ->
  data (disk r) !! (t + 2) = Some (MAGIC ++ COMMIT) ->
  (forall s, t + 2 < s -> data (disk r) !! s = None) ->
  blen id = 32 -> blen value + put_header_fmt_size <= MAX_OBJECT_SIZE ->
  exists r',
    get (S (S (S (S (S fuel))))) id r = (Ok value, r') /\
    data (disk r') = data (disk r) /\
    get_index_transaction_id (disk r') = Some (t + 2) /\
    top (disk r') !! index_name (t + 2)
    = Some (IndexFile (<[id := (t + 1, MAGIC_LEN)]> idx)) /\
    top (disk r') !! index_name t = None /\
    top (disk r') !! hints_name t = None /\
    _active_txn r' = false.
Proof.
  intros Hf Ht Hx Hi Hh H1 H2 Hn Hid Hsz.
  assert (Hseg : get_segments_transaction_id (disk r) = Some (t + 2)).
  { apply last_commit_segment; [done|]. intros s Hs. apply Hn. lia. }
  destruct (replay_segments_put fuel r t idx segs comp id value)
    as (r1 & Er & Rd & Rio & Ri & Rst & Rx & Rn & Ra); try done.
  assert (Hc : check_transaction (S (S (S (S fuel)))) r = (Ok tt, r1)).
  { rewrite (check_transaction_behind _ r t (t + 2)) by (done || lia).
    exact Er. }
  set (idx' := <[id := (t + 1, MAGIC_LEN)]> idx) in *.
  rewrite (get_checked_run _ r r1 (t + 2) idx' id Hf Hc Rx Ri).
  unfold idx' at 1. rewrite lookup_insert_eq.
  assert (E : disk (with_index (Some idx') r1) = disk r1 /\
              _active_txn (with_index (Some idx') r1) = _active_txn r1)
    by now destruct r1.
  destruct E as [Ed Ea].
  rewrite (read_put_frame_wanted _ _ MAGIC id value [] id);
    [|rewrite Ed, Rd, app_nil_r; exact H1|done|done].
  rewrite bool_decide_eq_true_2 by done.
  eexists. split; [reflexivity|]. rewrite Ed, Ea.
  split; [done|]. split; [done|]. split; [done|].
  split; [|split; [|done]]; apply Rst.
  - apply index_name_stale; lia.
  - apply hints_name_stale; lia.
Qed.

(** The directory a crash leaves between the COMMIT entry of a second
    transaction and its snapshot, seen by a new repository object. *)
Definition crashed : Repository :=
  mkRepo (mkIO 0 0 100 None)
         (mkDisk {[ 0 := MAGIC ++ put_frame (key_of x01) [x61];
                    1 := MAGIC ++ COMMIT;
                    2 := MAGIC ++ put_frame (key_of x02) [x64];
                    3 := MAGIC ++ COMMIT ]}
                 ∅
                 {[ "index.1"%string := IndexFile {[ key_of x01 := (0, 8) ]};
                    "hints.1"%string := HintsFile (mkHints 2 {[ 0 := 1 ]} ∅) ]}
                 [])
         None ∅ ∅ false false 100 [].

Lemma replay_recovers_put_witness :
  let idx : NSIndex := {[ key_of x01 := (0, 8) ]} in
  index_falsy crashed = true /\ 0 <= 1 /\
  get_index_transaction_id (disk crashed) = Some 1 /\
  top (disk crashed) !! index_name 1 = Some (IndexFile idx) /\
  top (disk crashed) !! hints_name 1
  = Some (HintsFile (mkHints 2 {[ 0 := 1 ]} ∅)) /\
  data (disk crashed) !! (1 + 1)
  = Some (MAGIC ++ put_frame (key_of x02) [x64]) /\
  data (disk crashed) !! (1 + 2) = Some (MAGIC ++ COMMIT) /\
  (forall s, 1 + 2 < s -> data (disk crashed) !! s = None) /\
  blen (key_of x02) = 32 /\
  blen [x64] + put_header_fmt_size <= MAX_OBJECT_SIZE /\
  exists r',
    get 5 (key_of x02) crashed = (Ok [x64], r') /\
    get_index_transaction_id (disk r') = Some (1 + 2).
Proof.
  intros idx.
  assert (H1 : index_falsy crashed = true) by reflexivity.
  assert (H2 : 0 <= 1) by lia.
  assert (H3 : get_index_transaction_id (disk crashed) = Some 1)
    by (vm_compute; reflexivity).
  assert (H4 : top (disk crashed) !! index_name 1 = Some (IndexFile idx))
    by (vm_compute; reflexivity).
  assert (H5 : top (disk crashed) !! hints_name 1
               = Some (HintsFile (mkHints 2 {[ 0 := 1 ]} ∅)))
    by (vm_compute; reflexivity).
  assert (H6 : data (disk crashed) !! (1 + 1)
               = Some (MAGIC ++ put_frame (key_of x02) [x64]))
    by (vm_compute; reflexivity).
  assert (H7 : data (disk crashed) !! (1 + 2) = Some (MAGIC ++ COMMIT))
    by (vm_compute; reflexivity).
  assert (H8 : forall s, 1 + 2 < s -> data (disk crashed) !! s = None).
  { intros s Hs. unfold crashed. cbn [disk data].
    rewrite !lookup_insert_ne by lia. apply lookup_singleton_ne. lia. }
  assert (H9 : blen (key_of x02) = 32) by (vm_compute; reflexivity).
  assert (H10 : blen [x64] + put_header_fmt_size <= MAX_OBJECT_SIZE)
    by (vm_compute; discriminate).
  do 10 (split; [assumption|]).
  destruct (replay_recovers_put 0 crashed 1 idx {[ 0 := 1 ]} ∅
              (key_of x02) [x64] H1 H2 H3 H4 H5 H6 H7 H8 H9 H10)
    as (r' & Hg & _ & Hx & _).
  exists r'. split; [exact Hg|exact Hx].
Defined.

(** ** Rollback *)

Lemma open_log_uncommitted (es : list entry) (e : entry) :
  Forall well_formed es -> well_formed e -> e <> Commit ->
  is_committed_content (MAGIC ++ log (es ++ [e])) = false.
Proof.
  intros Hw He Hne. unfold is_committed_content.
  destruct (_ <? _); [reflexivity|]. destruct (negb _); [reflexivity|].
  assert (Hw' : Forall well_formed (es ++ [e]))
    by (apply Forall_app; split; [done|now repeat constructor]).
  rewrite iter_objects_entries by done.
  now apply commit_scan_last.
Qed.

Lemma index_txid_ext (d1 d2 : Disk) :
  top d1 = top d2 ->
  get_index_transaction_id d1 = get_index_transaction_id d2.
Proof.
  unfold get_index_transaction_id, listdir, index_number. now intros ->.
Qed.

(** A PUT entry appended after the last commit does not move the last
    committed segment. *)
Lemma written_put_txid (r : Repository) (t : Z) (es : list entry)
    (id value : bytes) :
  get_segments_transaction_id (disk r) = Some t ->
  t < (write_target r).1 ->
  (write_target r).2 = MAGIC ++ log es -> Forall well_formed es ->
  blen id = 32 -> blen value + put_header_fmt_size <= MAX_OBJECT_SIZE ->
  get_segments_transaction_id (disk (written r (put_frame id value)))
  = Some t.
Proof.
  intros Hs Hlt Hp Hw Hid Hsz.
  apply segments_txid_iff in Hs as [Hc Hmax].
  apply segments_txid_iff. unfold is_committed_segment in *.
  rewrite written_data. split.
  - rewrite lookup_insert_ne by lia. exact Hc.
  - intros s Hs. destruct (decide (s = (write_target r).1)) as [->|Hne].
    + rewrite lookup_insert_eq, Hp in Hs.
      rewrite <- app_assoc in Hs.
      replace (log es ++ put_frame id value)
        with (log (es ++ [Put id value])) in Hs
        by (rewrite log_app; unfold log at 2; cbn [map concat frame_of];
            now rewrite app_nil_r).
      rewrite open_log_uncommitted in Hs by done. discriminate.
    + rewrite lookup_insert_ne in Hs by done. now apply Hmax.
Qed.

(** What is put and then rolled back is gone: after [put] of a new key
    and [rollback], no transaction is open, the snapshot files are
    untouched, the last committed segment and the newest index are still
    [t], the segments up to [t] are as they were, and [get] of the key
    reads the snapshot and does not find it. The entry written stays in
    the log, after the last commit. *)
Theorem rollback_discards_put (fuel : nat) (r : Repository) (t : Z)
    (idx idx0 : NSIndex) (es : list entry) (id value : bytes) :
  _active_txn r = true -> index r = Some idx -> cursor_ok r ->
  get_index_transaction_id (disk r) = Some t ->
  get_segments_transaction_id (disk r) = Some t ->
  top (disk r) !! index_name t = Some (IndexFile idx0) ->
  t < io_segment (io r) ->
  (write_target r).2 = MAGIC ++ log es -> Forall well_formed es ->
  blen id = 32 -> blen value + put_header_fmt_size <= MAX_OBJECT_SIZE ->
  idx !! id = None -> idx0 !! id = None ->
  exists r1 r2,
    (put fuel id value ;; rollback) r = (Ok tt, r1) /\
    index r1 = None /\ _active_txn r1 = false /\
    top (disk r1) = top (disk r) /\
    get_segments_transaction_id (disk r1) = Some t /\
    get_index_transaction_id (disk r1) = Some t /\
    (forall s, s <= t -> data (disk r1) !! s = data (disk r) !! s) /\
    data (disk r1) !! (write_target r).1
    = Some ((write_target r).2 ++ put_frame id value) /\
    get (S (S fuel)) id r1 = (Raise ObjectNotFound, r2).
Proof.
  intros Ha Hi Hc Hx Hs Hf Hlt Hp Hw Hid Hsz Hn Hn0.
  assert (Hs' : blen value + put_header_fmt_size < 4294967296)
    by (unfold MAX_OBJECT_SIZE in Hsz; lia).
  pose proof (write_target_ge r Hc) as Hge.
  unfold bind at 1. rewrite (put_absent_run fuel r id value idx) by done.
  unfold rollback, modify.
  destruct (put_entry_fields id value idx r) as (_ & Ed & _).
  destruct (rolled_back_fields (put_entry id value idx r))
    as (Rd & _ & Ri & Ra & _).
  set (q := with_active_txn false (with_index None (put_entry id value idx r)))
    in *.
  destruct (written_rest r (put_frame id value))
    as (_ & _ & _ & _ & _ & _ & _ & Wt & _).
  assert (Qt : top (disk q) = top (disk r)) by now rewrite Rd, Ed.
  assert (Qs : get_segments_transaction_id (disk q) = Some t).
  { rewrite Rd, Ed. apply (written_put_txid r t es); try done. lia. }
  assert (Qx : get_index_transaction_id (disk q) = Some t)
    by now rewrite (index_txid_ext _ (disk r)).
  exists q. eexists.
  split; [reflexivity|]. do 5 (split; [assumption|]).
  split.
  { intros s Hle. rewrite Rd, Ed, written_data.
    apply lookup_insert_ne. lia. }
  split.
  { rewrite Rd, Ed, written_data. apply lookup_insert_eq. }
  rewrite (get_snapshot_run fuel q t idx0 id) by (done || now rewrite Qt).
  rewrite Hn0. reflexivity.
Qed.

(** The transaction [prepare_txn] opens on [at_rest]. *)
Definition in_txn : Repository :=
  mkRepo (mkIO 2 0 100 None) (disk at_rest)
         (Some {[ key_of x01 := (0, 8) ]}) {[ 0 := 1 ]} ∅ true false 100 [].

Lemma rollback_discards_put_witness :
  let idx : NSIndex := {[ key_of x01 := (0, 8) ]} in
  _active_txn in_txn = true /\ index in_txn = Some idx /\
  cursor_ok in_txn /\
  get_index_transaction_id (disk in_txn) = Some 1 /\
  get_segments_transaction_id (disk in_txn) = Some 1 /\
  top (disk in_txn) !! index_name 1 = Some (IndexFile idx) /\
  1 < io_segment (io in_txn) /\
  (write_target in_txn).2 = MAGIC ++ log [] /\ Forall well_formed [] /\
  blen (key_of x02) = 32 /\
  blen [x64] + put_header_fmt_size <= MAX_OBJECT_SIZE /\
  idx !! key_of x02 = None /\
  exists r1 r2,
    (put 0 (key_of x02) [x64] ;; rollback) in_txn = (Ok tt, r1) /\
    get_segments_transaction_id (disk r1) = Some 1 /\
    get 2 (key_of x02) r1 = (Raise ObjectNotFound, r2).
Proof.
  intros idx.
  assert (H1 : _active_txn in_txn = true) by reflexivity.
  assert (H2 : index in_txn = Some idx) by reflexivity.
  assert (H3 : cursor_ok in_txn) by exact I.
  assert (H4 : get_index_transaction_id (disk in_txn) = Some 1)
    by (vm_compute; reflexivity).
  assert (H5 : get_segments_transaction_id (disk in_txn) = Some 1)
    by (vm_compute; reflexivity).
  assert (H6 : top (disk in_txn) !! index_name 1 = Some (IndexFile idx))
    by (vm_compute; reflexivity).
  assert (H7 : 1 < io_segment (io in_txn)) by (vm_compute; reflexivity).
  assert (H8 : (write_target in_txn).2 = MAGIC ++ log [])
    by (vm_compute; reflexivity).
  assert (H9 : Forall well_formed []) by constructor.
  assert (H10 : blen (key_of x02) = 32) by (vm_compute; reflexivity).
  assert (H11 : blen [x64] + put_header_fmt_size <= MAX_OBJECT_SIZE)
    by (vm_compute; discriminate).
  assert (H12 : idx !! key_of x02 = None) by (vm_compute; reflexivity).
  do 12 (split; [assumption|]).
  destruct (rollback_discards_put 0 in_txn 1 idx idx [] (key_of x02) [x64]
              H1 H2 H3 H4 H5 H6 H7 H8 H9 H10 H11 H12 H12)
    as (r1 & r2 & Hp & _ & _ & _ & Hs & _ & _ & _ & Hg).
  exists r1, r2. split; [exact Hp|]. split; [exact Hs|exact Hg].
Defined.

(** ** delete, then commit *)





(** ** commit without a transaction *)











(** ** What check_transaction decides *)

(** [check_transaction] compares the number of the newest index file with
    the last committed segment. An index without any committed segment
    raises [CheckNeeded]; equal numbers (or neither there) mean there is
    nothing to do, and nothing is touched; an index behind the segments is
    brought up to date by replaying the segments after it; an index ahead
    of the segments is dropped and everything is replayed from the start.
    [get_transaction_id] then answers with the newest index. *)
Theorem check_transaction_decides (fuel : nat) (r : Repository) :
  check_transaction (S fuel) r
  = match get_index_transaction_id (disk r),
          get_segments_transaction_id (disk r) with
    | Some _, None => (Raise CheckNeeded, r)
    | None, None => (Ok tt, r)
    | None, Some t => replay_segments fuel None (Some t) r
    | Some i, Some t =>
        if i =? t then (Ok tt, r)
        else if t <? i then replay_segments fuel None (Some t) r
        else replay_segments fuel (Some i) (Some t) r
    end /\
  (get_index_transaction_id (disk r) = get_segments_transaction_id (disk r) ->
   get_transaction_id (S (S fuel)) r
   = (Ok (get_index_transaction_id (disk r)), r)).
Proof.
  split; [|apply get_transaction_id_agree].
  rewrite check_transaction_eq. unfold bind at 1, self at 1. cbv zeta.
  destruct (get_index_transaction_id (disk r)) as [i|],
    (get_segments_transaction_id (disk r)) as [t|].
  - rewrite (bool_decide_eq_false_2 (Some t = None)) by done.
    rewrite andb_false_r.
    destruct (Z.eqb_spec i t) as [->|Hne].
    + now rewrite (bool_decide_eq_true_2 (Some t = Some t)) by done.
    + rewrite (bool_decide_eq_false_2 (Some i = Some t)) by congruence.
      cbn [negb]. unfold bind. now destruct (t <? i).
  - rewrite (bool_decide_eq_true_2 (Some i <> None)) by done.
    now rewrite (bool_decide_eq_true_2 (None = None)) by done.
  - rewrite (bool_decide_eq_false_2 (None <> None))
      by (intros H; now apply H).
    cbn [andb]. now rewrite (bool_decide_eq_false_2 (None = Some t)) by done.
  - rewrite (bool_decide_eq_false_2 (None <> None))
      by (intros H; now apply H).
    cbn [andb]. now rewrite (bool_decide_eq_true_2 (None = None)) by done.
Qed.

(** ** What check refuses *)

(** [check] refuses to repair an append-only repository ([ValueError]) and
    refuses, by an assertion, to run inside a transaction; in both cases
    before it has touched anything. *)
Theorem check_refuses (fuel : nat) (repair save_space : bool)
    (r : Repository) :
  (append_only r = true -> repair = true ->
   check fuel repair save_space r = (Raise ValueError, r)) /\
  (_active_txn r = true -> append_only r && repair = false ->
   check fuel repair save_space r = (Raise AssertionError, r)).
Proof.
  split.
  - intros Ha ->. unfold check, bind, self. now rewrite Ha.
  - intros Ha Hr. unfold check. unfold bind at 1, self at 1. rewrite Hr.
    unfold bind at 1. now rewrite Ha.
Qed.

(** ** Compaction *)


(** The PUT entry of [id] with value [v] is at [(seg, off)]. *)
Definition holds (d : gmap Z bytes) (seg off : Z) (id v : bytes) : Prop :=
  exists prefix rest,
    d !! seg = Some (prefix ++ put_frame id v ++ rest) /\ blen prefix = off.

(** Entry [e] of the log [es] starts at [off] in the segment file. *)
Definition at_boundary (es : list entry) (off : Z) (e : entry) : Prop :=
  exists done todo, es = done ++ e :: todo /\ off = blen (MAGIC ++ log done).





Lemma frame_positive (e : entry) : 0 < blen (frame_of e).
Proof.
  destruct e as [id value|id|]; cbn [frame_of].
  - rewrite blen_put_frame.
    pose proof (blen_nonneg id). pose proof (blen_nonneg value). lia.
  - rewrite blen_delete_frame. pose proof (blen_nonneg id). lia.
  - reflexivity.
Qed.


Lemma blen_log_cons (e : entry) (l : list entry) :
  blen (log (e :: l)) = blen (frame_of e) + blen (log l).
Proof. unfold log. cbn [map concat]. now rewrite blen_app. Qed.

Lemma blen_log_nil : blen (log []) = 0.
Proof. reflexivity. Qed.

(** Two entries of a log that start at the same offset are the same
    entry. *)
Lemma split_unique (d1 d2 t1 t2 : list entry) (e1 e2 : entry) :
  d1 ++ e1 :: t1 = d2 ++ e2 :: t2 -> blen (log d1) = blen (log d2) ->
  d1 = d2 /\ e1 = e2 /\ t1 = t2.
Proof.
  revert d2. induction d1 as [|a d1 IH]; intros d2 E L.
  - destruct d2 as [|b d2].
    + cbn in E. injection E as -> ->. done.
    + exfalso. rewrite blen_log_cons, blen_log_nil in L.
      pose proof (frame_positive b). pose proof (blen_nonneg (log d2)). lia.
  - destruct d2 as [|b d2].
    + exfalso. rewrite blen_log_cons, blen_log_nil in L.
      pose proof (frame_positive a). pose proof (blen_nonneg (log d1)). lia.
    + cbn in E. injection E as -> E. rewrite !blen_log_cons in L.
      destruct (IH d2 E ltac:(lia)) as (-> & -> & ->). done.
Qed.

Lemma at_boundary_unique (es : list entry) (off : Z) (e1 e2 : entry) :
  at_boundary es off e1 -> at_boundary es off e2 -> e1 = e2.
Proof.
  intros (d1 & t1 & E1 & O1) (d2 & t2 & E2 & O2). subst.
  rewrite !blen_app in O2.
  destruct (split_unique d1 d2 t1 t2 e1 e2) as (_ & H & _);
    [congruence|lia|done].
Qed.


Section Compaction.

(** The segment being compacted and the entries it holds; the index when
    the compaction starts; the first segment number free for new entries
    and what the files below it hold; the number of the newest index file;
    the [compact] map. *)
Variables (s : Z) (es : list entry) (idx0 : NSIndex) (g0 : Z)
          (d0 : gmap Z bytes) (itid : option Z) (c0 : gmap Z Z).
Hypothesis Hwf : Forall well_formed es.
Hypothesis Hsg : s < g0.
(** What the index says is in the segment is a PUT entry of the segment. *)
Hypothesis Hb :
  forall id off, idx0 !! id = Some (s, off) ->
                 exists v, at_boundary es off (Put id v).

(** The entry at [pos] is the one the index points at. *)
Definition live (pos : Z) (e : entry) : bool :=
  match e with
  | Put id _ => bool_decide (idx0 !! id = Some (s, pos))
  | _ => false
  end.









Lemma index_points_to_run (r : Repository) (idx : NSIndex) (key : bytes)
    (segment offset : Z) :
  index r = Some idx ->
  index_points_to key segment offset r
  = (Ok (bool_decide (default (-1, -1) (idx !! key) = (segment, offset))), r).
Proof. intros H. unfold index_points_to, bind, self. now rewrite H. Qed.












End Compaction.







(** Two objects in segment [0], the first of them superseded (the index
    no longer points at it), and the COMMIT entry in segment [1]; the
    transaction has the index loaded and segment [0] marked for
    compaction. *)
Definition sparse_log : list entry :=
  [Put (key_of x01) [x61]; Put (key_of x02) [x62]].

Definition sparse : Repository :=
  mkRepo (mkIO 2 0 100 None)
         (mkDisk {[ 0 := MAGIC ++ log sparse_log; 1 := MAGIC ++ COMMIT ]}
                 ∅ ∅ [])
         (Some {[ key_of x02 := (0, 50) ]}) {[ 0 := 1 ]} {[ 0 := 42 ]}
         true false 1000 [].




(** ** commit with a segment to compact *)



(** ** Replay of a DELETE entry *)

Lemma segment_exists_holds (d : Disk) (s o : Z) (id v : bytes) :
  holds (data d) s o id v -> segment_exists d s = true.
Proof.
  intros (prefix & rest & H & _). unfold segment_exists.
  apply bool_decide_eq_true. rewrite H. eauto.
Qed.

Lemma read_holds (r : Repository) (s o : Z) (id v : bytes)
    (read_data : bool) :
  holds (data (disk r)) s o id v -> blen id = 32 ->
  blen v + put_header_fmt_size <= MAX_OBJECT_SIZE ->
  read s o id read_data r
  = (Ok (if read_data then Some v else None, blen v + put_header_fmt_size),
     r).
Proof.
  intros (prefix & rest & H & <-) Hid Hsz.
  rewrite (read_put_frame_wanted r s prefix id v rest id) by done.
  now rewrite bool_decide_eq_true_2.
Qed.

(** One DELETE entry replayed into the index (lines 433-445). *)
Lemma update_entry_delete (segment offset : Z) (id v : bytes)
    (r : Repository) (idx : NSIndex) (s o : Z) (error_found : bool) :
  index r = Some idx -> idx !! id = Some (s, o) ->
  is_Some (segments r !! s) -> holds (data (disk r)) s o id v ->
  blen id = 32 -> blen v + put_header_fmt_size <= MAX_OBJECT_SIZE ->
  exists r',
    update_entry segment false error_found
                 (item_of offset true (Delete id)) r
    = (Ok error_found, r') /\
    disk r' = disk r /\ io r' = io r /\ append_only r' = append_only r /\
    _active_txn r' = _active_txn r /\
    index r' = Some (base.delete id idx) /\
    (forall k, is_Some (segments r !! k) -> is_Some (segments r' !! k)).
Proof.
  intros Hi Hl Hs Hh Hid Hsz. unfold update_entry.
  cbn [item_of it_tag it_key it_offset it_size].
  change (TAG_DELETE =? TAG_PUT) with false.
  change (TAG_DELETE =? TAG_DELETE) with true. cbv iota.
  unfold bind at 1, self at 1. rewrite Hi, Hl.
  unfold bind at 1, modify at 1.
  set (r0 := with_index (Some (base.delete id idx)) r).
  assert (F : disk r0 = disk r /\ io r0 = io r /\
              append_only r0 = append_only r /\
              _active_txn r0 = _active_txn r /\
              index r0 = Some (base.delete id idx) /\
              segments r0 = segments r)
    by (subst r0; now destruct r).
  destruct F as (F1 & F2 & F3 & F4 & F5 & F6).
  unfold bind at 1, self at 1.
  rewrite (segment_exists_holds _ s o id v) by now rewrite F1.
  destruct (segments_add_counted s (-1) r0) as (r1 & E1 & C1 & C2 & C3 & C4
                                                & C5 & C6);
    [now rewrite F6|].
  unfold bind at 1. rewrite E1.
  unfold bind at 1.
  rewrite (read_holds r1 s o id v false) by (done || now rewrite C1, F1).
  unfold bind at 1. rewrite compact_add_run. unfold ret.
  eexists. split; [reflexivity|].
  destruct (compact_add_counted s (blen v + put_header_fmt_size) r1)
    as (D1 & D2 & D3 & D4 & D5 & D6).
  repeat split; try congruence.
  intros k Hk. apply D6, C6. now rewrite F6.
Qed.

(** [_update_index] on a segment that holds one DELETE entry. *)
Lemma update_index_delete (segment offset : Z) (id v : bytes)
    (r : Repository) (idx : NSIndex) (s o : Z) (content : bytes) :
  index r = Some idx -> data (disk r) !! segment = Some content ->
  idx !! id = Some (s, o) ->
  is_Some (segments r !! s) -> holds (data (disk r)) s o id v ->
  blen id = 32 -> blen v + put_header_fmt_size <= MAX_OBJECT_SIZE ->
  exists r',
    _update_index segment ([item_of offset true (Delete id)], None)
                  false false r = (Ok false, r') /\
    disk r' = disk r /\ io r' = io r /\ append_only r' = append_only r /\
    _active_txn r' = _active_txn r /\
    index r' = Some (base.delete id idx).
Proof.
  intros Hi Hd Hl Hs Hh Hid Hsz. unfold _update_index, segments_set.
  unfold bind at 1, modify at 1.
  destruct (segments_set_fields segment 0 r) as (A1 & A2 & A3 & A4 & A5 & A6).
  assert (A7 : is_Some (segments (with_segments (<[segment := 0]> (segments r))
                                    r) !! s)).
  { destruct r. cbn in *. destruct (decide (s = segment)) as [->|N].
    - rewrite lookup_insert_eq. eauto.
    - now rewrite lookup_insert_ne. }
  set (r0 := with_segments _ r) in *.
  cbn [fst snd update_entries].
  destruct (update_entry_delete segment offset id v r0 idx s o false)
    as (r1 & E1 & B1 & B2 & B3 & B4 & B5 & B6);
    [congruence|done|done|now rewrite A1|done|done|].
  unfold bind at 1. unfold bind at 1. rewrite E1.
  unfold ret at 1. unfold bind at 1, ret at 1.
  destruct (update_index_tail segment r1 content false)
    as (r2 & E2 & C1 & C2 & C3 & C4 & C5 & _);
    [now apply B6|congruence|].
  rewrite E2. exists r2. split; [reflexivity|].
  repeat split; congruence.
Qed.

Lemma prepared_replay_segments (t : Z) (idx : NSIndex) (segs comp : gmap Z Z)
    (r : Repository) :
  segments (prepared t idx segs comp false r) = segs.
Proof. now destruct r. Qed.

Lemma replay_delete_commit (t : Z) (id v : bytes) (r : Repository)
    (idx : NSIndex) (s o : Z) :
  index r = Some idx ->
  data (disk r) !! (t + 1) = Some (MAGIC ++ delete_frame id) ->
  data (disk r) !! (t + 2) = Some (MAGIC ++ COMMIT) ->
  idx !! id = Some (s, o) ->
  is_Some (segments r !! s) -> holds (data (disk r)) s o id v ->
  blen id = 32 -> blen v + put_header_fmt_size <= MAX_OBJECT_SIZE ->
  exists r',
    replay_loop (Some t) (Some (t + 2)) [t + 1; t + 2] r = (Ok tt, r') /\
    disk r' = disk r /\ io r' = io r /\ append_only r' = append_only r /\
    _active_txn r' = _active_txn r /\
    index r' = Some (base.delete id idx).
Proof.
  intros Hi H1 H2 Hl Hs Hh Hid Hsz. cbn [replay_loop].
  destruct (Z.leb_spec (t + 1) t); [lia|].
  destruct (Z.ltb_spec (t + 2) (t + 1)); [lia|].
  destruct (Z.leb_spec (t + 2) t); [lia|].
  destruct (Z.ltb_spec (t + 2) (t + 2)); [lia|].
  unfold bind at 1. rewrite (iter_segment_run _ _ _ _ H1).
  assert (I1 : iter_objects (MAGIC ++ delete_frame id) true
               = ([item_of MAGIC_LEN true (Delete id)], None)).
  { transitivity (iter_objects (MAGIC ++ log [Delete id]) true).
    - unfold log. cbn [map concat frame_of]. now rewrite app_nil_r.
    - now rewrite iter_objects_entries by (repeat constructor; done). }
  assert (I2 : iter_objects (MAGIC ++ COMMIT) true
               = ([item_of MAGIC_LEN true Commit], None)).
  { transitivity (iter_objects (MAGIC ++ log [Commit]) true).
    - unfold log. cbn [map concat frame_of]. now rewrite app_nil_r.
    - now rewrite iter_objects_entries by (repeat constructor; done). }
  rewrite I1.
  destruct (update_index_delete (t + 1) MAGIC_LEN id v r idx s o
              (MAGIC ++ delete_frame id) Hi H1 Hl Hs Hh Hid Hsz)
    as (r1 & E1 & A1 & A2 & A3 & A4 & A5).
  unfold bind at 1. rewrite E1.
  assert (H2' : data (disk r1) !! (t + 2) = Some (MAGIC ++ COMMIT))
    by now rewrite A1.
  unfold bind at 1. rewrite (iter_segment_run _ _ _ _ H2').
  rewrite I2.
  destruct (update_index_commit (t + 2) MAGIC_LEN r1 (MAGIC ++ COMMIT) H2')
    as (r2 & E2 & B1 & B2 & B3 & B4 & B5).
  unfold bind at 1. rewrite E2. exists r2. split; [reflexivity|].
  repeat split; congruence.
Qed.

(** A committed DELETE entry that the snapshot does not know yet is
    recovered by the replay: on a directory whose newest snapshot is [t],
    where [index.t] holds the key (at a readable PUT entry of a segment
    the hints count), with a segment [t + 1] that holds one DELETE entry
    for the key, the COMMIT entry in segment [t + 2] and no segment above,
    [get] of the key on a repository object without an index in memory
    replays the log, writes snapshot [t + 2] without the key and raises
    [ObjectNotFound]. The segment files are not changed. *)
Theorem replay_recovers_delete (fuel : nat) (r : Repository) (t : Z)
    (idx : NSIndex) (segs comp : gmap Z Z) (id v : bytes) (s o : Z) :
  index_falsy r = true -> 0 <= t ->
  get_index_transaction_id (disk r) = Some t ->
  top (disk r) !! index_name t = Some (IndexFile idx) ->
  top (disk r) !! hints_name t = Some (HintsFile (mkHints 2 segs comp)) ->
  data (disk r) !! (t + 1) = Some (MAGIC ++ delete_frame id) ->
  data (disk r) !! (t + 2) = Some (MAGIC ++ COMMIT) ->
  (forall seg, t + 2 < seg -> data (disk r) !! seg = None) ->
  idx !! id = Some (s, o) -> is_Some (segs !! s) ->
  holds (data (disk r)) s o id v ->
  blen id = 32 -> blen v + put_header_fmt_size <= MAX_OBJECT_SIZE ->
  exists r',
    get (S (S (S (S (S fuel))))) id r = (Raise ObjectNotFound, r') /\
    data (disk r') = data (disk r) /\
    get_index_transaction_id (disk r') = Some (t + 2) /\
    top (disk r') !! index_name (t + 2)
    = Some (IndexFile (base.delete id idx)) /\
    _active_txn r' = false.
Proof.
  intros Hf Ht Hx Hi Hh H1 H2 Hn Hl Hs Hold Hid Hsz.
  assert (Hseg : get_segments_transaction_id (disk r) = Some (t + 2)).
  { apply last_commit_segment; [done|]. intros seg Hsg. apply Hn. lia. }
  assert (Hrep : exists r1,
            replay_segments (S (S (S fuel))) (Some t) (Some (t + 2)) r
            = (Ok tt, r1) /\
            data (disk r1) = data (disk r) /\
            top (disk r1) !! index_name (t + 2)
            = Some (IndexFile (base.delete id idx)) /\
            get_index_transaction_id (disk r1) = Some (t + 2) /\
            index r1 = None /\ _active_txn r1 = false).
  { rewrite replay_segments_eq. unfold bind at 1.
    rewrite (prepare_txn_run fuel r t idx segs comp false) by done.
    destruct (prepared_replay_fields t idx segs comp r)
      as (Pd & Pio & Pi & Pa).
    pose proof (prepared_replay_segments t idx segs comp r) as Ps.
    set (p := prepared t idx segs comp false r) in *.
    unfold try_finally. unfold bind at 1, self at 1.
    destruct (segment_iterator_tail (disk p) t) as (low & -> & Hlow);
      [rewrite Pd, H1; eauto|rewrite Pd, H2; eauto
      |intros seg Hsg; rewrite Pd; now apply Hn|].
    rewrite replay_loop_skip by done.
    destruct (replay_delete_commit t id v p idx s o)
      as (k & Ek & Kd & Kio & Ka & Kt & Ki);
      [done|now rewrite Pd|now rewrite Pd|done|now rewrite Ps
      |now rewrite Pd|done|done|].
    unfold bind at 1. rewrite Ek.
    assert (Hsegk : get_segments_transaction_id (disk k) = Some (t + 2)).
    { apply last_commit_segment; rewrite Kd, Pd; [done|].
      intros seg Hsg. apply Hn. lia. }
    rewrite (write_index_run k (t + 2) _ Hsegk Ki).
    unfold rollback, modify.
    destruct (rolled_back_fields (snapshotted (t + 2) (base.delete id idx) k))
      as (Rd & _ & Ri & Ra & _).
    destruct (snapshotted_rest (t + 2) (base.delete id idx) k) as (Sd & _).
    eexists. split; [reflexivity|].
    rewrite Rd, Ri, Ra, Sd, Kd, Pd.
    split; [done|]. split; [apply snapshotted_index|].
    split; [apply snapshotted_txid; lia|done]. }
  destruct Hrep as (r1 & Er & Rd & Ri & Rx & Rn & Ra).
  assert (Hc : check_transaction (S (S (S (S fuel)))) r = (Ok tt, r1)).
  { rewrite (check_transaction_behind _ r t (t + 2)) by (done || lia).
    exact Er. }
  rewrite (get_checked_run _ r r1 (t + 2) (base.delete id idx) id Hf Hc Rx Ri).
  rewrite lookup_delete_eq.
  assert (E : disk (with_index (Some (base.delete id idx)) r1) = disk r1 /\
              _active_txn (with_index (Some (base.delete id idx)) r1)
              = _active_txn r1)
    by now destruct r1.
  destruct E as [Ed Ea].
  eexists. split; [reflexivity|]. rewrite Ed, Ea.
  split; [done|]. split; [done|]. split; [done|done].
Qed.

Lemma crashed_delete_holds :
  holds {[ 0 := MAGIC ++ put_frame (key_of x01) [x61];
           1 := MAGIC ++ COMMIT;
           2 := MAGIC ++ delete_frame (key_of x01);
           3 := MAGIC ++ COMMIT ]} 0 8 (key_of x01) [x61].
Proof.
  exists MAGIC, []. split; [|reflexivity].
  rewrite lookup_insert_eq. now rewrite app_nil_r.
Qed.

(** The directory a crash leaves between the COMMIT entry of a
    transaction that deleted the only object and its snapshot. *)
Definition crashed_delete : Repository :=
  mkRepo (mkIO 0 0 100 None)
         (mkDisk {[ 0 := MAGIC ++ put_frame (key_of x01) [x61];
                    1 := MAGIC ++ COMMIT;
                    2 := MAGIC ++ delete_frame (key_of x01);
                    3 := MAGIC ++ COMMIT ]}
                 ∅
                 {[ "index.1"%string := IndexFile {[ key_of x01 := (0, 8) ]};
                    "hints.1"%string := HintsFile (mkHints 2 {[ 0 := 1 ]} ∅) ]}
                 [])
         None ∅ ∅ false false 100 [].

Lemma replay_recovers_delete_witness :
  let idx : NSIndex := {[ key_of x01 := (0, 8) ]} in
  let r := crashed_delete in
  index_falsy r = true /\ 0 <= 1 /\
  get_index_transaction_id (disk r) = Some 1 /\
  top (disk r) !! index_name 1 = Some (IndexFile idx) /\
  top (disk r) !! hints_name 1
  = Some (HintsFile (mkHints 2 {[ 0 := 1 ]} ∅)) /\
  data (disk r) !! (1 + 1) = Some (MAGIC ++ delete_frame (key_of x01)) /\
  data (disk r) !! (1 + 2) = Some (MAGIC ++ COMMIT) /\
  (forall seg, 1 + 2 < seg -> data (disk r) !! seg = None) /\
  idx !! key_of x01 = Some (0, 8) /\
  is_Some (({[ 0 := 1 ]} : gmap Z Z) !! 0) /\
  holds (data (disk r)) 0 8 (key_of x01) [x61] /\
  blen (key_of x01) = 32 /\
  blen [x61] + put_header_fmt_size <= MAX_OBJECT_SIZE /\
  exists r',
    get 5 (key_of x01) r = (Raise ObjectNotFound, r') /\
    get_index_transaction_id (disk r') = Some (1 + 2).
Proof.
  intros idx r.
  assert (H1 : index_falsy r = true) by reflexivity.
  assert (H2 : 0 <= 1) by lia.
  assert (H3 : get_index_transaction_id (disk r) = Some 1)
    by (vm_compute; reflexivity).
  assert (H4 : top (disk r) !! index_name 1 = Some (IndexFile idx))
    by (vm_compute; reflexivity).
  assert (H5 : top (disk r) !! hints_name 1
               = Some (HintsFile (mkHints 2 {[ 0 := 1 ]} ∅)))
    by (vm_compute; reflexivity).
  assert (H6 : data (disk r) !! (1 + 1)
               = Some (MAGIC ++ delete_frame (key_of x01)))
    by (vm_compute; reflexivity).
  assert (H7 : data (disk r) !! (1 + 2) = Some (MAGIC ++ COMMIT))
    by (vm_compute; reflexivity).
  assert (H8 : forall seg, 1 + 2 < seg -> data (disk r) !! seg = None).
  { intros seg Hs. unfold r, crashed_delete. cbn [disk data].
    rewrite !lookup_insert_ne by lia. apply lookup_singleton_ne. lia. }
  assert (H9 : idx !! key_of x01 = Some (0, 8)) by (vm_compute; reflexivity).
  assert (H10 : is_Some (({[ 0 := 1 ]} : gmap Z Z) !! 0))
    by (rewrite lookup_singleton_eq; eauto).
  assert (H11 : holds (data (disk r)) 0 8 (key_of x01) [x61])
    by exact crashed_delete_holds.
  assert (H12 : blen (key_of x01) = 32) by (vm_compute; reflexivity).
  assert (H13 : blen [x61] + put_header_fmt_size <= MAX_OBJECT_SIZE)
    by (vm_compute; discriminate).
  do 13 (split; [assumption|]).
  destruct (replay_recovers_delete 0 r 1 idx {[ 0 := 1 ]} ∅
              (key_of x01) [x61] 0 8 H1 H2 H3 H4 H5 H6 H7 H8 H9 H10 H11
              H12 H13)
    as (r' & Hg & _ & Hx & _).
  exists r'. split; [exact Hg|exact Hx].
Defined.

(** ** A hints file of an unknown version *)

(** [prepare_txn] on a hints file whose version is neither 1 nor 2 raises
    [ValueError], but only after it has marked the transaction active,
    loaded the index and, when asked to clean up, removed the segment
    files above [t]; [segments] and [compact] are not assigned. *)
Theorem prepare_txn_unknown_hints (fuel : nat) (r : Repository) (t : Z)
    (idx : NSIndex) (version : Z) (segs comp : gmap Z Z)
    (do_cleanup : bool) :
  index_falsy r = true ->
  top (disk r) !! index_name t = Some (IndexFile idx) ->
  top (disk r) !! hints_name t
  = Some (HintsFile (mkHints version segs comp)) ->
  version <> 1 -> version <> 2 ->
  exists r',
    prepare_txn (S (S fuel)) (Some t) do_cleanup r = (Raise ValueError, r') /\
    _active_txn r' = true /\ index r' = Some idx /\
    segments r' = segments r /\ compact r' = compact r /\
    top (disk r') = top (disk r) /\
    (forall seg,
       data (disk r') !! seg
       = if do_cleanup && bool_decide (t < seg) then None
         else data (disk r) !! seg).
Proof.
  intros Hf Hi Hh N1 N2. rewrite prepare_txn_eq.
  unfold bind at 1, modify at 1. unfold bind at 1, self at 1.
  assert (E : index_falsy (with_active_txn true r) = true) by now destruct r.
  rewrite E. cbn [orb]. unfold bind at 1. unfold bind at 1.
  unfold try_except.
  rewrite (open_index_snapshot fuel _ t idx false) by now destruct r.
  unfold modify at 1.
  set (r1 := with_index (Some idx) (with_active_txn true r)).
  set (r2 := if do_cleanup then (cleanup t r1).2 else r1).
  assert (Ec : (if do_cleanup then cleanup t else ret tt) r1 = (Ok tt, r2))
    by (subst r2; now destruct do_cleanup).
  assert (F : top (disk r2) = top (disk r) /\ _active_txn r2 = true /\
              index r2 = Some idx /\ segments r2 = segments r /\
              compact r2 = compact r).
  { subst r2 r1. destruct do_cleanup;
      destruct r as [? [? ? ? ?] ? ? ? ? ? ? ?]; repeat split. }
  destruct F as (Ft & Fa & Fi & Fs & Fc).
  unfold bind at 1. rewrite Ec. unfold bind at 1, self at 1.
  rewrite Ft, Hh. cbn [h_version].
  destruct (Z.eqb_spec version 1) as [|_]; [done|].
  destruct (Z.eqb_spec version 2) as [|_]; [done|]. cbn [negb].
  exists r2. split; [reflexivity|]. do 5 (split; [assumption|]).
  intros seg. subst r2. destruct do_cleanup; cbn [andb].
  - pose proof (cleanup_lookup (disk r1) t seg) as Hl.
    subst r1. destruct r as [? [? ? ? ?] ? ? ? ? ? ? ?]. exact Hl.
  - subst r1. now destruct r as [? [? ? ? ?] ? ? ? ? ? ? ?].
Qed.

(** [at_rest] with a hints file of version 3. *)
Definition future_hints : Repository :=
  mkRepo (mkIO 2 0 100 None)
         (mkDisk {[ 0 := MAGIC ++ put_frame (key_of x01) [x61];
                    1 := MAGIC ++ COMMIT;
                    2 := MAGIC ++ put_frame (key_of x02) [x62] ]}
                 ∅
                 {[ "index.1"%string := IndexFile {[ key_of x01 := (0, 8) ]};
                    "hints.1"%string := HintsFile (mkHints 3 {[ 0 := 1 ]} ∅) ]}
                 [])
         None ∅ ∅ false false 100 [].

Lemma prepare_txn_unknown_hints_witness :
  let idx : NSIndex := {[ key_of x01 := (0, 8) ]} in
  index_falsy future_hints = true /\
  top (disk future_hints) !! index_name 1 = Some (IndexFile idx) /\
  top (disk future_hints) !! hints_name 1
  = Some (HintsFile (mkHints 3 {[ 0 := 1 ]} ∅)) /\
  3 <> 1 /\ 3 <> 2 /\
  exists r',
    prepare_txn 2 (Some 1) true future_hints = (Raise ValueError, r') /\
    _active_txn r' = true /\
    data (disk r') !! 2 = None.
Proof.
  intros idx.
  assert (H1 : index_falsy future_hints = true) by reflexivity.
  assert (H2 : top (disk future_hints) !! index_name 1
               = Some (IndexFile idx)) by (vm_compute; reflexivity).
  assert (H3 : top (disk future_hints) !! hints_name 1
               = Some (HintsFile (mkHints 3 {[ 0 := 1 ]} ∅)))
    by (vm_compute; reflexivity).
  assert (H4 : 3 <> 1) by lia.
  assert (H5 : 3 <> 2) by lia.
  do 5 (split; [assumption|]).
  destruct (prepare_txn_unknown_hints 0 future_hints 1 idx 3 {[ 0 := 1 ]} ∅
              true H1 H2 H3 H4 H5)
    as (r' & Hp & Ha & _ & _ & _ & _ & Hd).
  exists r'. split; [exact Hp|]. split; [exact Ha|].
  rewrite Hd. reflexivity.
Defined.

(** ** Sparse bytes of a segment *)

(** The bytes of a segment that compaction would free: the PUT entries
    the index does not point at, and the DELETE entries. *)
Fixpoint sparse_bytes (s : Z) (idx : NSIndex) (pos : Z) (es : list entry)
  : Z :=
  match es with
  | [] => 0
  | e :: es' =>
      match e with
      | Put _ _ => if live s idx pos e then 0 else blen (frame_of e)
      | Delete _ => blen (frame_of e)
      | Commit => 0
      end
      + sparse_bytes s idx (pos + blen (frame_of e)) es'
  end.

(** The loop of [_rebuild_sparse] (lines 463-470). *)
Lemma rebuild_loop (s : Z) (idx : NSIndex) (es : list entry) (pos acc : Z)
    (r : Repository) :
  Forall well_formed es -> 0 <= pos ->
  index r = Some idx -> compact r !! s = Some acc ->
  for_each (items_of pos false es) (fun it =>
    if it_tag it =? TAG_PUT then
      match it_key it with
      | None => raise TypeError
      | Some key =>
          let* live := index_points_to key s (it_offset it) in
          if negb live then compact_add s (it_size it) else ret tt
      end
    else if it_tag it =? TAG_DELETE then compact_add s (it_size it)
    else ret tt) r
  = (Ok tt,
     with_compact (<[s := acc + sparse_bytes s idx pos es]> (compact r)) r).
Proof.
  revert pos acc r.
  induction es as [|e es IH]; intros pos acc r Hw Hp Hi Hc.
  - cbn [items_of for_each sparse_bytes]. unfold ret. f_equal.
    rewrite Z.add_0_r, insert_id by done. now destruct r.
  - apply Forall_cons in Hw as [He Hw].
    pose proof (frame_positive e) as Hpos.
    cbn [items_of for_each sparse_bytes]. unfold bind at 1.
    assert (Hstep : forall delta,
              index (with_compact (bump s delta (compact r)) r) = Some idx /\
              compact (with_compact (bump s delta (compact r)) r) !! s
              = Some (acc + delta)).
    { intros delta. destruct r. cbn in *. split; [done|].
      unfold bump. now rewrite lookup_insert_eq, Hc. }
    assert (Hjoin : forall delta tail,
              with_compact
                (<[s := acc + delta + tail]>
                   (compact (with_compact (bump s delta (compact r)) r)))
                (with_compact (bump s delta (compact r)) r)
              = with_compact (<[s := acc + (delta + tail)]> (compact r)) r).
    { intros delta tail. destruct r. unfold bump. unfold_state.
      rewrite insert_insert_eq. do 2 f_equal. lia. }
    destruct e as [id v|id|];
      cbn [item_of it_tag it_key it_offset it_size frame_of] in *.
    + change (TAG_PUT =? TAG_PUT) with true. cbv iota.
      unfold bind at 1. rewrite (index_points_to_run r idx) by done.
      assert (L : bool_decide (default (-1, -1) (idx !! id) = (s, pos))
                  = live s idx pos (Put id v)).
      { cbn [live]. apply bool_decide_ext.
        destruct (idx !! id) as [[a b]|]; cbn; split; intros H;
          try congruence.
        exfalso. assert (-1 = pos) by congruence. lia. }
      rewrite L. destruct He as [Hid Hsz].
      assert (Hsize : blen v + put_header_fmt_size
                      = blen (put_frame id v))
        by (rewrite blen_put_frame, Hid; unfold put_header_fmt_size; lia).
      destruct (live s idx pos (Put id v)); cbn [negb].
      * unfold ret at 1. rewrite (IH _ acc r) by (done || lia).
        now rewrite Z.add_0_l.
      * rewrite compact_add_run.
        destruct (Hstep (blen v + put_header_fmt_size)) as [Si Sc].
        rewrite (IH (pos + blen (put_frame id v)) _ _ Hw ltac:(lia) Si Sc).
        rewrite Hjoin. now rewrite Hsize.
    + change (TAG_DELETE =? TAG_PUT) with false.
      change (TAG_DELETE =? TAG_DELETE) with true. cbv iota.
      rewrite compact_add_run.
      assert (Hsize : put_header_fmt_size = blen (delete_frame id))
        by (rewrite blen_delete_frame, He; reflexivity).
      destruct (Hstep put_header_fmt_size) as [Si Sc].
      rewrite (IH (pos + blen (delete_frame id)) _ _ Hw ltac:(lia) Si Sc).
      rewrite Hjoin. now rewrite <- Hsize.
    + change (TAG_COMMIT =? TAG_PUT) with false.
      change (TAG_COMMIT =? TAG_DELETE) with false. cbv iota.
      unfold ret at 1. rewrite (IH _ acc r) by (done || lia).
      now rewrite Z.add_0_l.
Qed.

(** [_rebuild_sparse] recomputes [compact[s]] from the index and the
    file of [s] and changes nothing else: for a segment without live
    entries it is the size of the file; otherwise it is the total size of
    the PUT entries the index does not point at and of the DELETE
    entries (the magic and the COMMIT entries do not count). *)
Theorem rebuild_sparse_counts (r : Repository) (s n : Z) (es : list entry)
    (idx : NSIndex) :
  index r = Some idx -> segments r !! s = Some n ->
  data (disk r) !! s = Some (MAGIC ++ log es) -> Forall well_formed es ->
  _rebuild_sparse s r
  = (Ok tt,
     with_compact
       (<[s := if n =? 0 then blen (MAGIC ++ log es)
               else sparse_bytes s idx MAGIC_LEN es]> (compact r)) r).
Proof.
  intros Hi Hn Hd Hw. unfold _rebuild_sparse.
  unfold bind at 1, modify at 1.
  set (r0 := with_compact (<[s := 0]> (compact r)) r).
  assert (F : index r0 = Some idx /\ segments r0 = segments r /\
              disk r0 = disk r /\ compact r0 !! s = Some 0).
  { subst r0. destruct r. cbn in *. repeat split; try done.
    apply lookup_insert_eq. }
  destruct F as (Fi & Fs & Fd & Fc).
  assert (Hjoin : forall x,
            with_compact (<[s := 0 + x]> (compact r0)) r0
            = with_compact (<[s := x]> (compact r)) r).
  { intros x. subst r0. destruct r. unfold_state.
    now rewrite insert_insert_eq. }
  unfold bind at 1, segments_get at 1. rewrite Fs, Hn.
  destruct (n =? 0).
  - unfold bind, segment_size. rewrite Fd, Hd. rewrite compact_add_run.
    f_equal. unfold bump. rewrite Fc. apply Hjoin.
  - unfold bind at 1. rewrite (iter_segment_run s false r0 (MAGIC ++ log es))
      by now rewrite Fd.
    rewrite iter_objects_entries by done. cbn [fst snd].
    unfold bind at 1.
    rewrite (rebuild_loop s idx es MAGIC_LEN 0 r0 Hw) by (done || reflexivity).
    unfold ret. f_equal. apply Hjoin.
Qed.

Lemma rebuild_sparse_counts_witness :
  let idx : NSIndex := {[ key_of x02 := (0, 50) ]} in
  index sparse = Some idx /\ segments sparse !! 0 = Some 1 /\
  data (disk sparse) !! 0 = Some (MAGIC ++ log sparse_log) /\
  Forall well_formed sparse_log /\
  _rebuild_sparse 0 sparse
  = (Ok tt, with_compact (<[0 := 42]> (compact sparse)) sparse).
Proof.
  intros idx.
  assert (H1 : index sparse = Some idx) by reflexivity.
  assert (H2 : segments sparse !! 0 = Some 1) by (vm_compute; reflexivity).
  assert (H3 : data (disk sparse) !! 0 = Some (MAGIC ++ log sparse_log))
    by (vm_compute; reflexivity).
  assert (H4 : Forall well_formed sparse_log).
  { repeat constructor; vm_compute; discriminate. }
  do 4 (split; [assumption|]).
  rewrite (rebuild_sparse_counts sparse 0 1 sparse_log idx H1 H2 H3 H4).
  vm_compute. reflexivity.
Defined.
